(** * A rule-based knowledge-base agent: forward and backward chaining

    Shallow embedding of [agente_base_de_conhecimento.py]: the value model,
    the condition predicate [_cmp], [conditions_hold], the knowledge store,
    [forward_chain], [backward_prove] and the snapshot/undo pair. *)

From Stdlib Require Import ZArith Ascii String List Bool Lia DecimalString.
From Stdlib Require Import SpecFloat.
From stdpp Require Import base option list gmap strings.

Local Open Scope string_scope.

(** ** Values

    The Python values that facts, operands and conclusions hold: [None],
    booleans, integers (unbounded), floats (IEEE binary64, as [spec_float]),
    text and lists.  Text is the UTF-8 encoding of the Python [str]. *)

#[local] Unset Elimination Schemes.
Inductive value : Type :=
| VNone
| VBool (b : bool)
| VInt (n : Z)
| VFloat (f : spec_float)
| VStr (s : string)
| VList (l : list value).
#[local] Set Elimination Schemes.

(** Exceptions the modelled code can meet. *)
Inductive exn : Type := TypeError | ValueError | OverflowError.

Definition exc (A : Type) : Type := (exn + A)%type.
Definition ok {A} (x : A) : exc A := inr x.
Definition raise {A} (e : exn) : exc A := inl e.
Definition bind {A B} (m : exc A) (k : A -> exc B) : exc B :=
  match m with inl e => inl e | inr x => k x end.

(** [try: body except Exception: handler]. *)
Definition try_except {A} (body : exc A) (handler : exn -> exc A) : exc A :=
  match body with inl e => handler e | inr x => inr x end.

Notation "x <- m ;; k" := (bind m (fun x => k))
  (at level 100, m at next level, right associativity).

(** *** Floats *)

Definition prec : Z := 53.
Definition emax : Z := 1024.

(** [float(n)] for an [int]: round to nearest even; [OverflowError] when the
    result would not be finite. *)
Definition float_of_Z (n : Z) : exc spec_float :=
  match binary_normalize prec emax n 0 false with
  | S754_infinity _ => raise OverflowError
  | S754_nan => raise OverflowError
  | f => ok f
  end.

(** [int == float] compares exactly, without rounding the integer. *)
Definition Z_eqb_float (n : Z) (f : spec_float) : bool :=
  match f with
  | S754_zero _ => (n =? 0)%Z
  | S754_finite s m e =>
      let mz := if s then Zneg m else Zpos m in
      if (0 <=? e)%Z then (n =? mz * 2 ^ e)%Z else (n * 2 ^ (- e) =? mz)%Z
  | _ => false
  end.

(** *** Python [==]

    Objects are compared by their contents.  (Python's container comparison
    first tests identity, so a list holding a NaN equals itself, and only
    itself; that shortcut needs object identity and is left out.) *)

Definition int_view (v : value) : option Z :=
  match v with
  | VBool b => Some (Z.b2z b)
  | VInt n => Some n
  | _ => None
  end.

Definition scalar_eq (a b : value) : bool :=
  match a, b with
  | VNone, VNone => true
  | VStr s, VStr t => String.eqb s t
  | VFloat f, VFloat g => SFeqb f g
  | VFloat f, _ => match int_view b with Some n => Z_eqb_float n f | None => false end
  | _, VFloat g => match int_view a with Some n => Z_eqb_float n g | None => false end
  | _, _ =>
      match int_view a, int_view b with
      | Some m, Some n => (m =? n)%Z
      | _, _ => false
      end
  end.

(** Lists are equal when they have the same length and equal elements. *)
Section All2.

Context {A : Type} (eqb : A -> A -> bool).

Fixpoint all2 (xs ys : list A) {struct xs} : bool :=
  match xs, ys with
  | [], [] => true
  | x :: xs', y :: ys' => eqb x y && all2 xs' ys'
  | _, _ => false
  end.

End All2.

Fixpoint py_eq (a b : value) {struct a} : bool :=
  match a with
  | VList la =>
      match b with
      | VList lb => all2 py_eq la lb
      | _ => false
      end
  | _ => scalar_eq a b
  end.

(** [a in l] for a list [l]. *)
Definition py_in_list (a : value) (l : list value) : bool :=
  existsb (fun x => py_eq x a) l.

(** ** Library calls

    Four calls into the Python library are parameters of the model:
    [float(s)] and [json.loads(s)] on text ([None] when the call raises),
    [s.upper()] and [s.strip()].  Text is UTF-8, and the last two follow
    Unicode, so they are not written out here. *)

Class PyLib := {
  py_float_of_str : string -> option spec_float;
  json_loads : string -> option (list value);
  py_upper : string -> string;
  py_strip : string -> string
}.

Section Model.

Context {L : PyLib}.

(** [s.startswith("[")] *)
Definition starts_with_bracket (s : string) : bool :=
  match s with
  | String c _ => Ascii.eqb c "["%char
  | EmptyString => false
  end.

(** [op in [...]] for a list of operator spellings. *)
Definition op_in (op : string) (l : list string) : bool :=
  existsb (String.eqb op) l.

Definition eq_ops : list string := ["="; "=="; "é"; "eh"; "É"].
Definition ne_ops : list string := ["!="; "≠"].
Definition lt_ops : list string := ["<"; "≤"; "<="].
Definition le_ops : list string := ["≤"; "<="].
Definition gt_ops : list string := [">"; "≥"; ">="].
Definition ge_ops : list string := ["≥"; ">="].

(** ** Data model *)

Record Condition := mkCondition {
  c_attr : string;
  c_op : string;
  c_value : value
}.

Record Conclusion := mkConclusion {
  k_attr : string;
  k_op : string;
  k_value : value
}.

Record Rule := mkRule {
  r_id : Z;
  r_conditions : list Condition;
  r_conclusion : Conclusion;
  r_text : string
}.

Record Fact := mkFact {
  f_attr : string;
  f_value : value
}.

Record Justification := mkJustification {
  j_fact : Fact;
  j_rule_id : option Z;
  j_premises : list Fact;
  j_note : string
}.

Record KnowledgeBase := mkKB {
  facts : gmap string value;
  rules : list Rule;
  justifications : gmap string Justification;
  _next_rule_id : Z;
  attributes : gset string;
  _cond_attrs : gset string;
  _concl_attrs : gset string
}.

(** [KnowledgeBase.__init__] *)
Definition kb_init : KnowledgeBase :=
  mkKB ∅ [] ∅ 1 ∅ ∅ ∅.

(** The persisted structure read by [load_json]. *)
Record JsonKB := mkJsonKB {
  o_facts : list Fact;
  o_rules : list Rule
}.

(** *** Catalogs *)

Inductive where_ := WAny | WCond | WConcl.

Definition _touch_attribute (kb : KnowledgeBase) (attr : string) (w : where_)
  : KnowledgeBase :=
  let a := py_strip attr in
  match a with
  | EmptyString => kb
  | _ =>
      mkKB (facts kb) (rules kb) (justifications kb) (_next_rule_id kb)
        ({[a]} ∪ attributes kb)
        (match w with WCond => {[a]} ∪ _cond_attrs kb | _ => _cond_attrs kb end)
        (match w with WConcl => {[a]} ∪ _concl_attrs kb | _ => _concl_attrs kb end)
  end.

Definition _extract_attributes_from_rule (kb : KnowledgeBase) (r : Rule)
  : KnowledgeBase :=
  let kb1 :=
    fold_left (fun k c => _touch_attribute k (c_attr c) WCond) (r_conditions r) kb in
  _touch_attribute kb1 (k_attr (r_conclusion r)) WConcl.

Definition _rebuild_attributes (kb : KnowledgeBase) : KnowledgeBase :=
  let kb0 :=
    mkKB (facts kb) (rules kb) (justifications kb) (_next_rule_id kb) ∅ ∅ ∅ in
  fold_left _extract_attributes_from_rule (rules kb) kb0.

(** *** Facts *)

(** [kb.facts[attr] = value; kb.justifications[attr] = j] *)
Definition assert_fact (kb : KnowledgeBase) (attr : string) (val : value)
    (j : Justification) : KnowledgeBase :=
  mkKB (<[attr := val]> (facts kb)) (rules kb)
       (<[attr := j]> (justifications kb)) (_next_rule_id kb)
       (attributes kb) (_cond_attrs kb) (_concl_attrs kb).

Definition add_fact (kb : KnowledgeBase) (attr : string) (val : value)
    (note : string) : KnowledgeBase :=
  assert_fact kb attr val (mkJustification (mkFact attr val) None [] note).

Definition has_fact (kb : KnowledgeBase) (attr : string) (val : value) : bool :=
  match facts kb !! attr with
  | None => false
  | Some x => match val with VNone => true | _ => py_eq x val end
  end.

(** [del kb.facts[attr]; kb.justifications.pop(attr, None)] (fact removal). *)
Definition remove_fact (kb : KnowledgeBase) (attr : string) : KnowledgeBase :=
  mkKB (delete attr (facts kb)) (rules kb)
       (delete attr (justifications kb)) (_next_rule_id kb)
       (attributes kb) (_cond_attrs kb) (_concl_attrs kb).

(** *** Rules *)

Definition add_rule (kb : KnowledgeBase) (conds : list Condition)
    (concl : Conclusion) (text : string) : Z * KnowledgeBase :=
  let rid := _next_rule_id kb in
  let r := mkRule rid conds concl text in
  let kb1 :=
    mkKB (facts kb) (rules kb ++ [r])%list (justifications kb) (rid + 1)
         (attributes kb) (_cond_attrs kb) (_concl_attrs kb) in
  (rid, _extract_attributes_from_rule kb1 r).

Definition remove_rule (kb : KnowledgeBase) (rid : Z) : bool * KnowledgeBase :=
  let n := length (rules kb) in
  let rs := List.filter (fun r => negb (r_id r =? rid)%Z) (rules kb) in
  let kb1 :=
    mkKB (facts kb) rs (justifications kb) (_next_rule_id kb)
         (attributes kb) (_cond_attrs kb) (_concl_attrs kb) in
  if (length rs <? n)%nat then (true, _rebuild_attributes kb1) else (false, kb1).

(** *** Persistence *)

Definition load_rule (kb : KnowledgeBase) (r : Rule) : KnowledgeBase :=
  mkKB (facts kb) (rules kb ++ [r])%list (justifications kb)
       (Z.max (_next_rule_id kb) (r_id r + 1))
       (attributes kb) (_cond_attrs kb) (_concl_attrs kb).

(** [load_json] re-initialises the store, so the previous state is unused. *)
Definition load_json (_ : KnowledgeBase) (obj : JsonKB) : KnowledgeBase :=
  let kb1 :=
    fold_left (fun k f => add_fact k (f_attr f) (f_value f) "base")
              (o_facts obj) kb_init in
  let kb2 := fold_left load_rule (o_rules obj) kb1 in
  _rebuild_attributes kb2.

(** Outcome of a call that may raise or, in the fuelled model of the
    recursion, run out of fuel. *)
Inductive result : Type :=
| Ret (b : bool)
| Raise (e : exn)
| OutOfFuel.

(** The [visited] set of [(attr, value)] tuples. *)
Definition visited_set : Type := list (string * value).

Definition key_eq (k1 k2 : string * value) : bool :=
  String.eqb (fst k1) (fst k2) && py_eq (snd k1) (snd k2).

Definition visited_mem (k : string * value) (visited : visited_set) : bool :=
  existsb (fun k' => key_eq k' k) visited.

(** A tuple holding a list cannot be hashed. *)
Definition hashable (v : value) : bool :=
  match v with VList _ => false | _ => true end.

(** [f"forward (it={it})"] *)
Definition forward_note (it : nat) : string :=
  "forward (it=" ++ NilEmpty.string_of_uint (Nat.to_uint it) ++ ")".

(** ** The engine *)

Section Engine.

(** [float(v)] *)
Definition py_float (v : value) : exc spec_float :=
  match v with
  | VNone => raise TypeError
  | VBool b => float_of_Z (Z.b2z b)
  | VInt n => float_of_Z n
  | VFloat f => ok f
  | VStr s =>
      match py_float_of_str s with
      | Some f => ok f
      | None => raise ValueError
      end
  | VList _ => raise TypeError
  end.

(** The body of [_cmp], inside its [try]. *)
Definition cmp_body (a : value) (op : string) (b : value) : exc bool :=
  if op_in op eq_ops then ok (py_eq a b)
  else if op_in op ne_ops then ok (negb (py_eq a b))
  else if op_in op lt_ops then
    fa <- py_float a ;; fb <- py_float b ;;
    ok (if op_in op le_ops then SFleb fa fb else SFltb fa fb)
  else if op_in op gt_ops then
    fa <- py_float a ;; fb <- py_float b ;;
    ok (if op_in op ge_ops then SFleb fb fa else SFltb fb fa)
  else if String.eqb (py_upper op) "IN" then
    match b with
    | VList l => ok (py_in_list a l)
    | VStr s =>
        if starts_with_bracket (py_strip s) then
          try_except
            (match json_loads s with
             | Some lista => ok (py_in_list a lista)
             | None => raise ValueError
             end)
            (fun _ => ok false)
        else ok false
    | _ => ok false
    end
  else ok false.

(** [_cmp] with its outer [except Exception: return False]. *)
Definition cmp_outcome (a : value) (op : string) (b : value) : exc bool :=
  try_except (cmp_body a op b) (fun _ => ok false).

Definition _cmp (a : value) (op : string) (b : value) : bool :=
  match cmp_outcome a op b with
  | inr r => r
  | inl _ => false
  end.

(** *** [conditions_hold] *)

Fixpoint conditions_hold_loop (kb : KnowledgeBase) (conds : list Condition)
    (used : list Fact) : bool * list Fact :=
  match conds with
  | [] => (true, used)
  | c :: rest =>
      match facts kb !! c_attr c with
      | None => (false, [])
      | Some x =>
          if negb (_cmp x (c_op c) (c_value c)) then (false, [])
          else conditions_hold_loop kb rest (used ++ [mkFact (c_attr c) x])%list
      end
  end.

Definition conditions_hold (kb : KnowledgeBase) (conds : list Condition)
  : bool * list Fact :=
  conditions_hold_loop kb conds [].

(** *** [forward_chain] *)

(** Loop state: the store, [inferred] and [new_any]. *)
Definition fw_state : Type := (KnowledgeBase * list Fact * bool)%type.

(** One pass of the body of [for r in kb.rules]. *)
Definition fire_rule (it : nat) (st : fw_state) (r : Rule) : fw_state :=
  let '(kb, inferred, new_any) := st in
  let '(okc, used) := conditions_hold kb (r_conditions r) in
  if negb okc then st
  else
    let attr := k_attr (r_conclusion r) in
    let val := k_value (r_conclusion r) in
    if has_fact kb attr val then st
    else
      (assert_fact kb attr val
         (mkJustification (mkFact attr val) (Some (r_id r)) used (forward_note it)),
       (inferred ++ [mkFact attr val])%list,
       true).

(** One round: [new_any = False] then the scan of the rule sequence. *)
Definition forward_round (it : nat) (kb : KnowledgeBase) (inferred : list Fact)
  : fw_state :=
  fold_left (fire_rule it) (rules kb) (kb, inferred, false).

(** [while new_any and it < max_iterations]; [left] is the number of rounds
    the counter test still allows, [max_iterations - it]. *)
Fixpoint forward_while (left : nat) (it : nat) (st : fw_state) : fw_state :=
  let '(kb, inferred, new_any) := st in
  match left with
  | O => st
  | S left' =>
      if new_any then forward_while left' (S it) (forward_round (S it) kb inferred)
      else st
  end.

(** The final loop state of [forward_chain]. *)
Definition forward_chain_state (kb : KnowledgeBase) (max_iterations : Z)
  : fw_state :=
  forward_while (Z.to_nat max_iterations) 0 (kb, [], true).

(** The store after the call and the returned list. *)
Definition forward_chain (kb : KnowledgeBase) (max_iterations : Z)
  : KnowledgeBase * list Fact :=
  fst (forward_chain_state kb max_iterations).

(** *** [backward_prove] *)

Definition bw_state : Type := (result * KnowledgeBase * visited_set)%type.

Section Loops.

(** The recursive call, at the fuel below. *)
Variable prove : KnowledgeBase -> string -> value -> visited_set -> bw_state.

(** [for c in r.conditions]: the result is [premises_ok]. *)
Fixpoint prove_premises (conds : list Condition) (kb : KnowledgeBase)
    (visited : visited_set) (used_facts : list Fact)
  : result * KnowledgeBase * visited_set * list Fact :=
  match conds with
  | [] => (Ret true, kb, visited, used_facts)
  | c :: rest =>
      let a := c_attr c in
      let op := c_op c in
      let v := c_value c in
      match facts kb !! a with
      | Some x =>
          if negb (_cmp x op v) then (Ret false, kb, visited, used_facts)
          else prove_premises rest kb visited (used_facts ++ [mkFact a x])%list
      | None =>
          if op_in op eq_ops then
            match prove kb a v visited with
            | (Ret true, kb', visited') =>
                prove_premises rest kb' visited'
                  (used_facts ++ [mkFact a (default v (facts kb' !! a))])%list
            | (Ret false, kb', visited') => (Ret false, kb', visited', used_facts)
            | (res, kb', visited') => (res, kb', visited', used_facts)
            end
          else (Ret false, kb, visited, used_facts)
      end
  end.

(** [for r in candidates] *)
Fixpoint try_candidates (goal_attr : string) (goal_val : value)
    (candidates : list Rule) (kb : KnowledgeBase) (visited : visited_set)
  : bw_state :=
  match candidates with
  | [] => (Ret false, kb, visited)
  | r :: rest =>
      match prove_premises (r_conditions r) kb visited [] with
      | (Ret true, kb', visited', used_facts) =>
          (Ret true,
           assert_fact kb' goal_attr goal_val
             (mkJustification (mkFact goal_attr goal_val) (Some (r_id r))
                used_facts "backward"),
           visited')
      | (Ret false, kb', visited', _) =>
          try_candidates goal_attr goal_val rest kb' visited'
      | (res, kb', visited', _) => (res, kb', visited')
      end
  end.

End Loops.

Definition is_candidate (goal_attr : string) (goal_val : value) (r : Rule) : bool :=
  String.eqb (k_attr (r_conclusion r)) goal_attr
  && py_eq (k_value (r_conclusion r)) goal_val.

Fixpoint backward_prove_rec (fuel : nat) (kb : KnowledgeBase)
    (goal_attr : string) (goal_val : value) (visited : visited_set) : bw_state :=
  match fuel with
  | O => (OutOfFuel, kb, visited)
  | S fuel' =>
      if negb (hashable goal_val) then (Raise TypeError, kb, visited)
      else if visited_mem (goal_attr, goal_val) visited then (Ret false, kb, visited)
      else
        let visited := (goal_attr, goal_val) :: visited in
        if has_fact kb goal_attr goal_val then (Ret true, kb, visited)
        else
          let candidates := List.filter (is_candidate goal_attr goal_val) (rules kb) in
          try_candidates (backward_prove_rec fuel') goal_attr goal_val
            candidates kb visited
  end.

(** The pairs that can become sub-goals: one per condition of a rule. *)
Definition subgoal_pairs (kb : KnowledgeBase) : list (string * value) :=
  flat_map (fun r => map (fun c => (c_attr c, c_value c)) (r_conditions r))
           (rules kb).

Definition fuel_bound (kb : KnowledgeBase) : nat :=
  2 + length (subgoal_pairs kb).

(** The top-level call, [visited=None]. *)
Definition backward_prove (kb : KnowledgeBase) (goal_attr : string)
    (goal_val : value) : result * KnowledgeBase :=
  fst (backward_prove_rec (fuel_bound kb) kb goal_attr goal_val []).

End Engine.

(** A rule to add: conditions, conclusion and text. *)
Definition rule_spec : Type := (list Condition * Conclusion * string)%type.

(** Successive [add_rule] calls; the ids handed out, in order. *)
Fixpoint add_rules (kb : KnowledgeBase) (specs : list rule_spec)
  : list Z * KnowledgeBase :=
  match specs with
  | [] => ([], kb)
  | (conds, concl, text) :: rest =>
      let '(rid, kb1) := add_rule kb conds concl text in
      let '(rids, kb2) := add_rules kb1 rest in
      (rid :: rids, kb2)
  end.

(** ** The object store, snapshots and undo

    The store's containers are mutable objects: the two dicts, the rule list
    and the three sets are reached through references, assignments into them
    happen in place, and [snapshot_kb] and [restore_kb] build new containers.
    [Rule], [Fact] and [Justification] objects are never assigned to after
    their construction and are kept as values. *)

Definition loc : Type := positive.

(** A new object: a reference that is not in use, holding [x]. *)
Definition alloc {A} (m : gmap loc A) (x : A) : loc * gmap loc A :=
  let l := fresh (dom m) in (l, <[l := x]> m).

(** The container [kb.field] after an operation: a new object when the
    operation rebinds the field, the same object updated in place otherwise. *)
Definition put {A} (rebind : bool) (m : gmap loc A) (l : loc) (x : A)
  : loc * gmap loc A :=
  if rebind then alloc m x else (l, <[l := x]> m).

Record heap := mkHeap {
  h_dicts : gmap loc (gmap string value);
  h_jdicts : gmap loc (gmap string Justification);
  h_lists : gmap loc (list Rule);
  h_sets : gmap loc (gset string)
}.

(** The [KnowledgeBase] instance. *)
Record kb_object := mkKbObject {
  facts_ref : loc;
  rules_ref : loc;
  justifications_ref : loc;
  next_rule_id_field : Z;
  attributes_ref : loc;
  cond_attrs_ref : loc;
  concl_attrs_ref : loc
}.

(** The [Snapshot] dataclass. *)
Record Snapshot := mkSnapshot {
  s_facts : loc;
  s_justifications : loc;
  s_rules : loc;
  s_next_rule_id : Z;
  s_attributes : loc;
  s_cond_attrs : loc;
  s_concl_attrs : loc
}.

Record machine := mkMachine {
  m_heap : heap;
  m_kb : kb_object;
  undo_stack : list Snapshot
}.

Definition read {A} `{Empty A} (m : gmap loc A) (l : loc) : A :=
  default ∅ (m !! l).

(** The store as the engine sees it through [kb]. *)
Definition view_of (h : heap) (o : kb_object) : KnowledgeBase :=
  mkKB (read (h_dicts h) (facts_ref o))
       (default [] (h_lists h !! rules_ref o))
       (read (h_jdicts h) (justifications_ref o))
       (next_rule_id_field o)
       (read (h_sets h) (attributes_ref o))
       (read (h_sets h) (cond_attrs_ref o))
       (read (h_sets h) (concl_attrs_ref o)).

Definition view (st : machine) : KnowledgeBase := view_of (m_heap st) (m_kb st).

(** What a snapshot holds. *)
Definition snapshot_view (h : heap) (snap : Snapshot) : KnowledgeBase :=
  mkKB (read (h_dicts h) (s_facts snap))
       (default [] (h_lists h !! s_rules snap))
       (read (h_jdicts h) (s_justifications snap))
       (s_next_rule_id snap)
       (read (h_sets h) (s_attributes snap))
       (read (h_sets h) (s_cond_attrs snap))
       (read (h_sets h) (s_concl_attrs snap)).

(** [KnowledgeBase()] with an empty undo stack. *)
Definition machine_init : machine :=
  let '(lf, hd) := alloc ∅ ∅ in
  let '(lr, hl) := alloc ∅ [] in
  let '(lj, hj) := alloc ∅ ∅ in
  let '(la, hs) := alloc ∅ ∅ in
  let '(lc, hs) := alloc hs ∅ in
  let '(lk, hs) := alloc hs ∅ in
  mkMachine (mkHeap hd hj hl hs) (mkKbObject lf lr lj 1 la lc lk) [].

(** [Justification(Fact(v.fact.attr, v.fact.value), v.rule_id,
     [Fact(p.attr, p.value) for p in v.premises], v.note)] *)
Definition copy_fact (p : Fact) : Fact := mkFact (f_attr p) (f_value p).

Definition copy_justification (v : Justification) : Justification :=
  mkJustification (copy_fact (j_fact v)) (j_rule_id v)
                  (map copy_fact (j_premises v)) (j_note v).

(** [Rule(r.id, list(r.conditions), dict(r.conclusion), r.text)] *)
Definition copy_rule (r : Rule) : Rule :=
  mkRule (r_id r) (map (fun c => c) (r_conditions r))
         (mkConclusion (k_attr (r_conclusion r)) (k_op (r_conclusion r))
                       (k_value (r_conclusion r)))
         (r_text r).

(** [Rule(r.id, r.conditions, r.conclusion, r.text)] *)
Definition rewrap_rule (r : Rule) : Rule :=
  mkRule (r_id r) (r_conditions r) (r_conclusion r) (r_text r).

Definition snapshot_kb (h : heap) (o : kb_object) : Snapshot * heap :=
  let '(lj, hj) :=
    alloc (h_jdicts h)
          (copy_justification <$> read (h_jdicts h) (justifications_ref o)) in
  let '(lr, hl) :=
    alloc (h_lists h) (map copy_rule (default [] (h_lists h !! rules_ref o))) in
  let '(lf, hd) := alloc (h_dicts h) (read (h_dicts h) (facts_ref o)) in
  let '(la, hs) := alloc (h_sets h) (read (h_sets h) (attributes_ref o)) in
  let '(lc, hs) := alloc hs (read hs (cond_attrs_ref o)) in
  let '(lk, hs) := alloc hs (read hs (concl_attrs_ref o)) in
  (mkSnapshot lf lj lr (next_rule_id_field o) la lc lk, mkHeap hd hj hl hs).

Definition restore_kb (h : heap) (snap : Snapshot) : kb_object * heap :=
  let '(lf, hd) := alloc (h_dicts h) (read (h_dicts h) (s_facts snap)) in
  let '(lj, hj) := alloc (h_jdicts h) (read (h_jdicts h) (s_justifications snap)) in
  let '(lr, hl) :=
    alloc (h_lists h) (map rewrap_rule (default [] (h_lists h !! s_rules snap))) in
  let '(la, hs) := alloc (h_sets h) (read (h_sets h) (s_attributes snap)) in
  let '(lc, hs) := alloc hs (read hs (s_cond_attrs snap)) in
  let '(lk, hs) := alloc hs (read hs (s_concl_attrs snap)) in
  (mkKbObject lf lr lj (s_next_rule_id snap) la lc lk, mkHeap hd hj hl hs).

(** Which attributes of [kb] an operation rebinds to new containers. *)
Record rebinds := mkRebinds {
  rb_facts : bool;
  rb_rules : bool;
  rb_justifications : bool;
  rb_attributes : bool;
  rb_cond_attrs : bool;
  rb_concl_attrs : bool
}.

(** The store after an operation that leaves the contents [new]. *)
Definition commit (rb : rebinds) (new : KnowledgeBase) (h : heap) (o : kb_object)
  : kb_object * heap :=
  let '(lf, hd) := put (rb_facts rb) (h_dicts h) (facts_ref o) (facts new) in
  let '(lr, hl) := put (rb_rules rb) (h_lists h) (rules_ref o) (rules new) in
  let '(lj, hj) :=
    put (rb_justifications rb) (h_jdicts h) (justifications_ref o)
        (justifications new) in
  let '(la, hs) :=
    put (rb_attributes rb) (h_sets h) (attributes_ref o) (attributes new) in
  let '(lc, hs) := put (rb_cond_attrs rb) hs (cond_attrs_ref o) (_cond_attrs new) in
  let '(lk, hs) := put (rb_concl_attrs rb) hs (concl_attrs_ref o) (_concl_attrs new) in
  (mkKbObject lf lr lj (_next_rule_id new) la lc lk, mkHeap hd hj hl hs).

(** The mutating operations of the command layer. *)
Inductive mutation : Type :=
| AddFact (attr : string) (val : value)
| RemoveFact (attr : string)
| AddRule (conds : list Condition) (concl : Conclusion) (text : string)
| RemoveRule (rid : Z)
| ImportRules (specs : list rule_spec)
| ForwardRun
| BackwardRun (goal_attr : string) (goal_val : value)
| LoadJson (obj : JsonKB).

Definition in_place : rebinds := mkRebinds false false false false false false.
Definition all_new : rebinds := mkRebinds true true true true true true.

Section Machine.

(** The contents an operation leaves. *)
Definition effect (m : mutation) (kb : KnowledgeBase) : KnowledgeBase :=
  match m with
  | AddFact attr val => add_fact kb attr val "base"
  | RemoveFact attr => remove_fact kb attr
  | AddRule conds concl text => snd (add_rule kb conds concl text)
  | RemoveRule rid => snd (remove_rule kb rid)
  | ImportRules specs => snd (add_rules kb specs)
  | ForwardRun => fst (forward_chain kb 50)
  | BackwardRun goal_attr goal_val =>
      snd (backward_prove kb goal_attr goal_val)
  | LoadJson obj => load_json kb obj
  end.

(** [remove_rule] assigns a new list to [kb.rules] and, when a rule went,
    new sets to the catalogs; [load_json] starts from [__init__]; every
    other operation updates the containers in place. *)
Definition rebinds_of (m : mutation) (kb : KnowledgeBase) : rebinds :=
  match m with
  | RemoveRule rid =>
      let removed := fst (remove_rule kb rid) in
      mkRebinds false true false removed removed removed
  | LoadJson _ => all_new
  | _ => in_place
  end.

Definition run (m : mutation) (st : machine) : machine :=
  let '(o, h) :=
    commit (rebinds_of m (view st)) (effect m (view st)) (m_heap st) (m_kb st) in
  mkMachine h o (undo_stack st).

(** [undo_stack.append(snapshot_kb(kb))]; the head of the list is the top. *)
Definition push_snapshot (st : machine) : machine :=
  let '(snap, h) := snapshot_kb (m_heap st) (m_kb st) in
  mkMachine h (m_kb st) (snap :: undo_stack st).

(** A handler: snapshot, then the operation. *)
Definition handle (m : mutation) (st : machine) : machine :=
  run m (push_snapshot st).

Definition handle_undo (st : machine) : machine :=
  match undo_stack st with
  | [] => st
  | snap :: rest =>
      let '(o, h) := restore_kb (m_heap st) snap in
      mkMachine h o rest
  end.

End Machine.

(** The references of [kb] are in use, and its three sets are three
    objects. *)
Record wf_kb (h : heap) (o : kb_object) : Prop := mk_wf_kb {
  wf_facts : facts_ref o ∈ dom (h_dicts h);
  wf_rules : rules_ref o ∈ dom (h_lists h);
  wf_justifications : justifications_ref o ∈ dom (h_jdicts h);
  wf_attributes : attributes_ref o ∈ dom (h_sets h);
  wf_cond_attrs : cond_attrs_ref o ∈ dom (h_sets h);
  wf_concl_attrs : concl_attrs_ref o ∈ dom (h_sets h);
  wf_sets_1 : attributes_ref o ≠ cond_attrs_ref o;
  wf_sets_2 : attributes_ref o ≠ concl_attrs_ref o;
  wf_sets_3 : cond_attrs_ref o ≠ concl_attrs_ref o
}.

Definition wf (st : machine) : Prop := wf_kb (m_heap st) (m_kb st).

(** [l] is one of the three sets of the snapshot. *)
Definition snap_set (snap : Snapshot) (l : loc) : Prop :=
  l = s_attributes snap ∨ l = s_cond_attrs snap ∨ l = s_concl_attrs snap.

(** The containers of a snapshot are in use. *)
Record snap_alloc (h : heap) (snap : Snapshot) : Prop := mk_snap_alloc {
  sal_facts : s_facts snap ∈ dom (h_dicts h);
  sal_rules : s_rules snap ∈ dom (h_lists h);
  sal_justifications : s_justifications snap ∈ dom (h_jdicts h);
  sal_sets : ∀ l, snap_set snap l → l ∈ dom (h_sets h)
}.

(** No container of the snapshot is a container of [kb]. *)
Record snap_apart (o : kb_object) (snap : Snapshot) : Prop := mk_snap_apart {
  sap_facts : s_facts snap ≠ facts_ref o;
  sap_rules : s_rules snap ≠ rules_ref o;
  sap_justifications : s_justifications snap ≠ justifications_ref o;
  sap_sets : ∀ l, snap_set snap l →
    l ≠ attributes_ref o ∧ l ≠ cond_attrs_ref o ∧ l ≠ concl_attrs_ref o
}.

(** Every object in use in [h] is in [h'] as it is in [h]. *)
Definition heap_extends (h h' : heap) : Prop :=
  (∀ l, l ∈ dom (h_dicts h) → h_dicts h' !! l = h_dicts h !! l)
  ∧ (∀ l, l ∈ dom (h_jdicts h) → h_jdicts h' !! l = h_jdicts h !! l)
  ∧ (∀ l, l ∈ dom (h_lists h) → h_lists h' !! l = h_lists h !! l)
  ∧ (∀ l, l ∈ dom (h_sets h) → h_sets h' !! l = h_sets h !! l).

(** What the snapshots of the undo stack hold, top first. *)
Definition stack_views (st : machine) : list KnowledgeBase :=
  map (snapshot_view (m_heap st)) (undo_stack st).

(** The store is well formed and every snapshot of the undo stack is in use
    and apart from the store. *)
Definition stack_sound (st : machine) : Prop :=
  wf st
  ∧ ∀ snap, snap ∈ undo_stack st →
      snap_alloc (m_heap st) snap ∧ snap_apart (m_kb st) snap.

(** A command of the menu that changes the session: a mutating handler or
    undo. *)
Inductive command : Type :=
| Do (m : mutation)
| Undo.

Section Session.

Definition step (st : machine) (c : command) : machine :=
  match c with
  | Do m => handle m st
  | Undo => handle_undo st
  end.

(** The session as stores only: the current one and the stack of earlier
    ones. *)
Definition step_stores (s : KnowledgeBase * list KnowledgeBase) (c : command)
  : KnowledgeBase * list KnowledgeBase :=
  match c with
  | Do m => (effect m (fst s), fst s :: snd s)
  | Undo =>
      match snd s with
      | [] => s
      | kb :: rest => (kb, rest)
      end
  end.

End Session.

Definition stores_of (st : machine) : KnowledgeBase * list KnowledgeBase :=
  (view st, stack_views st).

(** ** Explanation

    [explain_how] and [explain_why] build text.  The text of a value,
    [str(val)], is a parameter; rule ids are printed in decimal. *)

Definition nl : string := String (ascii_of_nat 10) EmptyString.

Definition string_of_Z (z : Z) : string := NilZero.string_of_int (Z.to_int z).

(** ["  " * depth] *)
Fixpoint pad_of (depth : nat) : string :=
  match depth with
  | O => EmptyString
  | S d => "  " ++ pad_of d
  end.

(** What an explanation call gives: its text, a [KeyError], or, in the
    fuelled model of the recursion, nothing yet. *)
Inductive explained : Type :=
| Explained (s : string)
| MissingKey
| Unfinished.

(** [next((rr for rr in kb.rules if rr.id == rule_id), None)] *)
Definition rule_by_id (kb : KnowledgeBase) (rid : Z) : option Rule :=
  List.find (fun rr => (r_id rr =? rid)%Z) (rules kb).

(** [if r and r.text: s += f" — '{r.text}'"] *)
Definition with_rule_text (s : string) (r : option Rule) : string :=
  match r with
  | Some rr =>
      match r_text rr with
      | EmptyString => s
      | t => s ++ " — '" ++ t ++ "'"
      end
  | None => s
  end.

Section Explanation.

Variable py_str : value -> string.

Section HowLoop.

(** The recursive call, at the fuel below. *)
Variable how : string -> value -> nat -> explained.

(** [for p in j.premises: s += explain_how(...)] *)
Fixpoint how_premises (kb : KnowledgeBase) (premises : list Fact) (depth : nat)
    (s : string) : explained :=
  match premises with
  | [] => Explained s
  | p :: rest =>
      match how (f_attr p) (default (f_value p) (facts kb !! f_attr p)) (S depth) with
      | Explained t => how_premises kb rest depth (s ++ t)
      | other => other
      end
  end.

End HowLoop.

Fixpoint explain_how_rec (fuel : nat) (kb : KnowledgeBase) (attr : string)
    (val : value) (depth : nat) : explained :=
  match fuel with
  | O => Unfinished
  | S fuel' =>
      let pad := pad_of depth in
      if negb (has_fact kb attr val) then
        Explained (pad ++ "- Não foi provado " ++ attr ++ " = " ++ py_str val
                   ++ "." ++ nl)
      else
        match justifications kb !! attr with
        | None =>
            Explained (pad ++ "- " ++ attr ++ " = " ++ py_str val
                       ++ " (base / sem nota)" ++ nl)
        | Some j =>
            match j_rule_id j with
            | None =>
                Explained (pad ++ "- " ++ attr ++ " = " ++ py_str val
                           ++ " (base / " ++ j_note j ++ ")" ++ nl)
            | Some rid =>
                let s :=
                  pad ++ "- Passo: " ++ attr ++ " = " ++ py_str val
                  ++ " via Regra #" ++ string_of_Z rid in
                let s := with_rule_text s (rule_by_id kb rid) in
                let s := s ++ " [" ++ j_note j ++ "]" ++ nl in
                how_premises (explain_how_rec fuel' kb) kb (j_premises j) depth s
            end
        end
  end.

(** [for p in j.premises] of [explain_why]. *)
Fixpoint why_premises (fuel : nat) (kb : KnowledgeBase) (premises : list Fact)
    (depth : nat) (s : string) : explained :=
  match premises with
  | [] => Explained s
  | p :: rest =>
      match justifications kb !! f_attr p with
      | Some jp =>
          match j_rule_id jp with
          | Some _ =>
              match facts kb !! f_attr p with
              | None => MissingKey
              | Some x =>
                  match explain_how_rec fuel kb (f_attr p) x (S depth) with
                  | Explained t => why_premises fuel kb rest depth (s ++ t)
                  | other => other
                  end
              end
          | None =>
              why_premises fuel kb rest depth
                (s ++ pad_of (S depth) ++ "- premissa: " ++ f_attr p ++ " = "
                 ++ py_str (f_value p) ++ " (conhecido)" ++ nl)
          end
      | None =>
          why_premises fuel kb rest depth
            (s ++ pad_of (S depth) ++ "- premissa: " ++ f_attr p ++ " = "
             ++ py_str (f_value p) ++ " (conhecido)" ++ nl)
      end
  end.

(** [explain_why]; [fuel] bounds the calls of [explain_how] below it. *)
Definition explain_why (fuel : nat) (kb : KnowledgeBase) (attr : string)
    (val : value) (depth : nat) : explained :=
  let pad := pad_of depth in
  if negb (has_fact kb attr val) then
    Explained (pad ++ "- Não há fato " ++ attr ++ " = " ++ py_str val
               ++ " na KB." ++ nl)
  else
    match justifications kb !! attr with
    | None =>
        Explained (pad ++ "- " ++ attr ++ " = " ++ py_str val
                   ++ " (sem justificativa registrada)" ++ nl)
    | Some j =>
        match j_rule_id j with
        | None =>
            Explained (pad ++ "- " ++ attr ++ " = " ++ py_str val
                       ++ " (fornecido pelo usuário / " ++ j_note j ++ ")" ++ nl)
        | Some rid =>
            let s :=
              pad ++ "- " ++ attr ++ " = " ++ py_str val
              ++ " porque aplicou a Regra #" ++ string_of_Z rid in
            let s := with_rule_text s (rule_by_id kb rid) in
            let s := s ++ " [" ++ j_note j ++ "]" ++ nl in
            why_premises fuel kb (j_premises j) depth s
        end
    end.

End Explanation.

(** The justification of [a] names a rule and has a premise about [b]. *)
Definition cites (kb : KnowledgeBase) (a b : string) : Prop :=
  ∃ j rid p,
    justifications kb !! a = Some j ∧ j_rule_id j = Some rid
    ∧ p ∈ j_premises j ∧ f_attr p = b.

(** [explain_how] passes the test [has_fact] at the current fact of [a]. *)
Definition explainable (kb : KnowledgeBase) (a : string) : Prop :=
  ∃ x, facts kb !! a = Some x ∧ has_fact kb a x = true.

(** ** Values seen in the rules *)

(** The inner loop of [get_example_values_for_attr]; the flag tells that
    the function returned from inside the loop.  [v not in seen] compares
    by content: the values reached are distinct objects. *)
Fixpoint example_values_conditions (attr : string) (max_n : Z)
    (conds : list Condition) (seen : list value) : list value * bool :=
  match conds with
  | [] => (seen, false)
  | c :: rest =>
      if String.eqb (c_attr c) attr then
        let v := c_value c in
        if negb (py_in_list v seen) then
          let seen' := (seen ++ [v])%list in
          if (max_n <=? Z.of_nat (length seen'))%Z then (seen', true)
          else example_values_conditions attr max_n rest seen'
        else example_values_conditions attr max_n rest seen
      else example_values_conditions attr max_n rest seen
  end.

Fixpoint example_values_rules (attr : string) (max_n : Z)
    (rs : list Rule) (seen : list value) : list value :=
  match rs with
  | [] => seen
  | r :: rest =>
      let '(seen', returned) :=
        example_values_conditions attr max_n (r_conditions r) seen in
      if returned then seen' else example_values_rules attr max_n rest seen'
  end.

Definition get_example_values_for_attr (kb : KnowledgeBase) (attr : string)
    (max_n : Z) : list value :=
  example_values_rules attr max_n (rules kb) [].

(** [max_n and len(seen) >= max_n], for [max_n] an integer or [None]. *)
Definition goal_cap_reached (max_n : option Z) (seen : list value) : bool :=
  match max_n with
  | Some n => negb (n =? 0)%Z && (n <=? Z.of_nat (length seen))%Z
  | None => false
  end.

Fixpoint goal_values_rules (attr : string) (max_n : option Z)
    (rs : list Rule) (seen : list value) : list value :=
  match rs with
  | [] => seen
  | r :: rest =>
      let concl := r_conclusion r in
      if String.eqb (k_attr concl) attr then
        let v := k_value concl in
        if negb (py_in_list v seen) then
          let seen' := (seen ++ [v])%list in
          if goal_cap_reached max_n seen' then seen'
          else goal_values_rules attr max_n rest seen'
        else goal_values_rules attr max_n rest seen
      else goal_values_rules attr max_n rest seen
  end.

Definition get_goal_values_for_attr (kb : KnowledgeBase) (attr : string)
    (max_n : option Z) : list value :=
  goal_values_rules attr max_n (rules kb) [].

(** No value of the list equals one before it. *)
Definition distinct_values (l : list value) : Prop :=
  ∀ i j x y, (i < j)%nat → l !! i = Some x → l !! j = Some y → py_eq x y = false.

(** [v] is in the list, or equals one of its values. *)
Definition covered (v : value) (l : list value) : Prop :=
  v ∈ l ∨ py_in_list v l = true.

(** The values of the conditions on [attr], in rule order. *)
Definition condition_values (attr : string) (conds : list Condition) : list value :=
  map c_value (List.filter (fun c => String.eqb (c_attr c) attr) conds).

(** The values concluded for [attr], in rule order. *)
Definition conclusion_values (attr : string) (rs : list Rule) : list value :=
  map (fun r => k_value (r_conclusion r))
      (List.filter (fun r => String.eqb (k_attr (r_conclusion r)) attr) rs).

(** Both functions as one scan of a list of values: keep a value that
    equals none kept so far, stop when [stop] says so. *)
Fixpoint scan_values (stop : list value → bool) (vs seen : list value)
    : list value * bool :=
  match vs with
  | [] => (seen, false)
  | v :: rest =>
      if py_in_list v seen then scan_values stop rest seen
      else
        let seen' := (seen ++ [v])%list in
        if stop seen' then (seen', true) else scan_values stop rest seen'
  end.

(** The attributes can be ranked so that every justification cites
    attributes of lower rank only. *)
Definition ranked (kb : KnowledgeBase) : Prop :=
  ∃ rank : string → nat, ∀ a b, cites kb a b → (rank b < rank a)%nat.

(** Every cited attribute has a fact. *)
Definition premises_known (kb : KnowledgeBase) : Prop :=
  ∀ a b, cites kb a b → is_Some (facts kb !! b).

(** A rank above the rank of every premise. *)
Definition rank_above (rank : string → nat) (premises : list Fact) : nat :=
  S (fold_right (fun p m => Nat.max (rank (f_attr p)) m) O premises).

(** ** Vocabulary of the statements *)

Definition ordering_op (op : string) : bool :=
  op_in op lt_ops || op_in op gt_ops.

Definition known_op (op : string) : bool :=
  op_in op eq_ops || op_in op ne_ops || ordering_op op
  || String.eqb (py_upper op) "IN".

Section Vocabulary.

(** A number, or text that [float] accepts. *)
Definition numeric_operand (v : value) : bool :=
  match v with
  | VInt _ | VFloat _ => true
  | VStr s => match py_float_of_str s with Some _ => true | None => false end
  | _ => false
  end.

(** [float(v)] returns. *)
Definition float_coercible (v : value) : bool :=
  match py_float v with inr _ => true | inl _ => false end.

(** A single condition against the current facts. *)
Definition cond_holds (kb : KnowledgeBase) (c : Condition) : bool :=
  match facts kb !! c_attr c with
  | None => false
  | Some x => _cmp x (c_op c) (c_value c)
  end.

(** [p] is the fact consulted for [c]. *)
Definition consulted (kb : KnowledgeBase) (c : Condition) (p : Fact) : Prop :=
  f_attr p = c_attr c ∧ facts kb !! c_attr c = Some (f_value p).

(** What one pass of the loop body does: nothing, or one assertion. *)
Inductive fired (it : nat) (r : Rule) : fw_state → fw_state → Prop :=
| fired_skip st : fired it r st st
| fired_assert kb inferred new_any used :
    conditions_hold kb (r_conditions r) = (true, used) →
    has_fact kb (k_attr (r_conclusion r)) (k_value (r_conclusion r)) = false →
    fired it r (kb, inferred, new_any)
      (assert_fact kb (k_attr (r_conclusion r)) (k_value (r_conclusion r))
         (mkJustification
            (mkFact (k_attr (r_conclusion r)) (k_value (r_conclusion r)))
            (Some (r_id r)) used (forward_note it)),
       (inferred ++ [mkFact (k_attr (r_conclusion r)) (k_value (r_conclusion r))])%list,
       true).

(** The rule would assert its conclusion on this store. *)
Definition fires (kb : KnowledgeBase) (r : Rule) : bool :=
  fst (conditions_hold kb (r_conditions r))
  && negb (has_fact kb (k_attr (r_conclusion r)) (k_value (r_conclusion r))).

(** No rule of the store would assert anything: a fixpoint of the scan. *)
Definition quiescent (kb : KnowledgeBase) : Prop :=
  ∀ r, r ∈ rules kb → fires kb r = false.

End Vocabulary.

(** Facts and justifications have the same keys. *)
Definition keyed_identically (kb : KnowledgeBase) : Prop :=
  dom (facts kb) = dom (justifications kb).

(** The fact and the justification of [x] are the same in both stores. *)
Definition unchanged_at (kb kb' : KnowledgeBase) (x : string) : Prop :=
  facts kb' !! x = facts kb !! x
  ∧ justifications kb' !! x = justifications kb !! x.

(** Every pair visited before is still visited. *)
Definition visited_incl (vis vis' : visited_set) : Prop :=
  ∀ k, visited_mem k vis = true → visited_mem k vis' = true.

(** What a call of the prover does to the store and to [visited]: the
    rules stay, [visited] grows, known attributes stay known, and the fact
    and justification of every known attribute are unchanged, except for the
    goal attribute of a call that returns [True]. *)
Record bw_post (goal : option string) (kb : KnowledgeBase) (vis : visited_set)
    (st : bw_state) : Prop := mk_bw_post {
  post_rules : rules (snd (fst st)) = rules kb;
  post_visited : visited_incl vis (snd st);
  post_known : ∀ x, is_Some (facts kb !! x) → is_Some (facts (snd (fst st)) !! x);
  post_unchanged : ∀ x, is_Some (facts kb !! x) →
    (fst (fst st) = Ret true ∧ goal = Some x) ∨ unchanged_at kb (snd (fst st)) x;
  post_keyed : keyed_identically kb → keyed_identically (snd (fst st))
}.

(** The call returned or raised: it did not run out of fuel. *)
Definition finished (res : result) : bool :=
  match res with OutOfFuel => false | _ => true end.

(** Sub-goal pairs not yet visited: the recursion depth still available. *)
Definition unvisited (kb : KnowledgeBase) (vis : visited_set) : nat :=
  length (List.filter (fun u => negb (visited_mem u vis)) (subgoal_pairs kb)).

(** The stores agree on everything but the catalogs. *)
Definition same_core (kb kb' : KnowledgeBase) : Prop :=
  facts kb' = facts kb ∧ rules kb' = rules kb
  ∧ justifications kb' = justifications kb
  ∧ _next_rule_id kb' = _next_rule_id kb.

(** Every rule of the store has an id below the next id to hand out. *)
Definition ids_below_next (kb : KnowledgeBase) : Prop :=
  ∀ r, r ∈ rules kb → (r_id r < _next_rule_id kb)%Z.

(** *** Catalogs against the rule sequence *)

(** [x] is the stripped, non-empty name of a condition attribute of [l]. *)
Definition named_in_conditions (l : list Rule) (x : string) : Prop :=
  x ≠ EmptyString
  ∧ ∃ r c, r ∈ l ∧ c ∈ r_conditions r ∧ py_strip (c_attr c) = x.

(** [x] is the stripped, non-empty name of a conclusion attribute of [l]. *)
Definition named_in_conclusions (l : list Rule) (x : string) : Prop :=
  x ≠ EmptyString
  ∧ ∃ r, r ∈ l ∧ py_strip (k_attr (r_conclusion r)) = x.

(** The three catalogs hold exactly the names the rules mention. *)
Definition catalogs_in_sync (kb : KnowledgeBase) : Prop :=
  ∀ x,
    (x ∈ _cond_attrs kb ↔ named_in_conditions (rules kb) x)
    ∧ (x ∈ _concl_attrs kb ↔ named_in_conclusions (rules kb) x)
    ∧ (x ∈ attributes kb
       ↔ named_in_conditions (rules kb) x ∨ named_in_conclusions (rules kb) x).

(** Two stores with the same rule-side state: rules, counter and catalogs. *)
Definition same_rule_side (kb kb' : KnowledgeBase) : Prop :=
  rules kb' = rules kb ∧ _next_rule_id kb' = _next_rule_id kb
  ∧ attributes kb' = attributes kb ∧ _cond_attrs kb' = _cond_attrs kb
  ∧ _concl_attrs kb' = _concl_attrs kb.

(** Rule ids are pairwise distinct and below the next id to hand out. *)
Definition ids_unique (kb : KnowledgeBase) : Prop :=
  NoDup (map r_id (rules kb)) ∧ ids_below_next kb.

(** [get_fact] *)
Definition get_fact (kb : KnowledgeBase) (attr : string) : option value :=
  facts kb !! attr.

(** [to_json].  The facts are listed in the order of the map's keys; the
    dict's insertion order is not part of the model. *)
Definition to_json (kb : KnowledgeBase) : JsonKB :=
  mkJsonKB (map (fun kv => mkFact (fst kv) (snd kv)) (map_to_list (facts kb)))
           (rules kb).

(** The justification [add_fact] records. *)
Definition base_justification (attr : string) (val : value) : Justification :=
  mkJustification (mkFact attr val) None [] "base".

(** *** Forward chaining: vocabulary *)

(** The facts after the writes [kb.facts[f.attr] = f.value], in order. *)
Definition replay (inferred : list Fact) (m : gmap string value)
  : gmap string value :=
  fold_left (fun m f => <[f_attr f := f_value f]> m) inferred m.

(** The store with [m] for facts. *)
Definition with_facts (kb : KnowledgeBase) (m : gmap string value) : KnowledgeBase :=
  mkKB m (rules kb) (justifications kb) (_next_rule_id kb)
       (attributes kb) (_cond_attrs kb) (_concl_attrs kb).

(** [f] is the conclusion of [r]. *)
Definition concludes (r : Rule) (f : Fact) : Prop :=
  f_attr f = k_attr (r_conclusion r) ∧ f_value f = k_value (r_conclusion r).

(** The test of [has_fact] on a stored value. *)
Definition accepts (stored val : value) : bool :=
  match val with VNone => true | _ => py_eq stored val end.

(** Rules that conclude the same attribute conclude values that pass for one
    another. *)
Definition rules_agree (kb : KnowledgeBase) : Prop :=
  ∀ r r', r ∈ rules kb → r' ∈ rules kb →
    k_attr (r_conclusion r) = k_attr (r_conclusion r') →
    accepts (k_value (r_conclusion r)) (k_value (r_conclusion r')) = true.

(** The fact of an attribute passes for every value a rule concludes for
    it. *)
Definition facts_agree (kb : KnowledgeBase) : Prop :=
  ∀ r x, r ∈ rules kb → facts kb !! k_attr (r_conclusion r) = Some x →
    accepts x (k_value (r_conclusion r)) = true.

(** Rules whose conclusion attribute has no fact yet. *)
Definition open_rules (kb0 kb : KnowledgeBase) : nat :=
  length (List.filter
            (fun r => negb (bool_decide (is_Some (facts kb !! k_attr (r_conclusion r)))))
            (rules kb0)).

(** *** Backward chaining: vocabulary *)

Section BackwardVocabulary.

(** The condition stops its candidate on the spot: its attribute has a fact
    that fails the test, or has no fact and the operator is not an
    equality. *)
Definition fails_at_once (kb : KnowledgeBase) (c : Condition) : bool :=
  match facts kb !! c_attr c with
  | Some x => negb (_cmp x (c_op c) (c_value c))
  | None => negb (op_in (c_op c) eq_ops)
  end.

(** The first condition of the rule stops it on the spot. *)
Definition blocked_candidate (kb : KnowledgeBase) (r : Rule) : bool :=
  match r_conditions r with
  | c :: _ => fails_at_once kb c
  | [] => false
  end.

End BackwardVocabulary.

(** *** What a backward proof writes *)

(** The premise recorded for a condition meets it: it is about the
    condition's attribute, and its value passes the comparison, or the
    operator is an equality and [has_fact] accepted the value. *)
Definition premise_meets (c : Condition) (p : Fact) : Prop :=
  f_attr p = c_attr c
  ∧ (_cmp (f_value p) (c_op c) (c_value c) = true
     ∨ (op_in (c_op c) eq_ops = true ∧ accepts (f_value p) (c_value c) = true)).

(** The fact [x = w] was written by a backward proof: a rule of the store
    concludes it, and its justification names that rule, with the note
    "backward" and one premise per condition of the rule, each meeting its
    condition. *)
Definition written_backward (kb : KnowledgeBase) (x : string) (w : value) : Prop :=
  ∃ r used,
    r ∈ rules kb ∧ is_candidate x w r = true
    ∧ facts kb !! x = Some w
    ∧ justifications kb !! x
      = Some (mkJustification (mkFact x w) (Some (r_id r)) used "backward")
    ∧ Forall2 premise_meets (r_conditions r) used.

(** From [kb] to [kb'] every attribute is as it was or was written by a
    backward proof, with a value that [ok] allows. *)
Definition bw_changes (ok : string → value → Prop) (kb kb' : KnowledgeBase) : Prop :=
  ∀ x, unchanged_at kb kb' x ∨ ∃ w, written_backward kb' x w ∧ ok x w.

(** *** Justifications against facts and rules *)

(** [r] yields the fact [f]: same attribute, and the value of its conclusion
    is [f]'s value or equals it. *)
Definition derives (r : Rule) (f : Fact) : Prop :=
  k_attr (r_conclusion r) = f_attr f
  ∧ (k_value (r_conclusion r) = f_value f
     ∨ py_eq (k_value (r_conclusion r)) (f_value f) = true).

(** Every justification is about the current fact of its attribute, and
    when it names a rule, that rule is in the store and yields the fact. *)
Definition justifications_describe_facts (kb : KnowledgeBase) : Prop :=
  ∀ a j, justifications kb !! a = Some j →
    (∃ v, facts kb !! a = Some v ∧ j_fact j = mkFact a v)
    ∧ (∀ rid, j_rule_id j = Some rid →
         ∃ r, r ∈ rules kb ∧ r_id r = rid ∧ derives r (j_fact j)).

End Model.

(** ** Stand-ins for the library calls

    To run the model on concrete inputs: [float] reads plain ASCII digit
    strings only, [json.loads] rejects its input, and [upper] and [strip]
    are exact on ASCII text.  The examples below have ASCII attribute names
    and operators and no text operand under an ordering or membership
    operator. *)

Definition ascii_upper (c : ascii) : ascii :=
  let n := nat_of_ascii c in
  if (97 <=? n)%nat && (n <=? 122)%nat then ascii_of_nat (n - 32) else c.

Fixpoint upper_ascii (s : string) : string :=
  match s with
  | EmptyString => EmptyString
  | String c s' => String (ascii_upper c) (upper_ascii s')
  end.

Definition is_space (c : ascii) : bool :=
  let n := nat_of_ascii c in
  ((9 <=? n)%nat && (n <=? 13)%nat) || ((28 <=? n)%nat && (n <=? 32)%nat).

Fixpoint lstrip_ascii (s : string) : string :=
  match s with
  | EmptyString => EmptyString
  | String c s' => if is_space c then lstrip_ascii s' else s
  end.

Fixpoint str_rev_app (s acc : string) : string :=
  match s with
  | EmptyString => acc
  | String c s' => str_rev_app s' (String c acc)
  end.

Definition str_rev (s : string) : string := str_rev_app s EmptyString.

Definition strip_ascii (s : string) : string :=
  str_rev (lstrip_ascii (str_rev (lstrip_ascii s))).

Fixpoint digits_value (s : string) (acc : Z) : option Z :=
  match s with
  | EmptyString => Some acc
  | String c s' =>
      let n := nat_of_ascii c in
      if (48 <=? n)%nat && (n <=? 57)%nat
      then digits_value s' (10 * acc + Z.of_nat (n - 48))
      else None
  end.

Definition float_of_digits (s : string) : option spec_float :=
  match s with
  | EmptyString => None
  | _ =>
      match digits_value s 0 with
      | Some n => match float_of_Z n with inr f => Some f | inl _ => None end
      | None => None
      end
  end.

Definition json_rejects (s : string) : option (list value) := None.

Definition ascii_lib : PyLib :=
  {| py_float_of_str := float_of_digits;
     json_loads := json_rejects;
     py_upper := upper_ascii;
     py_strip := strip_ascii |}.

(** Stand-in for [str(val)] in the examples: exact on text, integers,
    booleans and [None]. *)
Definition text_of_value (v : value) : string :=
  match v with
  | VNone => "None"
  | VBool true => "True"
  | VBool false => "False"
  | VInt n => string_of_Z n
  | VStr s => s
  | VFloat _ => "?"
  | VList _ => "?"
  end.

(** ** Example stores *)

Section Examples.

#[local] Existing Instance ascii_lib.

(** [SE Temperatura > 38 ENTÃO Febre = Sim] and
    [SE Febre = Sim ENTÃO Risco = Alto]. *)
Definition rule_febre : Rule :=
  mkRule 1 [mkCondition "Temperatura" ">" (VInt 38)]
         (mkConclusion "Febre" "=" (VStr "Sim"))
         "SE Temperatura > 38 ENTÃO Febre = Sim".

Definition rule_risco : Rule :=
  mkRule 2 [mkCondition "Febre" "=" (VStr "Sim")]
         (mkConclusion "Risco" "=" (VStr "Alto"))
         "SE Febre = Sim ENTÃO Risco = Alto".

Definition add_rule_of (kb : KnowledgeBase) (r : Rule) : KnowledgeBase :=
  snd (add_rule kb (r_conditions r) (r_conclusion r) (r_text r)).

Definition kb_rules_febre : KnowledgeBase :=
  add_rule_of (add_rule_of kb_init rule_febre) rule_risco.

(** The two rules and the fact [Temperatura = 39]. *)
Definition kb_febre : KnowledgeBase :=
  add_fact kb_rules_febre "Temperatura" (VInt 39) "base".

(** As [kb_febre], with [Febre = Sim] already known. *)
Definition kb_febre_sim : KnowledgeBase :=
  add_fact kb_febre "Febre" (VStr "Sim") "base".

(** As [kb_febre], with [Febre = Nao] already known. *)
Definition kb_febre_nao : KnowledgeBase :=
  add_fact kb_febre "Febre" (VStr "Nao") "base".

(** The two rules, [Temperatura = 36] and [Febre = Nao]. *)
Definition kb_febre_frio : KnowledgeBase :=
  add_fact (add_fact kb_rules_febre "Temperatura" (VInt 36) "base")
    "Febre" (VStr "Nao") "base".

(** Two rules that conclude different values for one attribute. *)
Definition kb_conflict : KnowledgeBase :=
  add_fact
    (add_rule_of
       (add_rule_of kb_init
          (mkRule 1 [mkCondition "A" "=" (VInt 1)] (mkConclusion "X" "=" (VInt 1))
             "SE A = 1 ENTÃO X = 1"))
       (mkRule 2 [mkCondition "A" "=" (VInt 1)] (mkConclusion "X" "=" (VInt 2))
          "SE A = 1 ENTÃO X = 2"))
    "A" (VInt 1) "base".

(** [SE Y = 1 ENTÃO X = 1] and [SE X = 1 ENTÃO Y = 1], no facts. *)
Definition kb_cycle : KnowledgeBase :=
  add_rule_of
    (add_rule_of kb_init
       (mkRule 1 [mkCondition "Y" "=" (VInt 1)] (mkConclusion "X" "=" (VInt 1))
          "SE Y = 1 ENTÃO X = 1"))
    (mkRule 2 [mkCondition "X" "=" (VInt 1)] (mkConclusion "Y" "=" (VInt 1))
       "SE X = 1 ENTÃO Y = 1").

(** [SE Febre = Sim E Tosse = Sim ENTÃO Gripe = Sim] and
    [SE Temperatura > 38 ENTÃO Febre = Sim], with [Temperatura = 39]. *)
Definition kb_gripe : KnowledgeBase :=
  add_fact
    (add_rule_of
       (add_rule_of kb_init
          (mkRule 1 [mkCondition "Febre" "=" (VStr "Sim");
                     mkCondition "Tosse" "=" (VStr "Sim")]
             (mkConclusion "Gripe" "=" (VStr "Sim"))
             "SE Febre = Sim E Tosse = Sim ENTÃO Gripe = Sim"))
       rule_febre)
    "Temperatura" (VInt 39) "base".

(** The command layer after adding the two rules and [Temperatura = 39],
    each through its handler. *)
Definition session_febre : machine :=
  handle (AddFact "Temperatura" (VInt 39))
    (handle
       (AddRule (r_conditions rule_risco) (r_conclusion rule_risco)
          (r_text rule_risco))
       (handle
          (AddRule (r_conditions rule_febre) (r_conclusion rule_febre)
             (r_text rule_febre))
          machine_init)).

(** [SE B = 1 ENTÃO A = 1], [SE A = 2 ENTÃO B = 1] and
    [SE C = 1 ENTÃO A = 2], with [C = 1]. *)
Definition kb_detour : KnowledgeBase :=
  add_fact
    (add_rule_of
       (add_rule_of
          (add_rule_of kb_init
             (mkRule 1 [mkCondition "B" "=" (VInt 1)] (mkConclusion "A" "=" (VInt 1))
                "SE B = 1 ENTÃO A = 1"))
          (mkRule 2 [mkCondition "A" "=" (VInt 2)] (mkConclusion "B" "=" (VInt 1))
             "SE A = 2 ENTÃO B = 1"))
       (mkRule 3 [mkCondition "C" "=" (VInt 1)] (mkConclusion "A" "=" (VInt 2))
          "SE C = 1 ENTÃO A = 2"))
    "C" (VInt 1) "base".

(** The store after proving [A = 1] on [kb_detour]. *)
Definition kb_detour_proved : KnowledgeBase :=
  snd (backward_prove kb_detour "A" (VInt 1)).

(** The store after forward chaining on [kb_febre]. *)
Definition kb_febre_chained : KnowledgeBase :=
  fst (forward_chain kb_febre 50).

(** A ranking of the attributes of [kb_febre_chained]. *)
Definition rank_febre (a : string) : nat :=
  if String.eqb a "Risco" then 2 else if String.eqb a "Febre" then 1 else 0.

End Examples.

(** * Properties *)

Section ModelProps.

Context {L : PyLib}.

(** ** The object store *)

Section Containers.

Context {A : Type}.
Implicit Types m : gmap loc A.

Lemma put_spec rb m l x a m1 :
  put rb m l x = (a, m1) →
  m1 = <[a := x]> m ∧ (if rb then a ∉ dom m else a = l).
Proof.
  unfold put, alloc. destruct rb; intros [= <- <-]; split; try done.
  apply is_fresh.
Qed.

Lemma alloc_spec m x a m1 :
  alloc m x = (a, m1) → m1 = <[a := x]> m ∧ a ∉ dom m.
Proof. apply (put_spec true m a). Qed.

Lemma lookup_insert_old m a x l :
  a ∉ dom m → l ∈ dom m → <[a := x]> m !! l = m !! l.
Proof. intros Ha Hl. apply lookup_insert_ne. by intros ->. Qed.

Lemma dom_insert_mono m a x l : l ∈ dom m → l ∈ dom (<[a := x]> m).
Proof. rewrite dom_insert. set_solver. Qed.

Lemma dom_insert_new m a x : a ∈ dom (<[a := x]> m).
Proof. rewrite dom_insert. set_solver. Qed.

(** The reference a [put] returns is none of the other objects in use. *)
Lemma put_ref_other (rb : bool) m (l a l' : loc) :
  (if rb then a ∉ dom m else a = l) → l' ∈ dom m → l' ≠ l → a ≠ l'.
Proof. destruct rb; [intros Ha Hl _ ->; done|intros -> _ Hne; by apply not_eq_sym]. Qed.

Lemma fresh_ref_other m (a l' : loc) : a ∉ dom m → l' ∈ dom m → a ≠ l'.
Proof. by intros Ha Hl ->. Qed.

(** Three objects made one after the other are three objects, and the ones
    that were there are as they were. *)
Lemma alloc3_spec m x1 x2 x3 a m1 b m2 c m3 :
  alloc m x1 = (a, m1) → alloc m1 x2 = (b, m2) → alloc m2 x3 = (c, m3) →
  m3 !! a = Some x1 ∧ m3 !! b = Some x2 ∧ m3 !! c = Some x3
  ∧ a ≠ b ∧ a ≠ c ∧ b ≠ c
  ∧ (a ∉ dom m) ∧ (b ∉ dom m) ∧ (c ∉ dom m)
  ∧ a ∈ dom m3 ∧ b ∈ dom m3 ∧ c ∈ dom m3
  ∧ (∀ l, l ∈ dom m →
       l ∈ dom m3 ∧ m1 !! l = m !! l ∧ m2 !! l = m !! l ∧ m3 !! l = m !! l).
Proof.
  intros [-> Ha]%alloc_spec [-> Hb]%alloc_spec [-> Hc]%alloc_spec.
  assert (b ≠ a) as Hba
    by (apply (fresh_ref_other _ _ _ Hb), dom_insert_new).
  assert (c ≠ b) as Hcb
    by (apply (fresh_ref_other _ _ _ Hc), dom_insert_new).
  assert (c ≠ a) as Hca
    by (apply (fresh_ref_other _ _ _ Hc), dom_insert_mono, dom_insert_new).
  assert (b ∉ dom m) as Hbm
    by (intros Hin; apply Hb; by apply dom_insert_mono).
  assert (c ∉ dom m) as Hcm
    by (intros Hin; apply Hc; by do 2 apply dom_insert_mono).
  split; [|split; [|split]].
  - do 2 (rewrite lookup_insert_ne by done). by rewrite lookup_insert_eq.
  - rewrite lookup_insert_ne by done. by rewrite lookup_insert_eq.
  - by rewrite lookup_insert_eq.
  - split; [by apply not_eq_sym|]. split; [by apply not_eq_sym|].
    split; [by apply not_eq_sym|]. split; [done|]. split; [done|].
    split; [done|].
    split; [do 2 apply dom_insert_mono; apply dom_insert_new|].
    split; [apply dom_insert_mono, dom_insert_new|].
    split; [apply dom_insert_new|].
    intros l Hl.
    assert (a ≠ l) by by apply fresh_ref_other with m.
    assert (b ≠ l) by by apply fresh_ref_other with m.
    assert (c ≠ l) by by apply fresh_ref_other with m.
    split; [by do 3 apply dom_insert_mono|].
    split; [by rewrite lookup_insert_ne|].
    split; [by do 2 (rewrite lookup_insert_ne by done)|].
    by do 3 (rewrite lookup_insert_ne by done).
Qed.

(** Three containers of [kb] after an operation: each holds its new
    contents, they are three objects, and every other object in use is as
    it was. *)
Lemma put3_spec rb1 rb2 rb3 m l1 l2 l3 x1 x2 x3 a m1 b m2 c m3 :
  put rb1 m l1 x1 = (a, m1) → put rb2 m1 l2 x2 = (b, m2) →
  put rb3 m2 l3 x3 = (c, m3) →
  l1 ∈ dom m → l2 ∈ dom m → l3 ∈ dom m → l1 ≠ l2 → l1 ≠ l3 → l2 ≠ l3 →
  m3 !! a = Some x1 ∧ m3 !! b = Some x2 ∧ m3 !! c = Some x3
  ∧ a ≠ b ∧ a ≠ c ∧ b ≠ c
  ∧ a ∈ dom m3 ∧ b ∈ dom m3 ∧ c ∈ dom m3
  ∧ (∀ l, l ∈ dom m → l ≠ l1 → l ≠ l2 → l ≠ l3 →
       m3 !! l = m !! l ∧ l ∈ dom m3 ∧ l ≠ a ∧ l ≠ b ∧ l ≠ c).
Proof.
  intros [-> Ha]%put_spec [-> Hb]%put_spec [-> Hc]%put_spec H1 H2 H3 H12 H13 H23.
  assert (a ≠ l2) as Ha2 by (apply (put_ref_other _ _ _ _ _ Ha); by try apply not_eq_sym).
  assert (a ≠ l3) as Ha3 by (apply (put_ref_other _ _ _ _ _ Ha); by try apply not_eq_sym).
  assert (b ≠ a) as Hba
    by (apply (put_ref_other _ _ _ _ _ Hb); [apply dom_insert_new|done]).
  assert (b ≠ l3) as Hb3
    by (apply (put_ref_other _ _ _ _ _ Hb);
        [by apply dom_insert_mono|by apply not_eq_sym]).
  assert (c ≠ a) as Hca
    by (apply (put_ref_other _ _ _ _ _ Hc);
        [apply dom_insert_mono, dom_insert_new|done]).
  assert (c ≠ b) as Hcb
    by (apply (put_ref_other _ _ _ _ _ Hc); [apply dom_insert_new|done]).
  split; [|split; [|split]].
  - do 2 (rewrite lookup_insert_ne by done). by rewrite lookup_insert_eq.
  - rewrite lookup_insert_ne by done. by rewrite lookup_insert_eq.
  - by rewrite lookup_insert_eq.
  - split; [by apply not_eq_sym|]. split; [by apply not_eq_sym|].
    split; [by apply not_eq_sym|].
    split; [do 2 apply dom_insert_mono; apply dom_insert_new|].
    split; [apply dom_insert_mono, dom_insert_new|].
    split; [apply dom_insert_new|].
    intros l Hl Hl1 Hl2 Hl3.
    assert (a ≠ l) as Hal by by apply (put_ref_other _ _ _ _ _ Ha).
    assert (b ≠ l) as Hbl
      by (apply (put_ref_other _ _ _ _ _ Hb); [by apply dom_insert_mono|done]).
    assert (c ≠ l) as Hcl
      by (apply (put_ref_other _ _ _ _ _ Hc);
          [by do 2 apply dom_insert_mono|done]).
    split; [by do 3 (rewrite lookup_insert_ne by done)|].
    split; [by do 3 apply dom_insert_mono|].
    split; [by apply not_eq_sym|]. split; by apply not_eq_sym.
Qed.

(** One container of [kb] after an operation. *)
Lemma put1_spec rb m l x a m1 :
  put rb m l x = (a, m1) → l ∈ dom m →
  m1 !! a = Some x ∧ a ∈ dom m1
  ∧ (∀ l', l' ∈ dom m → l' ≠ l → m1 !! l' = m !! l' ∧ l' ∈ dom m1 ∧ l' ≠ a).
Proof.
  intros [-> Ha]%put_spec Hl.
  split; [by rewrite lookup_insert_eq|]. split; [apply dom_insert_new|].
  intros l' Hl' Hne.
  assert (a ≠ l') as Hal by by apply (put_ref_other _ _ _ _ _ Ha).
  split; [by rewrite lookup_insert_ne|].
  split; [by apply dom_insert_mono|by apply not_eq_sym].
Qed.

End Containers.

(** The copies made for a snapshot have the contents of the originals. *)
Lemma copy_fact_id p : copy_fact p = p.
Proof. by destruct p. Qed.

Lemma copy_justification_id v : copy_justification v = v.
Proof.
  destruct v as [f rid ps note]. unfold copy_justification. simpl.
  rewrite copy_fact_id. f_equal.
  induction ps as [|p ps IH]; simpl; [done|]. by rewrite copy_fact_id, IH.
Qed.

Lemma copy_rule_id r : copy_rule r = r.
Proof.
  destruct r as [rid conds [ka ko kv] text]. unfold copy_rule. simpl.
  by rewrite map_id.
Qed.

Lemma rewrap_rule_id r : rewrap_rule r = r.
Proof. by destruct r. Qed.

Lemma map_copy_rule l : map copy_rule l = l.
Proof. induction l as [|r l IH]; simpl; [done|]. by rewrite copy_rule_id, IH. Qed.

Lemma map_rewrap_rule l : map rewrap_rule l = l.
Proof. induction l as [|r l IH]; simpl; [done|]. by rewrite rewrap_rule_id, IH. Qed.

Lemma fmap_copy_justification (m : gmap string Justification) :
  copy_justification <$> m = m.
Proof.
  apply map_eq. intros k. rewrite lookup_fmap.
  destruct (m !! k); simpl; [|done]. by rewrite copy_justification_id.
Qed.

Lemma read_lookup {A} `{Empty A} (m m' : gmap loc A) l :
  m' !! l = m !! l → read m' l = read m l.
Proof. unfold read. by intros ->. Qed.

Lemma read_insert {A} `{Empty A} (m : gmap loc A) l x : read (<[l := x]> m) l = x.
Proof. unfold read. by rewrite lookup_insert_eq. Qed.

Lemma read_Some {A} `{Empty A} (m : gmap loc A) l x : m !! l = Some x → read m l = x.
Proof. unfold read. by intros ->. Qed.

(** [snapshot_kb] copies the store into containers of its own and leaves
    the store as it is. *)
Lemma snapshot_kb_spec h o snap h1 :
  wf_kb h o → snapshot_kb h o = (snap, h1) →
  snapshot_view h1 snap = view_of h o
  ∧ view_of h1 o = view_of h o
  ∧ wf_kb h1 o ∧ snap_alloc h1 snap ∧ snap_apart o snap.
Proof.
  intros [Hf Hr Hj Ha Hc Hk D1 D2 D3]. unfold snapshot_kb.
  destruct (alloc (h_jdicts h) _) as [lj hj] eqn:Ej.
  destruct (alloc (h_lists h) _) as [lr hl] eqn:El.
  destruct (alloc (h_dicts h) _) as [lf hd] eqn:Ed.
  destruct (alloc (h_sets h) _) as [la hs1] eqn:Ea.
  destruct (alloc hs1 _) as [lc hs2] eqn:Ec.
  destruct (alloc hs2 _) as [lk hs3] eqn:Ek.
  intros [= <- <-].
  apply alloc_spec in Ej as [-> Nj]. apply alloc_spec in El as [-> Nl].
  apply alloc_spec in Ed as [-> Nd].
  destruct (alloc3_spec _ _ _ _ _ _ _ _ _ _ Ea Ec Ek)
    as (Sa & Sc & Sk & Nab & Nac & Nbc & Na & Nc & Nk & Ia & Ic & Ik & Hold).
  destruct (Hold _ Ha) as (Ia' & _ & _ & Oa).
  destruct (Hold _ Hc) as (Ic' & Oc1 & _ & Oc).
  destruct (Hold _ Hk) as (Ik' & _ & Ok2 & Ok).
  split; [|split; [|split; [|split]]].
  - unfold snapshot_view, view_of. simpl.
    rewrite !read_insert, lookup_insert_eq. simpl.
    rewrite map_copy_rule, fmap_copy_justification.
    rewrite (read_Some _ _ _ Sa), (read_Some _ _ _ Sc), (read_Some _ _ _ Sk).
    by rewrite (read_lookup _ _ _ Oc1), (read_lookup _ _ _ Ok2).
  - unfold view_of. simpl.
    rewrite (read_lookup _ _ _ (lookup_insert_old _ _ _ _ Nd Hf)).
    rewrite (read_lookup _ _ _ (lookup_insert_old _ _ _ _ Nj Hj)).
    rewrite (lookup_insert_old _ _ _ _ Nl Hr).
    by rewrite (read_lookup _ _ _ Oa), (read_lookup _ _ _ Oc), (read_lookup _ _ _ Ok).
  - split; simpl; try done; by apply dom_insert_mono.
  - split; simpl; try apply dom_insert_new.
    intros l [Hl|[Hl|Hl]]; by subst l.
  - split; simpl; try (by eapply fresh_ref_other).
    intros l [Hl|[Hl|Hl]]; subst l; repeat split; by eapply fresh_ref_other.
Qed.

(** After an operation the store holds the new contents, and a snapshot
    kept apart from the store holds what it held. *)
Lemma commit_spec rb new h o o2 h2 :
  wf_kb h o → commit rb new h o = (o2, h2) →
  view_of h2 o2 = new
  ∧ wf_kb h2 o2
  ∧ ∀ snap, snap_alloc h snap → snap_apart o snap →
      snapshot_view h2 snap = snapshot_view h snap ∧ snap_alloc h2 snap.
Proof.
  intros [Hf Hr Hj Ha Hc Hk D1 D2 D3]. unfold commit.
  destruct (put (rb_facts rb) _ _ _) as [lf hd] eqn:Ed.
  destruct (put (rb_rules rb) _ _ _) as [lr hl] eqn:El.
  destruct (put (rb_justifications rb) _ _ _) as [lj hj] eqn:Ej.
  destruct (put (rb_attributes rb) _ _ _) as [la hs1] eqn:Ea.
  destruct (put (rb_cond_attrs rb) _ _ _) as [lc hs2] eqn:Ec.
  destruct (put (rb_concl_attrs rb) _ _ _) as [lk hs3] eqn:Ek.
  intros [= <- <-].
  destruct (put1_spec _ _ _ _ _ _ Ed Hf) as (Vf & If & Ff).
  destruct (put1_spec _ _ _ _ _ _ El Hr) as (Vr & Ir & Fr).
  destruct (put1_spec _ _ _ _ _ _ Ej Hj) as (Vj & Ij & Fj).
  destruct (put3_spec _ _ _ _ _ _ _ _ _ _ _ _ _ _ _ _ Ea Ec Ek Ha Hc Hk D1 D2 D3)
    as (Va & Vc & Vk & Nab & Nac & Nbc & Ia & Ic & Ik & Fs).
  split; [|split].
  - unfold view_of. simpl.
    rewrite (read_Some _ _ _ Vf), (read_Some _ _ _ Vj), Vr.
    rewrite (read_Some _ _ _ Va), (read_Some _ _ _ Vc), (read_Some _ _ _ Vk).
    by destruct new.
  - by split.
  - intros snap [Sf Sr Sj Ss] [Af Ar Aj As].
    destruct (Ff _ Sf Af) as (Ef & If' & _).
    destruct (Fr _ Sr Ar) as (Er & Ir' & _).
    destruct (Fj _ Sj Aj) as (Ej' & Ij' & _).
    assert (∀ l, snap_set snap l → hs3 !! l = h_sets h !! l ∧ l ∈ dom hs3) as Hs.
    { intros l Hl. destruct (As l Hl) as (? & ? & ?).
      destruct (Fs l (Ss l Hl)) as (? & ? & _); done. }
    destruct (Hs (s_attributes snap)) as [Ea' _]; [by left|].
    destruct (Hs (s_cond_attrs snap)) as [Ec' _]; [by right; left|].
    destruct (Hs (s_concl_attrs snap)) as [Ek' _]; [by right; right|].
    split.
    + unfold snapshot_view. simpl.
      rewrite (read_lookup _ _ _ Ef), (read_lookup _ _ _ Ej'), Er.
      by rewrite (read_lookup _ _ _ Ea'), (read_lookup _ _ _ Ec'),
                 (read_lookup _ _ _ Ek').
    + split; simpl; try done. intros l Hl. by apply Hs.
Qed.

(** [restore_kb] gives the store new containers with the contents of the
    snapshot. *)
Lemma restore_kb_spec h snap o h1 :
  snap_alloc h snap → restore_kb h snap = (o, h1) →
  view_of h1 o = snapshot_view h snap ∧ wf_kb h1 o.
Proof.
  intros [Sf Sr Sj Ss]. unfold restore_kb.
  destruct (alloc (h_dicts h) _) as [lf hd] eqn:Ed.
  destruct (alloc (h_jdicts h) _) as [lj hj] eqn:Ej.
  destruct (alloc (h_lists h) _) as [lr hl] eqn:El.
  destruct (alloc (h_sets h) _) as [la hs1] eqn:Ea.
  destruct (alloc hs1 _) as [lc hs2] eqn:Ec.
  destruct (alloc hs2 _) as [lk hs3] eqn:Ek.
  intros [= <- <-].
  apply alloc_spec in Ej as [-> Nj]. apply alloc_spec in El as [-> Nl].
  apply alloc_spec in Ed as [-> Nd].
  destruct (alloc3_spec _ _ _ _ _ _ _ _ _ _ Ea Ec Ek)
    as (Sa & Sc & Sk & Nab & Nac & Nbc & Na & Nc & Nk & Ia & Ic & Ik & Hold).
  destruct (Hold (s_cond_attrs snap)) as (_ & Oc1 & _ & _);
    [apply Ss; by right; left|].
  destruct (Hold (s_concl_attrs snap)) as (_ & _ & Ok2 & _);
    [apply Ss; by right; right|].
  split.
  - unfold snapshot_view, view_of. simpl.
    rewrite !read_insert, lookup_insert_eq. simpl. rewrite map_rewrap_rule.
    rewrite (read_Some _ _ _ Sa), (read_Some _ _ _ Sc), (read_Some _ _ _ Sk).
    by rewrite (read_lookup _ _ _ Oc1), (read_lookup _ _ _ Ok2).
  - split; simpl; try done; apply dom_insert_new.
Qed.

Lemma machine_init_wf : wf machine_init.
Proof.
  unfold wf, machine_init.
  destruct (alloc (∅ : gmap loc (gmap string value)) ∅) as [lf hd] eqn:Ed.
  destruct (alloc (∅ : gmap loc (list Rule)) []) as [lr hl] eqn:El.
  destruct (alloc (∅ : gmap loc (gmap string Justification)) ∅) as [lj hj] eqn:Ej.
  destruct (alloc (∅ : gmap loc (gset string)) ∅) as [la hs1] eqn:Ea.
  destruct (alloc hs1 ∅) as [lc hs2] eqn:Ec.
  destruct (alloc hs2 ∅) as [lk hs3] eqn:Ek.
  apply alloc_spec in Ej as [-> Nj]. apply alloc_spec in El as [-> Nl].
  apply alloc_spec in Ed as [-> Nd].
  destruct (alloc3_spec _ _ _ _ _ _ _ _ _ _ Ea Ec Ek)
    as (_ & _ & _ & Nab & Nac & Nbc & _ & _ & _ & Ia & Ic & Ik & _).
  split; simpl; try done; apply dom_insert_new.
Qed.

(** ** Rule ids across a load *)

Lemma same_core_refl kb : same_core kb kb.
Proof. by repeat split. Qed.

Lemma same_core_trans kb1 kb2 kb3 :
  same_core kb1 kb2 → same_core kb2 kb3 → same_core kb1 kb3.
Proof. unfold same_core. intros (?&?&?&?) (?&?&?&?). repeat split; congruence. Qed.

Lemma touch_attribute_core kb a w : same_core kb (_touch_attribute kb a w).
Proof. unfold _touch_attribute. destruct (py_strip a); by repeat split. Qed.

Lemma extract_attributes_core kb r :
  same_core kb (_extract_attributes_from_rule kb r).
Proof.
  unfold _extract_attributes_from_rule.
  eapply same_core_trans; [|apply touch_attribute_core].
  generalize (r_conditions r). intros conds. revert kb.
  induction conds as [|c conds IH]; intros kb; simpl; [apply same_core_refl|].
  eapply same_core_trans; [apply touch_attribute_core|apply IH].
Qed.

Lemma rebuild_attributes_core kb : same_core kb (_rebuild_attributes kb).
Proof.
  unfold _rebuild_attributes.
  set (kb0 := mkKB _ _ _ _ _ _ _).
  assert (same_core kb kb0) as H0 by by repeat split.
  assert (∀ l k, same_core k (fold_left _extract_attributes_from_rule l k)) as Hf.
  { induction l as [|r l IH]; intros k; simpl; [apply same_core_refl|].
    eapply same_core_trans; [apply extract_attributes_core|apply IH]. }
  replace (rules kb) with (rules kb0) by done.
  eapply same_core_trans; [exact H0|]. apply Hf.
Qed.

Lemma fold_add_fact_rules l kb :
  rules (fold_left (fun k f => add_fact k (f_attr f) (f_value f) "base") l kb)
  = rules kb
  ∧ _next_rule_id (fold_left (fun k f => add_fact k (f_attr f) (f_value f) "base") l kb)
    = _next_rule_id kb.
Proof.
  revert kb. induction l as [|f l IH]; intros kb; simpl; [done|].
  destruct (IH (add_fact kb (f_attr f) (f_value f) "base")) as [-> ->]. done.
Qed.

Lemma fold_load_rule_spec l kb :
  rules (fold_left load_rule l kb) = (rules kb ++ l)%list
  ∧ (_next_rule_id kb ≤ _next_rule_id (fold_left load_rule l kb))%Z
  ∧ ∀ r, r ∈ l → (r_id r + 1 ≤ _next_rule_id (fold_left load_rule l kb))%Z.
Proof.
  revert kb. induction l as [|r l IH]; intros kb; simpl.
  - rewrite app_nil_r. split; [done|]. split; [lia|].
    intros r Hr. by apply not_elem_of_nil in Hr.
  - destruct (IH (load_rule kb r)) as (Hr & Hn & Hall). simpl in *.
    split; [by rewrite Hr, <- app_assoc|]. split; [lia|].
    intros r' [->|Hr']%elem_of_cons; [lia|auto].
Qed.

Lemma load_json_rules kb0 obj :
  rules (load_json kb0 obj) = o_rules obj
  ∧ ∀ r, r ∈ o_rules obj → (r_id r + 1 ≤ _next_rule_id (load_json kb0 obj))%Z.
Proof.
  unfold load_json.
  destruct (rebuild_attributes_core
              (fold_left load_rule (o_rules obj)
                 (fold_left (fun k f => add_fact k (f_attr f) (f_value f) "base")
                    (o_facts obj) kb_init))) as (_ & -> & _ & ->).
  destruct (fold_load_rule_spec (o_rules obj)
              (fold_left (fun k f => add_fact k (f_attr f) (f_value f) "base")
                 (o_facts obj) kb_init)) as (-> & _ & Hall).
  destruct (fold_add_fact_rules (o_facts obj) kb_init) as [-> _].
  done.
Qed.

Lemma add_rule_spec kb conds concl text :
  fst (add_rule kb conds concl text) = _next_rule_id kb
  ∧ rules (snd (add_rule kb conds concl text))
    = (rules kb ++ [mkRule (_next_rule_id kb) conds concl text])%list
  ∧ _next_rule_id (snd (add_rule kb conds concl text)) = (_next_rule_id kb + 1)%Z.
Proof.
  unfold add_rule. simpl. split; [done|].
  set (r := mkRule _ _ _ _). set (kb1 := mkKB _ _ _ _ _ _ _).
  destruct (extract_attributes_core kb1 r) as (_ & -> & _ & ->). done.
Qed.

Lemma add_rules_spec specs kb :
  ids_below_next kb →
  ids_below_next (snd (add_rules kb specs))
  ∧ (_next_rule_id kb ≤ _next_rule_id (snd (add_rules kb specs)))%Z
  ∧ (∀ rid, rid ∈ fst (add_rules kb specs) → (_next_rule_id kb ≤ rid)%Z)
  ∧ (NoDup (map r_id (rules kb)) →
     NoDup (map r_id (rules (snd (add_rules kb specs))))).
Proof.
  revert kb. induction specs as [|[[conds concl] text] rest IH]; intros kb Hb;
    cbn [add_rules].
  - simpl. split; [done|]. split; [lia|]. split; [|done].
    intros rid Hr. by apply not_elem_of_nil in Hr.
  - destruct (add_rule_spec kb conds concl text) as (Hid & Hrules & Hnext).
    destruct (add_rule kb conds concl text) as [rid kb1]. simpl in *. subst rid.
    assert (ids_below_next kb1) as Hb1.
    { intros r. rewrite Hrules, Hnext.
      intros [Hr|Hr]%elem_of_app.
      - specialize (Hb r Hr). lia.
      - apply list_elem_of_singleton in Hr as ->. simpl. lia. }
    destruct (IH kb1 Hb1) as (Hb2 & Hle & Hids & Hnd).
    destruct (add_rules kb1 rest) as [rids kb2]. simpl in *.
    split; [done|]. split; [lia|]. split.
    + intros rid [->|Hr]%elem_of_cons; [lia|]. specialize (Hids rid Hr). lia.
    + intros Hnd0. apply Hnd. rewrite Hrules, map_app. simpl.
      apply NoDup_app. split; [done|]. split; [|apply NoDup_singleton].
      intros i Hi Hi'. apply list_elem_of_singleton in Hi'. subst i.
      apply list_elem_of_fmap in Hi as (r & Heq & Hr). specialize (Hb r Hr). lia.
Qed.

(** C10: [load_json] leaves the next rule id at least one above every loaded
    id, so every id that [add_rule] hands out afterwards is strictly greater
    than every loaded id, and distinct loaded ids stay distinct from each
    other and from the new ones. *)
Theorem load_json_rule_ids (kb0 : KnowledgeBase) (obj : JsonKB)
    (specs : list rule_spec) :
  (∀ r, r ∈ o_rules obj → (r_id r + 1 ≤ _next_rule_id (load_json kb0 obj))%Z)
  ∧ (∀ rid r, rid ∈ fst (add_rules (load_json kb0 obj) specs) →
       r ∈ o_rules obj → (r_id r < rid)%Z)
  ∧ (NoDup (map r_id (o_rules obj)) →
     NoDup (map r_id (rules (snd (add_rules (load_json kb0 obj) specs))))).
Proof.
  destruct (load_json_rules kb0 obj) as [Hrules Hnext].
  assert (ids_below_next (load_json kb0 obj)) as Hb.
  { intros r. rewrite Hrules. intros Hr. specialize (Hnext r Hr). lia. }
  destruct (add_rules_spec specs _ Hb) as (_ & _ & Hids & Hnd).
  split; [done|]. split.
  - intros rid r Hrid Hr. specialize (Hids rid Hrid). specialize (Hnext r Hr). lia.
  - intros Hnd0. apply Hnd. by rewrite Hrules.
Qed.

(** ** Catalogs *)

Lemma touch_attribute_members kb a w x :
  (x ∈ attributes (_touch_attribute kb a w)
   ↔ x ∈ attributes kb ∨ (x ≠ EmptyString ∧ py_strip a = x))
  ∧ (x ∈ _cond_attrs (_touch_attribute kb a w)
     ↔ x ∈ _cond_attrs kb ∨ (w = WCond ∧ x ≠ EmptyString ∧ py_strip a = x))
  ∧ (x ∈ _concl_attrs (_touch_attribute kb a w)
     ↔ x ∈ _concl_attrs kb ∨ (w = WConcl ∧ x ≠ EmptyString ∧ py_strip a = x)).
Proof.
  unfold _touch_attribute. destruct (py_strip a) as [|ch rest] eqn:Hs.
  - repeat split; try (intros ?; by left);
      intros [?|H]; try done; destruct H as (?&?&?) || destruct H as (?&?); congruence.
  - destruct w; simpl; rewrite ?elem_of_union, ?elem_of_singleton;
      repeat split; intros H; try tauto;
      repeat match goal with
        | H : _ ∨ _ |- _ => destruct H
        | H : _ ∧ _ |- _ => destruct H
        end; subst; auto; try discriminate;
      try (right; split; [discriminate|done]);
      try (left; done); try (right; done);
      try (right; repeat split; [discriminate]).
Qed.

Lemma fold_touch_conditions_members conds kb x :
  let kb' := fold_left (fun k c => _touch_attribute k (c_attr c) WCond) conds kb in
  (x ∈ attributes kb'
   ↔ x ∈ attributes kb
     ∨ (x ≠ EmptyString ∧ ∃ c, c ∈ conds ∧ py_strip (c_attr c) = x))
  ∧ (x ∈ _cond_attrs kb'
     ↔ x ∈ _cond_attrs kb
       ∨ (x ≠ EmptyString ∧ ∃ c, c ∈ conds ∧ py_strip (c_attr c) = x))
  ∧ (x ∈ _concl_attrs kb' ↔ x ∈ _concl_attrs kb).
Proof.
  revert kb. induction conds as [|c conds IH]; intros kb; simpl.
  - repeat split; try (intros ?; by left); try done;
      intros [?|(_ & c & Hc & _)]; try done; by apply not_elem_of_nil in Hc.
  - destruct (IH (_touch_attribute kb (c_attr c) WCond)) as (Ha & Hc & Hk).
    destruct (touch_attribute_members kb (c_attr c) WCond x) as (Ta & Tc & Tk).
    simpl in Ha, Hc, Hk. rewrite Ha, Hc, Hk, Ta, Tc, Tk. clear.
    repeat split.
    + intros [[?|[? ?]]|(? & c' & ? & ?)]; [by left| |].
      * right. split; [done|]. exists c. split; [by left|done].
      * right. split; [done|]. exists c'. split; [by right|done].
    + intros [?|(? & c' & [->|?]%elem_of_cons & ?)]; [by left; left| |].
      * left. by right.
      * right. split; [done|]. by exists c'.
    + intros [[?|(_ & ? & ?)]|(? & c' & ? & ?)]; [by left| |].
      * right. split; [done|]. exists c. split; [by left|done].
      * right. split; [done|]. exists c'. split; [by right|done].
    + intros [?|(? & c' & [->|?]%elem_of_cons & ?)]; [by left; left| |].
      * left. by right.
      * right. split; [done|]. by exists c'.
    + intros [?|(? & _)]; done.
    + intros ?. by left.
Qed.

Lemma extract_attributes_members kb r x :
  (x ∈ attributes (_extract_attributes_from_rule kb r)
   ↔ x ∈ attributes kb
     ∨ named_in_conditions [r] x ∨ named_in_conclusions [r] x)
  ∧ (x ∈ _cond_attrs (_extract_attributes_from_rule kb r)
     ↔ x ∈ _cond_attrs kb ∨ named_in_conditions [r] x)
  ∧ (x ∈ _concl_attrs (_extract_attributes_from_rule kb r)
     ↔ x ∈ _concl_attrs kb ∨ named_in_conclusions [r] x).
Proof.
  unfold _extract_attributes_from_rule.
  set (kb1 := fold_left _ (r_conditions r) kb).
  destruct (fold_touch_conditions_members (r_conditions r) kb x) as (Fa & Fc & Fk).
  destruct (touch_attribute_members kb1 (k_attr (r_conclusion r)) WConcl x)
    as (Ta & Tc & Tk).
  fold kb1 in Fa, Fc, Fk. rewrite Ta, Tc, Tk, Fa, Fc, Fk. clear.
  unfold named_in_conditions, named_in_conclusions.
  repeat split.
  - intros [[?|(? & c & ? & ?)]|[? ?]]; [by left| |].
    + right; left. split; [done|]. exists r, c. split; [by left|done].
    + right; right. split; [done|]. exists r. split; [by left|done].
  - intros [?|[(? & r' & c & ->%list_elem_of_singleton & ? & ?)
              |(? & r' & ->%list_elem_of_singleton & ?)]].
    + by left; left.
    + left; right. split; [done|]. by exists c.
    + by right.
  - intros [[?|(? & c & ? & ?)]|(? & _)]; [by left| |done].
    right. split; [done|]. exists r, c. split; [by left|done].
  - intros [?|(? & r' & c & ->%list_elem_of_singleton & ? & ?)]; [by left; left|].
    left; right. split; [done|]. by exists c.
  - intros [?|(_ & ? & ?)]; [by left|].
    right. split; [done|]. exists r. split; [by left|done].
  - intros [?|(? & r' & ->%list_elem_of_singleton & ?)]; [by left|].
    right. by repeat split.
Qed.

Lemma named_in_conditions_app l1 l2 x :
  named_in_conditions (l1 ++ l2) x
  ↔ named_in_conditions l1 x ∨ named_in_conditions l2 x.
Proof.
  unfold named_in_conditions. split.
  - intros (? & r & c & [?|?]%elem_of_app & ? & ?); [left|right];
      (split; [done|]); by exists r, c.
  - intros [(? & r & c & ? & ? & ?)|(? & r & c & ? & ? & ?)];
      (split; [done|]); exists r, c; (split; [|done]); apply elem_of_app; auto.
Qed.

Lemma named_in_conclusions_app l1 l2 x :
  named_in_conclusions (l1 ++ l2) x
  ↔ named_in_conclusions l1 x ∨ named_in_conclusions l2 x.
Proof.
  unfold named_in_conclusions. split.
  - intros (? & r & [?|?]%elem_of_app & ?); [left|right];
      (split; [done|]); by exists r.
  - intros [(? & r & ? & ?)|(? & r & ? & ?)];
      (split; [done|]); exists r; (split; [|done]); apply elem_of_app; auto.
Qed.

Lemma named_in_conditions_nil x : ¬ named_in_conditions [] x.
Proof. intros (_ & r & c & Hr & _). by apply not_elem_of_nil in Hr. Qed.

Lemma named_in_conclusions_nil x : ¬ named_in_conclusions [] x.
Proof. intros (_ & r & Hr & _). by apply not_elem_of_nil in Hr. Qed.

Lemma fold_extract_members l kb x :
  let kb' := fold_left _extract_attributes_from_rule l kb in
  (x ∈ attributes kb'
   ↔ x ∈ attributes kb ∨ named_in_conditions l x ∨ named_in_conclusions l x)
  ∧ (x ∈ _cond_attrs kb' ↔ x ∈ _cond_attrs kb ∨ named_in_conditions l x)
  ∧ (x ∈ _concl_attrs kb' ↔ x ∈ _concl_attrs kb ∨ named_in_conclusions l x).
Proof.
  revert kb. induction l as [|r l IH]; intros kb; simpl.
  - pose proof (named_in_conditions_nil x). pose proof (named_in_conclusions_nil x).
    tauto.
  - destruct (IH (_extract_attributes_from_rule kb r)) as (Ha & Hc & Hk).
    destruct (extract_attributes_members kb r x) as (Ea & Ec & Ek).
    simpl in Ha, Hc, Hk. rewrite Ha, Hc, Hk, Ea, Ec, Ek.
    pose proof (named_in_conditions_app [r] l x) as Ac.
    pose proof (named_in_conclusions_app [r] l x) as Ak.
    simpl in Ac, Ak. tauto.
Qed.

Lemma rebuild_attributes_in_sync kb : catalogs_in_sync (_rebuild_attributes kb).
Proof.
  intros x. destruct (rebuild_attributes_core kb) as (_ & Hr & _).
  rewrite Hr. unfold _rebuild_attributes.
  destruct (fold_extract_members (rules kb)
              (mkKB (facts kb) (rules kb) (justifications kb) (_next_rule_id kb) ∅ ∅ ∅) x)
    as (Ha & Hc & Hk).
  simpl in Ha, Hc, Hk. rewrite Ha, Hc, Hk.
  pose proof (not_elem_of_empty (C := gset string) x). tauto.
Qed.

Lemma same_rule_side_in_sync kb kb' :
  same_rule_side kb kb' → catalogs_in_sync kb → catalogs_in_sync kb'.
Proof.
  intros (Hr & _ & Ha & Hc & Hk) Hs x. rewrite Hr, Ha, Hc, Hk. apply Hs.
Qed.

Lemma same_rule_side_refl kb : same_rule_side kb kb.
Proof. by repeat split. Qed.

Lemma same_rule_side_assert kb0 kb a v j :
  same_rule_side kb0 kb → same_rule_side kb0 (assert_fact kb a v j).
Proof. intros (?&?&?&?&?). by repeat split. Qed.

Lemma add_rule_in_sync kb conds concl text :
  catalogs_in_sync kb → catalogs_in_sync (snd (add_rule kb conds concl text)).
Proof.
  intros Hs x. destruct (Hs x) as (Hc & Hk & Ha).
  destruct (add_rule_spec kb conds concl text) as (_ & Hr & _). rewrite Hr.
  unfold add_rule. simpl.
  set (r := mkRule _ _ _ _). set (kb1 := mkKB _ _ _ _ _ _ _).
  destruct (extract_attributes_members kb1 r x) as (Ea & Ec & Ek).
  rewrite Ea, Ec, Ek. simpl. rewrite Ha, Hc, Hk.
  pose proof (named_in_conditions_app (rules kb) [r] x).
  pose proof (named_in_conclusions_app (rules kb) [r] x). tauto.
Qed.

Lemma filter_same_length {A} (f : A → bool) (l : list A) :
  length (List.filter f l) = length l → List.filter f l = l.
Proof.
  induction l as [|x l IH]; simpl; [done|].
  pose proof (List.filter_length_le f l) as Hle.
  destruct (f x); simpl; intros Hlen; [|lia]. f_equal. apply IH. lia.
Qed.

Lemma remove_rule_cases kb rid :
  (fst (remove_rule kb rid) = false ∧ snd (remove_rule kb rid) = kb
   ∧ ∀ r, r ∈ rules kb → r_id r ≠ rid)
  ∨ (fst (remove_rule kb rid) = true
     ∧ snd (remove_rule kb rid)
       = _rebuild_attributes
           (mkKB (facts kb)
              (List.filter (fun r => negb (r_id r =? rid)%Z) (rules kb))
              (justifications kb) (_next_rule_id kb)
              (attributes kb) (_cond_attrs kb) (_concl_attrs kb))
     ∧ ∃ r, r ∈ rules kb ∧ r_id r = rid).
Proof.
  unfold remove_rule.
  set (rs := List.filter _ (rules kb)).
  pose proof (List.filter_length_le (fun r => negb (r_id r =? rid)%Z) (rules kb))
    as Hle.
  fold rs in Hle.
  destruct (length rs <? length (rules kb))%nat eqn:Hlt.
  - right. split; [done|]. split; [done|].
    apply Nat.ltb_lt in Hlt.
    assert (¬ ∀ r, r ∈ rules kb → negb (r_id r =? rid)%Z = true) as Hex.
    { intros Hallr. assert (rs = rules kb) as Heq; [|rewrite Heq in Hlt; lia].
      subst rs. clear -Hallr. induction (rules kb) as [|y l IH]; simpl; [done|].
      rewrite Hallr by (by left). f_equal. apply IH. intros r Hr. apply Hallr.
      by right. }
    clear -Hex. induction (rules kb) as [|y l IH].
    + exfalso. apply Hex. intros r Hr. by apply not_elem_of_nil in Hr.
    + destruct (r_id y =? rid)%Z eqn:Hy.
      * exists y. split; [by left|]. by apply Z.eqb_eq.
      * destruct IH as (r & Hr & Hid).
        { intros Hl. apply Hex. intros r [->|Hr]%elem_of_cons; [by rewrite Hy|auto]. }
        exists r. split; [by right|done].
  - left. apply Nat.ltb_ge in Hlt. split; [done|].
    assert (rs = rules kb) as Heq by (apply filter_same_length; fold rs; lia).
    split.
    + simpl. rewrite Heq. by destruct kb.
    + intros r Hr. apply list_elem_of_In in Hr. rewrite <- Heq in Hr.
      apply filter_In in Hr as [_ Hne]. apply negb_true_iff, Z.eqb_neq in Hne. done.
Qed.

Lemma remove_rule_in_sync kb rid :
  catalogs_in_sync kb → catalogs_in_sync (snd (remove_rule kb rid)).
Proof.
  intros Hs. destruct (remove_rule_cases kb rid) as [(_ & -> & _)|(_ & -> & _)];
    [done|apply rebuild_attributes_in_sync].
Qed.

Lemma add_rules_in_sync specs kb :
  catalogs_in_sync kb → catalogs_in_sync (snd (add_rules kb specs)).
Proof.
  revert kb. induction specs as [|[[conds concl] text] rest IH]; intros kb Hs;
    cbn [add_rules]; [done|].
  pose proof (add_rule_in_sync kb conds concl text Hs) as H1.
  destruct (add_rule kb conds concl text) as [rid kb1]. simpl in H1.
  specialize (IH kb1 H1). destruct (add_rules kb1 rest) as [rids kb2]. done.
Qed.

Lemma kb_init_in_sync : catalogs_in_sync kb_init.
Proof.
  intros x. simpl.
  pose proof (named_in_conditions_nil x). pose proof (named_in_conclusions_nil x).
  pose proof (not_elem_of_empty (C := gset string) x). tauto.
Qed.

(** ** Rule removal, rule ids, and the fact store *)

(** X4: [remove_rule] returns [True] exactly when some rule has the id; it
    then drops every rule with that id and keeps the others in order and
    with their ids, and it never touches the facts, the justifications or
    the id counter.  When it returns [False] the store is as it was. *)
Theorem remove_rule_spec (kb : KnowledgeBase) (rid : Z) :
  (fst (remove_rule kb rid) = true ↔ ∃ r, r ∈ rules kb ∧ r_id r = rid)
  ∧ (fst (remove_rule kb rid) = false → snd (remove_rule kb rid) = kb)
  ∧ rules (snd (remove_rule kb rid))
    = List.filter (fun r => negb (r_id r =? rid)%Z) (rules kb)
  ∧ (∀ r, r ∈ rules (snd (remove_rule kb rid)) ↔ r ∈ rules kb ∧ r_id r ≠ rid)
  ∧ facts (snd (remove_rule kb rid)) = facts kb
  ∧ justifications (snd (remove_rule kb rid)) = justifications kb
  ∧ _next_rule_id (snd (remove_rule kb rid)) = _next_rule_id kb.
Proof.
  assert (rules (snd (remove_rule kb rid))
          = List.filter (fun r => negb (r_id r =? rid)%Z) (rules kb)
          ∧ facts (snd (remove_rule kb rid)) = facts kb
          ∧ justifications (snd (remove_rule kb rid)) = justifications kb
          ∧ _next_rule_id (snd (remove_rule kb rid)) = _next_rule_id kb)
    as (Hr & Hf & Hj & Hn).
  { unfold remove_rule. destruct (_ <? _)%nat; simpl; [|done].
    set (kb1 := mkKB _ _ _ _ _ _ _).
    by destruct (rebuild_attributes_core kb1) as (-> & -> & -> & ->). }
  split; [|split; [|split; [done|split; [|done]]]].
  - destruct (remove_rule_cases kb rid) as [(Hb & _ & Hno)|(Hb & _ & Hex)];
      rewrite Hb; split; try done.
    intros (r & Hin & Hid). by destruct (Hno r Hin).
  - destruct (remove_rule_cases kb rid) as [(_ & Hk & _)|(Hb & _)]; [done|].
    rewrite Hb. discriminate.
  - intros r. rewrite Hr, !list_elem_of_In, filter_In.
    rewrite negb_true_iff, Z.eqb_neq. done.
Qed.

Lemma ids_unique_same_rule_side kb kb' :
  same_rule_side kb kb' → ids_unique kb → ids_unique kb'.
Proof.
  intros (Hr & Hn & _) [Hnd Hb]. split; [by rewrite Hr|].
  intros r. rewrite Hr, Hn. apply Hb.
Qed.

Lemma NoDup_map_filter {A B} (f : A → B) (p : A → bool) (l : list A) :
  NoDup (map f l) → NoDup (map f (List.filter p l)).
Proof.
  induction l as [|x l IH]; simpl; [done|].
  intros [Hx Hl]%NoDup_cons. destruct (p x); simpl; [|auto].
  apply NoDup_cons. split; [|auto].
  intros Hin. apply Hx. apply list_elem_of_fmap in Hin as (y & -> & Hy).
  apply list_elem_of_fmap. exists y. split; [done|].
  apply list_elem_of_In. apply list_elem_of_In, filter_In in Hy. tauto.
Qed.

Lemma remove_rule_ids_unique kb rid :
  ids_unique kb → ids_unique (snd (remove_rule kb rid)).
Proof.
  intros [Hnd Hb].
  destruct (remove_rule_spec kb rid) as (_ & _ & Hr & Hin & _ & _ & Hn).
  split.
  - rewrite Hr. by apply NoDup_map_filter.
  - intros r Hr'. rewrite Hn. apply Hb. by apply Hin.
Qed.

Lemma add_rule_as_add_rules kb conds concl text :
  add_rules kb [(conds, concl, text)]
  = ([fst (add_rule kb conds concl text)], snd (add_rule kb conds concl text)).
Proof. cbn [add_rules]. by destruct (add_rule kb conds concl text). Qed.

Lemma add_rules_ids_unique specs kb :
  ids_unique kb → ids_unique (snd (add_rules kb specs)).
Proof.
  intros [Hnd Hb]. destruct (add_rules_spec specs kb Hb) as (Hb' & _ & _ & Hnd').
  split; auto.
Qed.

(** X5: a fact just added is the one [get_fact] returns, with a
    justification that names no rule and no premise; the other attributes
    keep their facts and justifications; [has_fact] finds the new fact
    whenever its value equals itself, and when [None] is asked for; the
    rules, the counter and the catalogs are untouched; and removing the fact
    leaves no fact and no justification for the attribute. *)
Theorem add_fact_round_trip (kb : KnowledgeBase) (attr : string) (val : value)
    (note : string) :
  get_fact (add_fact kb attr val note) attr = Some val
  ∧ justifications (add_fact kb attr val note) !! attr
    = Some (mkJustification (mkFact attr val) None [] note)
  ∧ (∀ other, other ≠ attr → unchanged_at kb (add_fact kb attr val note) other)
  ∧ (py_eq val val = true → has_fact (add_fact kb attr val note) attr val = true)
  ∧ has_fact (add_fact kb attr val note) attr VNone = true
  ∧ same_rule_side kb (add_fact kb attr val note)
  ∧ get_fact (remove_fact (add_fact kb attr val note) attr) attr = None
  ∧ justifications (remove_fact (add_fact kb attr val note) attr) !! attr = None
  ∧ (∀ v, has_fact (remove_fact (add_fact kb attr val note) attr) attr v = false).
Proof.
  unfold get_fact, add_fact, assert_fact, remove_fact, has_fact, unchanged_at.
  simpl. rewrite !lookup_insert_eq, !lookup_delete_eq.
  repeat split; try done.
  - by rewrite lookup_insert_ne.
  - by rewrite lookup_insert_ne.
  - intros Hv. by destruct val.
Qed.

(** ** Saving and loading *)

Lemma fold_load_rule_facts l kb :
  facts (fold_left load_rule l kb) = facts kb
  ∧ justifications (fold_left load_rule l kb) = justifications kb.
Proof.
  revert kb. induction l as [|r l IH]; intros kb; simpl; [done|].
  by destruct (IH (load_rule kb r)) as [-> ->].
Qed.

Lemma fold_add_fact_lookup (l : list (string * value)) kb a :
  NoDup (l.*1) →
  facts (fold_left (fun k f => add_fact k (f_attr f) (f_value f) "base")
           (map (fun kv => mkFact (fst kv) (snd kv)) l) kb) !! a
  = match (list_to_map l : gmap string value) !! a with
    | Some v => Some v
    | None => facts kb !! a
    end
  ∧ justifications
      (fold_left (fun k f => add_fact k (f_attr f) (f_value f) "base")
         (map (fun kv => mkFact (fst kv) (snd kv)) l) kb) !! a
    = match (list_to_map l : gmap string value) !! a with
      | Some v => Some (base_justification a v)
      | None => justifications kb !! a
      end.
Proof.
  revert kb. induction l as [|[k v] l IH]; intros kb Hnd; [done|].
  rewrite fmap_cons in Hnd. apply NoDup_cons in Hnd as [Hk Hnd].
  cbn [map fold_left fst snd f_attr f_value].
  destruct (IH (add_fact kb k v "base") Hnd) as [Hf Hj].
  rewrite Hf, Hj. clear Hf Hj IH.
  change (list_to_map ((k, v) :: l) : gmap string value)
    with (<[k := v]> (list_to_map l : gmap string value)).
  unfold add_fact, assert_fact. cbn [facts justifications].
  destruct (decide (k = a)) as [->|Hne].
  - rewrite (not_elem_of_list_to_map_1 l a Hk).
    by rewrite !lookup_insert_eq.
  - rewrite !lookup_insert_ne by done.
    by destruct ((list_to_map l : gmap string value) !! a).
Qed.

(** X6: loading what [to_json] returns gives back the same facts and the
    same rules (ids, conditions, conclusions, texts); every fact comes back
    as a base fact (no rule, no premises, note "base"), whatever its
    justification was; the catalogs are rebuilt from the rules; and the id
    counter ends above every rule id. *)
Theorem load_json_to_json (kb kb0 : KnowledgeBase) :
  facts (load_json kb0 (to_json kb)) = facts kb
  ∧ rules (load_json kb0 (to_json kb)) = rules kb
  ∧ (∀ a, justifications (load_json kb0 (to_json kb)) !! a
          = base_justification a <$> facts kb !! a)
  ∧ catalogs_in_sync (load_json kb0 (to_json kb))
  ∧ (∀ r, r ∈ rules kb → (r_id r < _next_rule_id (load_json kb0 (to_json kb)))%Z).
Proof.
  assert (∀ a,
    facts (load_json kb0 (to_json kb)) !! a = facts kb !! a
    ∧ justifications (load_json kb0 (to_json kb)) !! a
      = base_justification a <$> facts kb !! a) as Hlook.
  { intros a. unfold load_json.
    set (kb1 := fold_left _ (o_facts (to_json kb)) kb_init).
    destruct (rebuild_attributes_core (fold_left load_rule (o_rules (to_json kb)) kb1))
      as (-> & _ & -> & _).
    destruct (fold_load_rule_facts (o_rules (to_json kb)) kb1) as [-> ->].
    subst kb1. unfold to_json. cbn [o_facts].
    destruct (fold_add_fact_lookup (map_to_list (facts kb)) kb_init a
                (NoDup_fst_map_to_list _)) as [-> ->].
    rewrite list_to_map_to_list. by destruct (facts kb !! a). }
  destruct (load_json_rules kb0 (to_json kb)) as [Hr Hn].
  split; [apply map_eq; intros a; apply Hlook|].
  split; [exact Hr|]. split; [intros a; apply Hlook|].
  split; [apply rebuild_attributes_in_sync|].
  intros r Hin. specialize (Hn r Hin). lia.
Qed.

Section EngineProps.


Abbreviation cmp := (_cmp).
Abbreviation holds := (cond_holds).
Abbreviation c_hold := (conditions_hold).
Abbreviation c_loop := (conditions_hold_loop).

(** ** Python equality *)

Lemma value_ind_list (P : value → Prop) :
  P VNone → (∀ b, P (VBool b)) → (∀ n, P (VInt n)) → (∀ f, P (VFloat f)) →
  (∀ s, P (VStr s)) → (∀ l, Forall P l → P (VList l)) → ∀ v, P v.
Proof.
  intros h0 hb hn hf hs hl. fix go 1.
  intros [|b|n|f|s|l]; [apply h0|apply hb|apply hn|apply hf|apply hs|].
  apply hl. induction l as [|x xs IH]; constructor; [apply go|apply IH].
Qed.

Lemma SFeqb_self g : g ≠ S754_nan → SFeqb g g = true.
Proof.
  unfold SFeqb. destruct g as [s|s| |s m e]; simpl; intros Hn; try done.
  - by destruct s.
  - rewrite Z.compare_refl, Pos.compare_cont_refl. by destruct s.
Qed.

Lemma SFeqb_true_r f g : SFeqb f g = true → SFeqb g g = true.
Proof.
  intros H. apply SFeqb_self. intros ->.
  unfold SFeqb in H. by destruct f.
Qed.

Lemma Z_eqb_float_true_r n g : Z_eqb_float n g = true → SFeqb g g = true.
Proof.
  intros H. apply SFeqb_self. by intros ->.
Qed.

Lemma scalar_eq_true_r a b : scalar_eq a b = true → scalar_eq b b = true.
Proof.
  destruct a, b; simpl; try done;
    eauto using SFeqb_true_r, Z_eqb_float_true_r, Z.eqb_refl, String.eqb_refl.
Qed.

(** Whatever equals [v] makes [v] equal to itself (so not a NaN). *)
Lemma py_eq_true_r x v : py_eq x v = true → py_eq v v = true.
Proof.
  revert v. induction x as [|b|n|f|s|l IH] using value_ind_list; intros v;
    try (destruct v; first [by apply scalar_eq_true_r | done]).
  destruct v as [| | | | |lb]; try done. cbn [py_eq].
  revert lb. induction IH as [|x xs Hx _ IHxs]; intros [|y ys]; try done.
  cbn [all2]. intros [Hxy Hrest]%andb_true_iff.
  rewrite (Hx y Hxy). by apply IHxs.
Qed.

(** ** The condition predicate *)

Lemma cmp_outcome_returns a op b :
  ∃ r, cmp_outcome a op b = ok r.
Proof.
  unfold cmp_outcome, try_except.
  destruct (cmp_body a op b) as [e|r]; eauto.
Qed.

Lemma op_in_cases op l :
  op_in op l = true → Exists (fun o => op = o) l.
Proof.
  unfold op_in. induction l as [|o l IH]; simpl; [discriminate|].
  destruct (String.eqb_spec op o) as [->|]; simpl.
  - intros _. by left.
  - intros H. right. auto.
Qed.

Lemma ordering_not_eq_ne op :
  ordering_op op = true → op_in op eq_ops = false ∧ op_in op ne_ops = false.
Proof.
  unfold ordering_op. intros [H|H]%orb_true_iff; apply op_in_cases in H;
    repeat (apply Exists_cons in H as [->|H]; [by vm_compute|]);
    by apply Exists_nil in H.
Qed.

Lemma cmp_ordering_uncoercible a op b :
  ordering_op op = true →
  float_coercible a = false
  ∨ float_coercible b = false →
  cmp a op b = false.
Proof.
  intros Hop Hab. destruct (ordering_not_eq_ne op Hop) as [He Hn].
  unfold _cmp, cmp_outcome, try_except, cmp_body. rewrite He, Hn.
  unfold float_coercible in Hab.
  destruct (op_in op lt_ops) eqn:Hlt.
  - unfold bind. destruct (py_float a); [done|].
    destruct (py_float b); [done|]. by destruct Hab.
  - assert (op_in op gt_ops = true) as ->.
    { unfold ordering_op in Hop. rewrite Hlt in Hop. exact Hop. }
    unfold bind. destruct (py_float a); [done|].
    destruct (py_float b); [done|]. by destruct Hab.
Qed.

Lemma cmp_unknown_op a op b : known_op op = false → cmp a op b = false.
Proof.
  unfold known_op, ordering_op.
  intros H.
  apply orb_false_iff in H as [H Hin].
  apply orb_false_iff in H as [H Hord].
  apply orb_false_iff in H as [Heq Hne].
  apply orb_false_iff in Hord as [Hlt Hgt].
  unfold _cmp, cmp_outcome, try_except, cmp_body.
  by rewrite Heq, Hne, Hlt, Hgt, Hin.
Qed.


(** ** [conditions_hold] *)

Lemma conditions_hold_loop_spec kb conds used :
  c_loop kb conds used =
  if forallb (holds kb) conds
  then (true, (used ++ map (fun c => mkFact (c_attr c)
                                     (default VNone (facts kb !! c_attr c))) conds)%list)
  else (false, []).
Proof.
  revert used. induction conds as [|c rest IH]; intros used; simpl.
  - by rewrite app_nil_r.
  - unfold cond_holds at 1. destruct (facts kb !! c_attr c) as [x|] eqn:Hx; [|done].
    destruct (cmp x (c_op c) (c_value c)); simpl; [|done].
    rewrite IH. destruct (forallb (holds kb) rest); [|done].
    by rewrite <- app_assoc.
Qed.

Lemma consulted_map kb conds :
  forallb (holds kb) conds = true →
  Forall2 (consulted kb) conds
    (map (fun c => mkFact (c_attr c) (default VNone (facts kb !! c_attr c))) conds).
Proof.
  induction conds as [|c rest IH]; simpl; [constructor|].
  intros [Hc Hr]%andb_true_iff. constructor; [|auto].
  unfold cond_holds in Hc. unfold consulted. simpl.
  destruct (facts kb !! c_attr c); [done|discriminate].
Qed.

(** C5: [conditions_hold] returns [(False, [])] at the first condition whose
    attribute has no fact or whose predicate fails, whatever follows it; when
    every condition holds it returns [(True, premises)] with one consulted
    fact per condition, in condition order. *)
Theorem conditions_hold_spec (kb : KnowledgeBase) (conds : list Condition) :
  (∀ pre c suf,
     conds = (pre ++ c :: suf)%list →
     forallb (holds kb) pre = true →
     (facts kb !! c_attr c = None
      ∨ ∃ x, facts kb !! c_attr c = Some x ∧ cmp x (c_op c) (c_value c) = false) →
     c_hold kb conds = (false, []))
  ∧ (forallb (holds kb) conds = true →
     ∃ premises,
       c_hold kb conds = (true, premises)
       ∧ Forall2 (consulted kb) conds premises)
  ∧ (∀ premises, c_hold kb conds = (true, premises) →
       forallb (holds kb) conds = true
       ∧ Forall2 (consulted kb) conds premises).
Proof.
  unfold conditions_hold. rewrite conditions_hold_loop_spec.
  split; [|split].
  - intros pre c suf -> Hpre Hc.
    rewrite forallb_app. simpl.
    assert (holds kb c = false) as ->.
    { unfold cond_holds. destruct Hc as [Hn|(x & Hs & Hx)].
      - by rewrite Hn.
      - by rewrite Hs. }
    by rewrite andb_false_r.
  - intros Hall. rewrite Hall. eexists. split; [done|]. by apply consulted_map.
  - intros premises.
    destruct (forallb (holds kb) conds) eqn:Hall; [|discriminate].
    intros [= <-]. split; [done|]. by apply consulted_map.
Qed.

(** ** Forward chaining *)

Abbreviation fire := (fire_rule).
Abbreviation f_round := (forward_round).
Abbreviation f_while := (forward_while).
Abbreviation f_state := (forward_chain_state).
Abbreviation f_chain := (forward_chain).

Lemma fire_rule_fired it st r :
  fired it r st (fire it st r).
Proof.
  destruct st as [[kb inferred] new_any]. unfold fire_rule.
  destruct (c_hold kb (r_conditions r)) as [okc used] eqn:Hc.
  destruct okc; simpl; [|constructor].
  destruct (has_fact kb _ _) eqn:Hf; [constructor|].
  by constructor.
Qed.

(** Invariants of the store carry through a whole run when every single
    assertion by a rule of the store keeps them. *)
Section ForwardInvariant.

Variable kb0 : KnowledgeBase.
Variable P : KnowledgeBase → Prop.

Hypothesis P_assert : ∀ kb r it used,
  P kb → rules kb = rules kb0 → r ∈ rules kb0 →
  c_hold kb (r_conditions r) = (true, used) →
  has_fact kb (k_attr (r_conclusion r)) (k_value (r_conclusion r)) = false →
  P (assert_fact kb (k_attr (r_conclusion r)) (k_value (r_conclusion r))
       (mkJustification
          (mkFact (k_attr (r_conclusion r)) (k_value (r_conclusion r)))
          (Some (r_id r)) used (forward_note it))).

Abbreviation fw_inv st :=
  (P (fst (fst st)) ∧ rules (fst (fst st)) = rules kb0).

Lemma fire_rule_inv it st r : r ∈ rules kb0 → fw_inv st → fw_inv (fire it st r).
Proof.
  intros Hr [HP Hrules]. destruct (fire_rule_fired it st r); [done|].
  simpl in *. split; [|done]. by apply P_assert.
Qed.

Lemma fold_fire_inv it l st :
  (∀ r, r ∈ l → r ∈ rules kb0) → fw_inv st → fw_inv (fold_left (fire it) l st).
Proof.
  revert st. induction l as [|r l IH]; intros st Hl Hst; simpl; [done|].
  apply IH.
  - intros r' Hr'. apply Hl. by right.
  - apply fire_rule_inv; [|done]. apply Hl. by left.
Qed.

Lemma forward_round_inv it kb inferred :
  P kb → rules kb = rules kb0 → fw_inv (f_round it kb inferred).
Proof.
  intros HP Hr. unfold forward_round. apply fold_fire_inv; [|done].
  intros r. by rewrite Hr.
Qed.

Lemma forward_while_inv left it st : fw_inv st → fw_inv (f_while left it st).
Proof.
  revert it st. induction left as [|left IH]; intros it [[kb inferred] new_any] Hst;
    simpl; [done|].
  destruct new_any; [|done].
  apply IH. destruct Hst. by apply forward_round_inv.
Qed.

Lemma forward_chain_inv max_iterations :
  P kb0 → P (fst (f_chain kb0 max_iterations))
          ∧ rules (fst (f_chain kb0 max_iterations)) = rules kb0.
Proof.
  intros HP. unfold forward_chain, forward_chain_state.
  by apply (forward_while_inv _ _ (kb0, [], true)).
Qed.

End ForwardInvariant.

Lemma has_fact_lookup kb kb' a val :
  facts kb' !! a = facts kb !! a → has_fact kb' a val = has_fact kb a val.
Proof. unfold has_fact. by intros ->. Qed.

Lemma fire_rule_quiet it kb inferred new_any r :
  fires kb r = false →
  fire it (kb, inferred, new_any) r = (kb, inferred, new_any).
Proof.
  unfold fires, fire_rule.
  destruct (c_hold kb (r_conditions r)) as [okc used]. simpl.
  destruct okc; simpl; [|done]. by intros ->%negb_false_iff.
Qed.

Lemma fire_rule_loud it kb inferred new_any r :
  fires kb r = true →
  snd (fire it (kb, inferred, new_any) r) = true.
Proof.
  unfold fires, fire_rule.
  destruct (c_hold kb (r_conditions r)) as [okc used]. simpl.
  destruct okc; simpl; [|done]. by intros ->%negb_true_iff.
Qed.

(** Once set, [new_any] stays set until the round ends. *)
Lemma fold_fire_flag_sticky it l st :
  snd st = true → snd (fold_left (fire it) l st) = true.
Proof.
  revert st. induction l as [|r l IH]; intros st Hst; simpl; [done|].
  apply IH. destruct (fire_rule_fired it st r); done.
Qed.

Lemma fold_fire_silent it l kb inferred st' :
  fold_left (fire it) l (kb, inferred, false) = st' →
  snd st' = false →
  st' = (kb, inferred, false)
  ∧ ∀ r, r ∈ l → fires kb r = false.
Proof.
  revert st'. induction l as [|r l IH]; intros st' Hfold Hflag; cbn [fold_left] in *.
  - split; [done|]. intros r Hr. by apply not_elem_of_nil in Hr.
  - destruct (fires kb r) eqn:Hf.
    + exfalso. pose proof (fire_rule_loud it kb inferred false r Hf) as Hl.
      pose proof (fold_fire_flag_sticky it l _ Hl) as Hs.
      rewrite Hfold in Hs. congruence.
    + rewrite fire_rule_quiet in Hfold by done.
      destruct (IH st' Hfold Hflag) as [-> Hall]. split; [done|].
      intros r' [->|Hr']%elem_of_cons; auto.
Qed.

Lemma fold_fire_quiescent it l kb inferred :
  (∀ r, r ∈ l → fires kb r = false) →
  fold_left (fire it) l (kb, inferred, false) = (kb, inferred, false).
Proof.
  induction l as [|r l IH]; intros Hl; cbn [fold_left]; [done|].
  rewrite fire_rule_quiet by (apply Hl; by left).
  apply IH. intros r' Hr'. apply Hl. by right.
Qed.

(** A loop state whose flag is down holds a quiescent store. *)
Abbreviation settled st :=
  (snd st = false → quiescent (fst (fst st))).

Lemma forward_round_settled it kb inferred : settled (f_round it kb inferred).
Proof.
  unfold forward_round. intros Hflag.
  destruct (fold_fire_silent it (rules kb) kb inferred _ eq_refl Hflag) as [-> Hq].
  exact Hq.
Qed.

Lemma forward_while_settled left it st : settled st → settled (f_while left it st).
Proof.
  revert it st. induction left as [|left IH]; intros it [[kb inferred] new_any] Hst;
    simpl; [done|].
  destruct new_any; [|done].
  apply IH, forward_round_settled.
Qed.

Lemma forward_chain_quiescent kb max_iterations :
  quiescent kb →
  f_chain kb max_iterations = (kb, []).
Proof.
  intros Hq. unfold forward_chain, forward_chain_state.
  destruct (Z.to_nat max_iterations) as [|left]; simpl; [done|].
  unfold forward_round. rewrite fold_fire_quiescent by done.
  by destruct left.
Qed.

(** C4 (amended): when a run of [forward_chain] ends on a round that
    asserted nothing (its [new_any] flag is down: a fixpoint, not the
    iteration cap), a second run, under any cap, returns the empty list and
    leaves the store as it is. *)
Theorem forward_chain_fixpoint_idempotent (kb : KnowledgeBase)
    (max_iterations max_iterations' : Z) (kb1 : KnowledgeBase)
    (inferred1 : list Fact) :
  f_state kb max_iterations = (kb1, inferred1, false) →
  f_chain kb1 max_iterations' = (kb1, []).
Proof.
  intros Hrun. apply forward_chain_quiescent.
  pose proof (forward_while_settled (Z.to_nat max_iterations) 0 (kb, [], true)) as Hs.
  unfold forward_chain_state in Hrun. rewrite Hrun in Hs.
  apply Hs; [discriminate|done].
Qed.

(** ** Backward chaining: effect on the store *)

Abbreviation bw_rec := (backward_prove_rec).
Abbreviation bw_prove := (backward_prove).
Abbreviation premises_loop := (prove_premises).
Abbreviation candidates_loop := (try_candidates).

Lemma visited_incl_refl vis : visited_incl vis vis.
Proof. by intros k. Qed.

Lemma visited_incl_trans vis1 vis2 vis3 :
  visited_incl vis1 vis2 → visited_incl vis2 vis3 → visited_incl vis1 vis3.
Proof. intros H12 H23 k Hk. auto. Qed.

Lemma visited_incl_cons k vis : visited_incl vis (k :: vis).
Proof. intros k' Hk'. simpl. rewrite Hk'. apply orb_true_r. Qed.

Lemma bw_post_refl goal kb vis res : bw_post goal kb vis (res, kb, vis).
Proof.
  split; simpl; try done.
  - apply visited_incl_refl.
  - intros x _. by right.
Qed.

Lemma bw_post_trans goal kb vis st1 st2 :
  bw_post None kb vis st1 →
  bw_post goal (snd (fst st1)) (snd st1) st2 →
  bw_post goal kb vis st2.
Proof.
  intros [R1 V1 K1 U1 Y1] [R2 V2 K2 U2 Y2]. split.
  - congruence.
  - by eapply visited_incl_trans.
  - auto.
  - intros x Hx. destruct (U1 x Hx) as [[_ ?]|[Hf1 Hj1]]; [done|].
    destruct (U2 x (K1 x Hx)) as [?|[Hf2 Hj2]]; [by left|].
    right. split; congruence.
  - auto.
Qed.

Lemma bw_post_unknown_goal a kb vis st :
  facts kb !! a = None → bw_post (Some a) kb vis st → bw_post None kb vis st.
Proof.
  intros Ha [R V K U Y]. split; try done.
  intros x Hx. destruct (U x Hx) as [[_ [= ->]]|?]; [|by right].
  rewrite Ha in Hx. by destruct Hx.
Qed.

Lemma bw_post_any_goal goal kb vis st :
  bw_post None kb vis st → bw_post goal kb vis st.
Proof.
  intros [R V K U Y]. split; try done.
  intros x Hx. destruct (U x Hx) as [[_ ?]|?]; [done|by right].
Qed.

Lemma bw_post_visited goal kb vis vis1 st :
  visited_incl vis vis1 → bw_post goal kb vis1 st → bw_post goal kb vis st.
Proof.
  intros Hv [R V K U Y]. split; try done. by eapply visited_incl_trans.
Qed.

Lemma keyed_assert_fact kb a v j :
  keyed_identically kb → keyed_identically (assert_fact kb a v j).
Proof.
  unfold keyed_identically, assert_fact. simpl. intros Hk.
  by rewrite !dom_insert_L, Hk.
Qed.

Lemma bw_post_assert a v j kb vis res kb' vis' :
  bw_post None kb vis (res, kb', vis') →
  bw_post (Some a) kb vis (Ret true, assert_fact kb' a v j, vis').
Proof.
  intros [R V K U Y]. simpl in *. split; simpl; try done.
  - intros x Hx. destruct (decide (a = x)) as [->|Hne].
    + by rewrite lookup_insert_eq.
    + rewrite lookup_insert_ne by done. auto.
  - intros x Hx. destruct (decide (a = x)) as [->|Hne]; [by left|].
    right. destruct (U x Hx) as [[_ ?]|[Hf Hj]]; [done|].
    unfold unchanged_at. simpl. by rewrite !lookup_insert_ne.
  - intros Hk. by apply keyed_assert_fact, Y.
Qed.

Section BackwardLoops.

Variable prove : KnowledgeBase → string → value → visited_set → bw_state.
Hypothesis prove_post : ∀ kb a v vis, bw_post (Some a) kb vis (prove kb a v vis).

Lemma prove_premises_post conds kb vis used :
  bw_post None kb vis (fst (premises_loop prove conds kb vis used)).
Proof.
  revert kb vis used. induction conds as [|c rest IH]; intros kb vis used;
    cbn [prove_premises]; [apply bw_post_refl|].
  destruct (facts kb !! c_attr c) as [x|] eqn:Hx.
  - destruct (negb _); [apply bw_post_refl|apply IH].
  - destruct (op_in (c_op c) eq_ops); [|apply bw_post_refl].
    pose proof (prove_post kb (c_attr c) (c_value c) vis) as Hp.
    apply bw_post_unknown_goal in Hp; [|done].
    destruct (prove kb (c_attr c) (c_value c) vis) as [[res1 kb1] vis1].
    destruct res1 as [[|]|e|]; try exact Hp.
    eapply bw_post_trans; [exact Hp|]. apply IH.
Qed.

Lemma try_candidates_post goal_attr goal_val cands kb vis :
  bw_post (Some goal_attr) kb vis
    (candidates_loop prove goal_attr goal_val cands kb vis).
Proof.
  revert kb vis. induction cands as [|r rest IH]; intros kb vis;
    cbn [try_candidates]; [apply bw_post_refl|].
  pose proof (prove_premises_post (r_conditions r) kb vis []) as Hp.
  destruct (premises_loop prove (r_conditions r) kb vis [])
    as [[[res1 kb1] vis1] used1]. simpl in Hp.
  destruct res1 as [[|]|e|].
  - by eapply bw_post_assert.
  - eapply bw_post_trans; [exact Hp|]. apply IH.
  - by apply bw_post_any_goal.
  - by apply bw_post_any_goal.
Qed.

End BackwardLoops.

Lemma backward_prove_rec_post fuel kb a v vis :
  bw_post (Some a) kb vis (bw_rec fuel kb a v vis).
Proof.
  revert kb a v vis. induction fuel as [|fuel IH]; intros kb a v vis;
    cbn [backward_prove_rec]; [apply bw_post_refl|].
  destruct (negb (hashable v)); [apply bw_post_refl|].
  destruct (visited_mem (a, v) vis); [apply bw_post_refl|].
  destruct (has_fact kb a v).
  - eapply bw_post_visited; [apply visited_incl_cons|apply bw_post_refl].
  - eapply bw_post_visited; [apply visited_incl_cons|].
    by apply try_candidates_post.
Qed.

(** ** Backward chaining: termination *)

Lemma filter_length_le {A} (p q : A → bool) (l : list A) :
  (∀ x, p x = true → q x = true) →
  (length (List.filter p l) ≤ length (List.filter q l))%nat.
Proof.
  intros Hpq. induction l as [|x l IH]; simpl; [lia|].
  destruct (p x) eqn:Hp.
  - rewrite (Hpq x Hp). simpl. lia.
  - destruct (q x); simpl; lia.
Qed.

Lemma filter_length_lt {A} (p q : A → bool) (l : list A) (u : A) :
  (∀ x, p x = true → q x = true) →
  In u l → q u = true → p u = false →
  (length (List.filter p l) < length (List.filter q l))%nat.
Proof.
  intros Hpq Hu Hq Hp. induction l as [|x l IH]; simpl; [done|].
  destruct Hu as [->|Hu].
  - rewrite Hp, Hq. simpl. pose proof (filter_length_le p q l Hpq). lia.
  - specialize (IH Hu). destruct (p x) eqn:Hpx.
    + rewrite (Hpq x Hpx). simpl. lia.
    + destruct (q x); simpl; lia.
Qed.

Lemma unvisited_antitone kb vis vis' :
  visited_incl vis vis' → (unvisited kb vis' ≤ unvisited kb vis)%nat.
Proof.
  intros Hincl. apply filter_length_le. intros u Hu.
  destruct (visited_mem u vis) eqn:Hm; [|done].
  apply Hincl in Hm. by rewrite Hm in Hu.
Qed.

Lemma unvisited_cons_lt kb u vis :
  In u (subgoal_pairs kb) → visited_mem u vis = false → key_eq u u = true →
  (unvisited kb (u :: vis) < unvisited kb vis)%nat.
Proof.
  intros Hu Hm Hrefl. apply (filter_length_lt _ _ _ u); try done.
  - intros x Hx. destruct (visited_mem x vis) eqn:Hmx; [|done].
    apply (visited_incl_cons u) in Hmx. by rewrite Hmx in Hx.
  - by rewrite Hm.
  - simpl. by rewrite Hrefl.
Qed.

Lemma unvisited_le kb vis : (unvisited kb vis ≤ length (subgoal_pairs kb))%nat.
Proof.
  unfold unvisited. induction (subgoal_pairs kb) as [|x l IH]; simpl; [lia|].
  destruct (negb _); simpl; lia.
Qed.

Lemma subgoal_pairs_rules kb kb' :
  rules kb' = rules kb → subgoal_pairs kb' = subgoal_pairs kb.
Proof. unfold subgoal_pairs. by intros ->. Qed.

Lemma unvisited_rules kb kb' vis :
  rules kb' = rules kb → unvisited kb' vis = unvisited kb vis.
Proof. unfold unvisited. by intros ->%subgoal_pairs_rules. Qed.

Lemma subgoal_pairs_In kb r c :
  In r (rules kb) → In c (r_conditions r) →
  In (c_attr c, c_value c) (subgoal_pairs kb).
Proof.
  intros Hr Hc. unfold subgoal_pairs. apply in_flat_map. exists r. split; [done|].
  apply in_map_iff. by exists c.
Qed.

Lemma no_candidates_without_self_equality goal_attr goal_val rs :
  py_eq goal_val goal_val = false →
  List.filter (is_candidate goal_attr goal_val) rs = [].
Proof.
  intros Hv. induction rs as [|r rs IH]; simpl; [done|].
  destruct (is_candidate goal_attr goal_val r) eqn:Hc; [|done].
  unfold is_candidate in Hc. apply andb_true_iff in Hc as [_ Hc].
  apply py_eq_true_r in Hc. congruence.
Qed.

Section BackwardTermination.

Variable kb0 : KnowledgeBase.
Variable m : nat.
Variable prove : KnowledgeBase → string → value → visited_set → bw_state.

Hypothesis prove_post : ∀ kb a v vis, bw_post (Some a) kb vis (prove kb a v vis).
Hypothesis prove_finished : ∀ kb a v vis,
  rules kb = rules kb0 → In (a, v) (subgoal_pairs kb0) → (unvisited kb0 vis ≤ m)%nat →
  finished (fst (fst (prove kb a v vis))) = true.

Lemma prove_premises_finished conds kb vis used :
  rules kb = rules kb0 →
  (∀ c, In c conds → In (c_attr c, c_value c) (subgoal_pairs kb0)) →
  (unvisited kb0 vis ≤ m)%nat →
  finished (fst (fst (fst (premises_loop prove conds kb vis used)))) = true.
Proof.
  revert kb vis used. induction conds as [|c rest IH]; intros kb vis used Hr Hc Hm;
    cbn [prove_premises]; [done|].
  assert (∀ c', In c' rest → In (c_attr c', c_value c') (subgoal_pairs kb0)) as Hrest.
  { intros c' Hc'. apply Hc. by right. }
  destruct (facts kb !! c_attr c) as [x|] eqn:Hx.
  - destruct (negb _); [done|by apply IH].
  - destruct (op_in (c_op c) eq_ops); [|done].
    pose proof (prove_post kb (c_attr c) (c_value c) vis) as [R V _ _ _].
    pose proof (prove_finished kb (c_attr c) (c_value c) vis Hr
                  (Hc c (or_introl eq_refl)) Hm) as Hfin.
    destruct (prove kb (c_attr c) (c_value c) vis) as [[res1 kb1] vis1].
    simpl in *. destruct res1 as [[|]|e|]; try done.
    apply IH; [congruence|done|].
    pose proof (unvisited_antitone kb0 _ _ V). lia.
Qed.

Lemma try_candidates_finished goal_attr goal_val cands kb vis :
  rules kb = rules kb0 →
  (∀ r, In r cands → In r (rules kb0)) →
  (unvisited kb0 vis ≤ m)%nat →
  finished (fst (fst (candidates_loop prove goal_attr goal_val cands kb vis))) = true.
Proof.
  revert kb vis. induction cands as [|r rest IH]; intros kb vis Hr Hc Hm;
    cbn [try_candidates]; [done|].
  pose proof (prove_premises_post prove prove_post (r_conditions r) kb vis [])
    as [R V _ _ _].
  pose proof (prove_premises_finished (r_conditions r) kb vis [] Hr) as Hfin.
  destruct (premises_loop prove (r_conditions r) kb vis [])
    as [[[res1 kb1] vis1] used1]. simpl in *.
  destruct res1 as [[|]|e|]; try done.
  - apply IH; [congruence| |].
    + intros r' Hr'. apply Hc. by right.
    + pose proof (unvisited_antitone kb0 _ _ V). lia.
  - apply Hfin; [|done]. intros c Hcin.
    apply (subgoal_pairs_In kb0 r); [|done]. apply Hc. by left.
Qed.

End BackwardTermination.

Lemma backward_prove_rec_S fuel kb a v vis :
  bw_rec (S fuel) kb a v vis =
  if negb (hashable v) then (Raise TypeError, kb, vis)
  else if visited_mem (a, v) vis then (Ret false, kb, vis)
  else if has_fact kb a v then (Ret true, kb, (a, v) :: vis)
  else candidates_loop (bw_rec fuel) a v
         (List.filter (is_candidate a v) (rules kb)) kb ((a, v) :: vis).
Proof. reflexivity. Qed.

(** A sub-goal call returns when its fuel exceeds the number of sub-goal
    pairs not yet visited. *)
Lemma backward_prove_rec_finished m kb a v vis :
  In (a, v) (subgoal_pairs kb) → (unvisited kb vis ≤ m)%nat →
  finished (fst (fst (bw_rec (S m) kb a v vis))) = true.
Proof.
  revert kb a v vis. induction m as [|m IH]; intros kb a v vis Hin Hm;
    rewrite backward_prove_rec_S;
    (destruct (negb (hashable v)); [done|]);
    (destruct (visited_mem (a, v) vis) eqn:Hvis; [done|]);
    (destruct (has_fact kb a v); [done|]);
    (destruct (py_eq v v) eqn:Hvv;
       [|by rewrite no_candidates_without_self_equality]);
    assert (key_eq (a, v) (a, v) = true) as Hrefl
      by (unfold key_eq; simpl; by rewrite String.eqb_refl, Hvv);
    pose proof (unvisited_cons_lt kb (a, v) vis Hin Hvis Hrefl) as Hlt.
  - lia.
  - apply (try_candidates_finished kb m).
    + intros. apply backward_prove_rec_post.
    + intros kb' a' v' vis' Hr Hin' Hm'. apply IH.
      * by rewrite (subgoal_pairs_rules _ _ Hr).
      * by rewrite (unvisited_rules _ _ _ Hr).
    + done.
    + intros r Hr. by apply filter_In in Hr as [? _].
    + lia.
Qed.

Lemma backward_prove_top_finished kb a v k :
  finished (fst (fst (bw_rec (fuel_bound kb + k) kb a v []))) = true.
Proof.
  unfold fuel_bound. cbn [Nat.add]. rewrite backward_prove_rec_S.
  destruct (negb (hashable v)); [done|]. cbn [visited_mem existsb].
  destruct (has_fact kb a v); [done|].
  apply (try_candidates_finished kb (length (subgoal_pairs kb) + k)).
  - intros. apply backward_prove_rec_post.
  - intros kb' a' v' vis' Hr Hin' Hm'. apply backward_prove_rec_finished.
    + by rewrite (subgoal_pairs_rules _ _ Hr).
    + by rewrite (unvisited_rules _ _ _ Hr).
  - done.
  - intros r Hr. by apply filter_In in Hr as [? _].
  - pose proof (unvisited_le kb [(a, v)]). lia.
Qed.

(** More fuel does not change the outcome of a call that finished. *)
Section FuelMonotone.

Variables prove1 prove2 : KnowledgeBase → string → value → visited_set → bw_state.
Hypothesis prove_mono : ∀ kb a v vis,
  finished (fst (fst (prove1 kb a v vis))) = true →
  prove2 kb a v vis = prove1 kb a v vis.

Lemma prove_premises_mono conds kb vis used :
  finished (fst (fst (fst (premises_loop prove1 conds kb vis used)))) = true →
  premises_loop prove2 conds kb vis used = premises_loop prove1 conds kb vis used.
Proof.
  revert kb vis used. induction conds as [|c rest IH]; intros kb vis used;
    cbn [prove_premises]; [done|].
  destruct (facts kb !! c_attr c) as [x|].
  - destruct (negb _); [done|apply IH].
  - destruct (op_in (c_op c) eq_ops); [|done].
    pose proof (prove_mono kb (c_attr c) (c_value c) vis) as Hm.
    destruct (prove1 kb (c_attr c) (c_value c) vis) as [[res1 kb1] vis1].
    simpl in Hm. destruct res1 as [[|]|e|]; intros Hfin;
      try (rewrite Hm by done; done).
    rewrite Hm by done. by apply IH.
Qed.

Lemma try_candidates_mono goal_attr goal_val cands kb vis :
  finished (fst (fst (candidates_loop prove1 goal_attr goal_val cands kb vis))) = true →
  candidates_loop prove2 goal_attr goal_val cands kb vis
  = candidates_loop prove1 goal_attr goal_val cands kb vis.
Proof.
  revert kb vis. induction cands as [|r rest IH]; intros kb vis;
    cbn [try_candidates]; [done|].
  pose proof (prove_premises_mono (r_conditions r) kb vis []) as Hm.
  destruct (premises_loop prove1 (r_conditions r) kb vis [])
    as [[[res1 kb1] vis1] used1].
  simpl in Hm. destruct res1 as [[|]|e|]; intros Hfin;
    try (rewrite Hm by done; done).
  rewrite Hm by done. by apply IH.
Qed.

End FuelMonotone.

Lemma backward_prove_rec_mono fuel kb a v vis :
  finished (fst (fst (bw_rec fuel kb a v vis))) = true →
  bw_rec (S fuel) kb a v vis = bw_rec fuel kb a v vis.
Proof.
  revert kb a v vis. induction fuel as [|fuel IH]; intros kb a v vis; [done|].
  rewrite (backward_prove_rec_S (S fuel)), (backward_prove_rec_S fuel).
  destruct (negb (hashable v)); [done|].
  destruct (visited_mem (a, v) vis); [done|].
  destruct (has_fact kb a v); [done|].
  apply try_candidates_mono. intros. by apply IH.
Qed.

Lemma backward_prove_rec_mono_add fuel k kb a v vis :
  finished (fst (fst (bw_rec fuel kb a v vis))) = true →
  bw_rec (fuel + k) kb a v vis = bw_rec fuel kb a v vis.
Proof.
  intros Hfin. induction k as [|k IH].
  - by rewrite Nat.add_0_r.
  - rewrite Nat.add_succ_r, backward_prove_rec_mono; [done|]. by rewrite IH.
Qed.

(** C3: [backward_prove] terminates on every store and goal: the fuel
    [fuel_bound kb] is enough for the call to return or raise, more fuel
    changes nothing, and on the two mutually dependent rules
    (X = 1 from Y = 1, Y = 1 from X = 1) with no facts, proving X = 1
    returns failure and leaves the store as it is. *)
Theorem backward_prove_terminates (kb : KnowledgeBase) (a : string) (v : value)
    (k : nat) :
  finished (fst (bw_prove kb a v)) = true
  ∧ fst (bw_rec (fuel_bound kb + k) kb a v []) = bw_prove kb a v
  ∧ (∀ fuel vis, hashable v = true → visited_mem (a, v) vis = true →
       bw_rec (S fuel) kb a v vis = (Ret false, kb, vis))
  ∧ bw_prove kb_cycle "X" (VInt 1) = (Ret false, kb_cycle).
Proof.
  pose proof (backward_prove_top_finished kb a v 0) as Hfin.
  rewrite Nat.add_0_r in Hfin.
  split; [|split; [|split]].
  - unfold backward_prove. by destruct (bw_rec _ _ _ _ _) as [[? ?] ?].
  - unfold backward_prove. by rewrite backward_prove_rec_mono_add.
  - intros fuel vis Hh Hvis. rewrite backward_prove_rec_S. by rewrite Hh, Hvis.
  - by vm_compute.
Qed.

(** C9: [has_fact attr None] tests presence only, whatever the stored
    value, and [backward_prove] with goal value [None] succeeds at once on
    any attribute that has a fact, leaving the store as it is. *)
Theorem has_fact_none_presence (kb : KnowledgeBase) (attr : string) :
  (has_fact kb attr VNone = true ↔ is_Some (facts kb !! attr))
  ∧ (∀ x, facts kb !! attr = Some x → has_fact kb attr VNone = true)
  ∧ (∀ x, facts kb !! attr = Some x → bw_prove kb attr VNone = (Ret true, kb)).
Proof.
  split; [|split].
  - unfold has_fact. destruct (facts kb !! attr); split; try done;
      try (by intros [? ?]).
  - intros x Hx. unfold has_fact. by rewrite Hx.
  - intros x Hx. unfold backward_prove, fuel_bound.
    cbn [backward_prove_rec Nat.add hashable negb visited_mem existsb].
    unfold has_fact. by rewrite Hx.
Qed.

(** ** Snapshot and undo *)

Abbreviation m_run := (run).
Abbreviation m_handle := (handle).
Abbreviation m_effect := (effect).

Lemma run_spec m st :
  wf st →
  view (m_run m st) = m_effect m (view st)
  ∧ wf (m_run m st)
  ∧ undo_stack (m_run m st) = undo_stack st
  ∧ ∀ snap, snap_alloc (m_heap st) snap → snap_apart (m_kb st) snap →
      snapshot_view (m_heap (m_run m st)) snap = snapshot_view (m_heap st) snap
      ∧ snap_alloc (m_heap (m_run m st)) snap.
Proof.
  intros Hwf. unfold run.
  destruct (commit _ _ _ _) as [o2 h2] eqn:Ec.
  destruct (commit_spec _ _ _ _ _ _ Hwf Ec) as (Hv & Hw & Hs).
  unfold view, wf. simpl.
  split; [done|]. split; [done|]. split; [done|].
  intros snap Ha Hp. by apply Hs.
Qed.

Lemma push_snapshot_spec st :
  wf st →
  view (push_snapshot st) = view st
  ∧ wf (push_snapshot st)
  ∧ m_kb (push_snapshot st) = m_kb st
  ∧ ∃ snap,
      undo_stack (push_snapshot st) = snap :: undo_stack st
      ∧ snapshot_view (m_heap (push_snapshot st)) snap = view st
      ∧ snap_alloc (m_heap (push_snapshot st)) snap
      ∧ snap_apart (m_kb st) snap.
Proof.
  intros Hwf. unfold push_snapshot.
  destruct (snapshot_kb _ _) as [snap h1] eqn:Es.
  destruct (snapshot_kb_spec _ _ _ _ Hwf Es) as (Hsv & Hv & Hw & Ha & Hp).
  unfold view, wf. simpl.
  split; [done|]. split; [done|]. split; [done|].
  exists snap. split; [done|]. split; [done|]. by split.
Qed.

(** Undo right after a handler brings back the store the handler found. *)
Lemma handle_undo_spec m st :
  wf st →
  view (handle_undo (m_handle m st)) = view st
  ∧ undo_stack (handle_undo (m_handle m st)) = undo_stack st
  ∧ wf (handle_undo (m_handle m st)).
Proof.
  intros Hwf. unfold handle.
  destruct (push_snapshot_spec st Hwf) as (Hv1 & Hw1 & Hk1 & snap & Hst & Hsv & Ha & Hp).
  destruct (run_spec m _ Hw1) as (_ & _ & Hst2 & Hframe).
  rewrite Hk1 in Hframe. destruct (Hframe snap Ha Hp) as [Hsv2 Ha2].
  unfold handle_undo. rewrite Hst2, Hst.
  destruct (restore_kb _ snap) as [o h3] eqn:Er.
  destruct (restore_kb_spec _ _ _ _ Ha2 Er) as [Hv3 Hw3].
  unfold view, wf. simpl. split; [|done].
  by rewrite Hv3, Hsv2, Hsv.
Qed.

Lemma handle_spec m st :
  wf st → view (m_handle m st) = m_effect m (view st) ∧ wf (m_handle m st).
Proof.
  intros Hwf. unfold handle.
  destruct (push_snapshot_spec st Hwf) as (Hv1 & Hw1 & _).
  destruct (run_spec m _ Hw1) as (Hv2 & Hw2 & _).
  split; [|done]. by rewrite Hv2, Hv1.
Qed.

(** C7: a snapshot taken before any one mutating operation (adding or
    removing a fact or a rule, importing rules, a forward run, a backward
    run, a load) and restored after it gives back a store whose facts, rules,
    justifications, rule-id counter and three catalogs are those of the
    state before the operation; the operation itself did act on the store. *)
Theorem undo_restores_store (st : machine) (m : mutation) :
  wf st →
  view (m_handle m st) = m_effect m (view st)
  ∧ view (handle_undo (m_handle m st)) = view st
  ∧ undo_stack (handle_undo (m_handle m st)) = undo_stack st.
Proof.
  intros Hwf.
  destruct (handle_spec m st Hwf) as [Hv _].
  destruct (handle_undo_spec m st Hwf) as (Hu & Hs & _).
  done.
Qed.

(** ** Facts and justifications keyed identically *)

Lemma keyed_same_core kb kb' :
  same_core kb kb' → keyed_identically kb → keyed_identically kb'.
Proof. unfold keyed_identically. by intros (-> & _ & -> & _). Qed.

Lemma keyed_fold_add_fact l kb :
  keyed_identically kb →
  keyed_identically
    (fold_left (fun k f => add_fact k (f_attr f) (f_value f) "base") l kb).
Proof.
  revert kb. induction l as [|f l IH]; intros kb Hk; simpl; [done|].
  apply IH. by apply keyed_assert_fact.
Qed.

Lemma keyed_fold_load_rule l kb :
  keyed_identically kb → keyed_identically (fold_left load_rule l kb).
Proof.
  revert kb. induction l as [|r l IH]; intros kb Hk; simpl; [done|].
  by apply IH.
Qed.

Lemma keyed_load_json kb0 obj : keyed_identically (load_json kb0 obj).
Proof.
  unfold load_json.
  eapply keyed_same_core; [apply rebuild_attributes_core|].
  apply keyed_fold_load_rule, keyed_fold_add_fact. done.
Qed.

Lemma keyed_remove_fact kb attr :
  keyed_identically kb → keyed_identically (remove_fact kb attr).
Proof.
  unfold keyed_identically, remove_fact. simpl. intros Hk.
  by rewrite !dom_delete_L, Hk.
Qed.

(** C8: every operation that touches facts keeps the key set of the facts
    equal to the key set of the justifications: [add_fact], fact removal,
    [forward_chain], [backward_prove], [load_json] (whatever the store was)
    and [restore_kb] of a snapshot holding such a store, as taken by a
    handler before its operation. *)
Theorem keyed_identically_preserved (kb : KnowledgeBase) :
  keyed_identically kb →
  (∀ attr val note, keyed_identically (add_fact kb attr val note))
  ∧ (∀ attr, keyed_identically (remove_fact kb attr))
  ∧ (∀ max_iterations, keyed_identically (fst (f_chain kb max_iterations)))
  ∧ (∀ a v, keyed_identically (snd (bw_prove kb a v)))
  ∧ (∀ kb0 obj, keyed_identically (load_json kb0 obj))
  ∧ (∀ h snap o h', snap_alloc h snap → snapshot_view h snap = kb →
       restore_kb h snap = (o, h') → keyed_identically (view_of h' o))
  ∧ (∀ st m, wf st → view st = kb →
       keyed_identically (view (handle_undo (m_handle m st)))).
Proof.
  intros Hk. repeat split.
  - intros attr val note. by apply keyed_assert_fact.
  - intros attr. by apply keyed_remove_fact.
  - intros max_iterations.
    apply (forward_chain_inv kb keyed_identically); [|done].
    intros kb' r it used Hk' _ _ _ _. by apply keyed_assert_fact.
  - intros a v. unfold backward_prove.
    by apply (post_keyed _ _ _ _ (backward_prove_rec_post (fuel_bound kb) kb a v [])).
  - intros kb0 obj. apply keyed_load_json.
  - intros h snap o h' Ha Hv Hr.
    destruct (restore_kb_spec _ _ _ _ Ha Hr) as [-> _]. by rewrite Hv.
  - intros st m Hwf Hv.
    destruct (handle_undo_spec m st Hwf) as (-> & _). by rewrite Hv.
Qed.

(** ** More on forward chaining *)

(** Invariants that also speak of the list being returned. *)
Section ForwardStateInvariant.

Variable kb0 : KnowledgeBase.
Variable Q : KnowledgeBase → list Fact → Prop.

Hypothesis Q_assert : ∀ kb inferred r it used,
  Q kb inferred → rules kb = rules kb0 → r ∈ rules kb0 →
  c_hold kb (r_conditions r) = (true, used) →
  has_fact kb (k_attr (r_conclusion r)) (k_value (r_conclusion r)) = false →
  Q (assert_fact kb (k_attr (r_conclusion r)) (k_value (r_conclusion r))
       (mkJustification
          (mkFact (k_attr (r_conclusion r)) (k_value (r_conclusion r)))
          (Some (r_id r)) used (forward_note it)))
    (inferred ++ [mkFact (k_attr (r_conclusion r)) (k_value (r_conclusion r))])%list.

Abbreviation fw_sinv st :=
  (Q (fst (fst st)) (snd (fst st)) ∧ rules (fst (fst st)) = rules kb0).

Lemma fire_rule_sinv it st r : r ∈ rules kb0 → fw_sinv st → fw_sinv (fire it st r).
Proof.
  intros Hr [HQ Hrules]. destruct (fire_rule_fired it st r); [done|].
  simpl in *. split; [|done]. by apply Q_assert.
Qed.

Lemma fold_fire_sinv it l st :
  (∀ r, r ∈ l → r ∈ rules kb0) → fw_sinv st → fw_sinv (fold_left (fire it) l st).
Proof.
  revert st. induction l as [|r l IH]; intros st Hl Hst; cbn [fold_left]; [done|].
  apply IH.
  - intros r' Hr'. apply Hl. by right.
  - apply fire_rule_sinv; [|done]. apply Hl. by left.
Qed.

Lemma forward_while_sinv left it st : fw_sinv st → fw_sinv (f_while left it st).
Proof.
  revert it st. induction left as [|left IH]; intros it [[kb inferred] new_any] Hst;
    simpl; [done|].
  destruct new_any; [|done].
  apply IH. destruct Hst as [HQ Hr]. unfold forward_round.
  apply fold_fire_sinv; [|done]. intros r. simpl in Hr. by rewrite Hr.
Qed.

Lemma forward_chain_sinv max_iterations :
  Q kb0 [] →
  Q (fst (f_chain kb0 max_iterations)) (snd (f_chain kb0 max_iterations)).
Proof.
  intros HQ. unfold forward_chain, forward_chain_state.
  by apply (forward_while_sinv _ _ (kb0, [], true)).
Qed.

End ForwardStateInvariant.

Lemma replay_snoc inferred f m :
  replay (inferred ++ [f]) m = <[f_attr f := f_value f]> (replay inferred m).
Proof. unfold replay. by rewrite fold_left_app. Qed.

(** ** What forward chaining keeps and what it writes *)

Lemma conditions_hold_loop_facts kb kb' conds used :
  facts kb' = facts kb → c_loop kb' conds used = c_loop kb conds used.
Proof.
  intros Hf. revert used. induction conds as [|c rest IH]; intros used; simpl;
    [done|].
  rewrite Hf. destruct (facts kb !! c_attr c); [|done].
  destruct (negb _); [done|apply IH].
Qed.

Lemma fires_facts kb kb' r : facts kb' = facts kb → fires kb' r = fires kb r.
Proof.
  intros Hf. unfold fires, conditions_hold, has_fact.
  by rewrite (conditions_hold_loop_facts kb kb'), Hf.
Qed.

Lemma conditions_hold_all kb conds used c :
  c_hold kb conds = (true, used) → c ∈ conds → holds kb c = true.
Proof.
  unfold conditions_hold. rewrite conditions_hold_loop_spec.
  destruct (forallb (holds kb) conds) eqn:Hall; [|discriminate].
  intros _ Hc. rewrite forallb_forall in Hall. by apply Hall, list_elem_of_In.
Qed.

Lemma snoc_split {A} (l pre suf : list A) (g f : A) :
  (l ++ [g] = pre ++ f :: suf)%list →
  (suf = [] ∧ pre = l ∧ f = g)
  ∨ ∃ suf', suf = (suf' ++ [g])%list ∧ l = (pre ++ f :: suf')%list.
Proof.
  induction suf as [|x suf' _] using rev_ind; intros Heq.
  - left. apply app_inj_tail in Heq as [-> ->]. done.
  - right. exists suf'. rewrite app_comm_cons, app_assoc in Heq.
    apply app_inj_tail in Heq as [-> ->]. done.
Qed.

Lemma fire_rule_extends it st r :
  ∃ suf, snd (fst (fire it st r)) = (snd (fst st) ++ suf)%list.
Proof.
  destruct (fire_rule_fired it st r); simpl.
  - exists []. by rewrite app_nil_r.
  - by eexists.
Qed.

Lemma fold_fire_extends it l st :
  ∃ suf, snd (fst (fold_left (fire it) l st)) = (snd (fst st) ++ suf)%list.
Proof.
  revert st. induction l as [|r l IH]; intros st; cbn [fold_left].
  - exists []. by rewrite app_nil_r.
  - destruct (IH (fire it st r)) as [suf2 ->].
    destruct (fire_rule_extends it st r) as [suf1 ->].
    exists (suf1 ++ suf2)%list. by rewrite app_assoc.
Qed.

Lemma forward_while_extends left it st :
  ∃ suf, snd (fst (f_while left it st)) = (snd (fst st) ++ suf)%list.
Proof.
  revert it st. induction left as [|left IH]; intros it [[kb inferred] new_any];
    cbn [forward_while].
  - exists []. by rewrite app_nil_r.
  - destruct new_any; [|exists []; by rewrite app_nil_r].
    destruct (IH (S it) (f_round (S it) kb inferred)) as [suf2 ->].
    unfold forward_round.
    destruct (fold_fire_extends (S it) (rules kb) (kb, inferred, false))
      as [suf1 ->].
    exists (suf1 ++ suf2)%list. simpl. by rewrite app_assoc.
Qed.


(** X7: the list [forward_chain] returns is the sequence of its writes: the
    facts after the call are the facts before it with the returned facts
    written over them in order, every returned fact is the conclusion of a
    rule of the store, and every attribute in the list ends with a
    justification that names a rule. *)
Theorem forward_chain_replay (kb : KnowledgeBase) (max_iterations : Z) :
  facts (fst (f_chain kb max_iterations))
  = replay (snd (f_chain kb max_iterations)) (facts kb)
  ∧ Forall (fun f => ∃ r, r ∈ rules kb ∧ concludes r f)
           (snd (f_chain kb max_iterations))
  ∧ Forall (fun f => ∃ j rid,
              justifications (fst (f_chain kb max_iterations)) !! f_attr f = Some j
              ∧ j_rule_id j = Some rid)
           (snd (f_chain kb max_iterations)).
Proof.
  apply (forward_chain_sinv kb
           (fun k inferred =>
              facts k = replay inferred (facts kb)
              ∧ Forall (fun f => ∃ r, r ∈ rules kb ∧ concludes r f) inferred
              ∧ Forall (fun f => ∃ j rid,
                          justifications k !! f_attr f = Some j
                          ∧ j_rule_id j = Some rid) inferred)).
  - intros k inferred r it used (Hf & Hc & Hj) _ Hr _ _.
    split; [|split].
    + rewrite replay_snoc. simpl. by rewrite Hf.
    + apply Forall_app. split; [done|]. apply Forall_singleton.
      exists r. by repeat split.
    + apply Forall_app. split.
      * eapply Forall_impl; [exact Hj|]. intros f (j & rid & Hjf & Hrid). simpl.
        destruct (decide (k_attr (r_conclusion r) = f_attr f)) as [->|Hne].
        -- rewrite lookup_insert_eq. by eexists _, _.
        -- rewrite lookup_insert_ne by done. by exists j, rid.
      * apply Forall_singleton. simpl. rewrite lookup_insert_eq. by eexists _, _.
  - by repeat split.
Qed.

Lemma fold_fire_length it l st :
  (length (snd (fst (fold_left (fire it) l st)))
   ≤ length (snd (fst st)) + length l)%nat.
Proof.
  revert st. induction l as [|r l IH]; intros st; cbn [fold_left]; [simpl; lia|].
  specialize (IH (fire it st r)).
  destruct (fire_rule_fired it st r); simpl in *; [lia|].
  rewrite length_app in IH. simpl in IH. lia.
Qed.

Lemma forward_while_length kb0 left it st :
  rules (fst (fst st)) = rules kb0 →
  (length (snd (fst (f_while left it st)))
   ≤ length (snd (fst st)) + left * length (rules kb0))%nat.
Proof.
  revert it st. induction left as [|left IH]; intros it [[kb inferred] new_any] Hr;
    simpl; [lia|].
  destruct new_any; [|simpl; lia].
  simpl in Hr.
  pose proof (forward_round_inv kb0 (fun _ => True) (fun _ _ _ _ _ _ _ _ _ => I)
                (S it) kb inferred I Hr) as [_ Hr1].
  specialize (IH (S it) (f_round (S it) kb inferred) Hr1).
  pose proof (fold_fire_length (S it) (rules kb) (kb, inferred, false)) as Hl.
  fold (f_round (S it) kb inferred) in Hl. simpl in Hl. rewrite Hr in Hl. lia.
Qed.

(** X8: [forward_chain] runs at most [max_iterations] rounds of at most one
    assertion per rule: the returned list has at most
    [max_iterations * len(rules)] facts, and with a cap of zero or less the
    call returns the empty list and leaves the store as it is. *)
Theorem forward_chain_bounded (kb : KnowledgeBase) (max_iterations : Z) :
  (length (snd (f_chain kb max_iterations))
   ≤ Z.to_nat max_iterations * length (rules kb))%nat
  ∧ ((max_iterations ≤ 0)%Z → f_chain kb max_iterations = (kb, [])).
Proof.
  split.
  - unfold forward_chain, forward_chain_state.
    apply (forward_while_length kb (Z.to_nat max_iterations) 0 (kb, [], true)). done.
  - intros Hle. unfold forward_chain, forward_chain_state.
    replace (Z.to_nat max_iterations) with 0%nat by lia. done.
Qed.

(** X9: when [forward_chain] stops on a round that asserted nothing, the
    store is closed under the rules: every rule whose conditions hold has
    its conclusion as a fact that [has_fact] finds. *)
Theorem forward_chain_fixpoint_closed (kb : KnowledgeBase) (max_iterations : Z)
    (kb1 : KnowledgeBase) (inferred1 : list Fact) :
  f_state kb max_iterations = (kb1, inferred1, false) →
  ∀ r, r ∈ rules kb1 →
    fst (c_hold kb1 (r_conditions r)) = true →
    has_fact kb1 (k_attr (r_conclusion r)) (k_value (r_conclusion r)) = true.
Proof.
  intros Hrun r Hr Hc.
  pose proof (forward_while_settled (Z.to_nat max_iterations) 0 (kb, [], true)) as Hs.
  unfold forward_chain_state in Hrun. rewrite Hrun in Hs.
  assert (quiescent kb1) as Hq
    by (apply Hs; [discriminate|done]).
  specialize (Hq r Hr). unfold fires in Hq. rewrite Hc in Hq. simpl in Hq.
  by apply negb_false_iff in Hq.
Qed.

(** ** Forward chaining on rules that agree *)

Lemma has_fact_accepts kb a v :
  has_fact kb a v
  = match facts kb !! a with Some x => accepts x v | None => false end.
Proof. unfold has_fact, accepts. by destruct (facts kb !! a). Qed.

Section AgreeingRules.

Variable kb0 : KnowledgeBase.
Hypothesis Hagree : rules_agree kb0.

Abbreviation agreeing kb := (facts_agree kb ∧ rules kb = rules kb0).

Lemma fire_rule_agreeing it st r :
  r ∈ rules kb0 → agreeing (fst (fst st)) →
  agreeing (fst (fst (fire it st r)))
  ∧ (open_rules kb0 (fst (fst (fire it st r))) ≤ open_rules kb0 (fst (fst st)))%nat
  ∧ (snd (fire it st r) = true →
     snd st = true
     ∨ (open_rules kb0 (fst (fst (fire it st r))) < open_rules kb0 (fst (fst st)))%nat).
Proof.
  intros Hr [Hfa Hrules].
  destruct (fire_rule_fired it st r) as [st|kb inferred new_any used Hc Hnot].
  - split; [done|]. split; [lia|]. intros ->. by left.
  - simpl in *.
    assert (facts kb !! k_attr (r_conclusion r) = None) as Hnone.
    { rewrite has_fact_accepts in Hnot.
      destruct (facts kb !! k_attr (r_conclusion r)) as [x|] eqn:Hx; [|done].
      rewrite (Hfa r x) in Hnot; [done| |done]. by rewrite Hrules. }
    split; [|split].
    + split; [|done]. intros r' x. simpl. rewrite Hrules. intros Hr' Hx.
      destruct (decide (k_attr (r_conclusion r) = k_attr (r_conclusion r')))
        as [Heq|Hne].
      * rewrite <- Heq, lookup_insert_eq in Hx. injection Hx as <-.
        by apply Hagree.
      * rewrite lookup_insert_ne in Hx by done. apply (Hfa r' x); [|done].
        by rewrite Hrules.
    + apply Nat.lt_le_incl.
      apply (filter_length_lt _ _ _ r); [|by apply list_elem_of_In| |].
      * intros r' Hp. apply negb_true_iff, bool_decide_eq_false in Hp.
        apply negb_true_iff, bool_decide_eq_false. intros Hs. apply Hp.
        cbn [fst snd facts assert_fact].
        destruct (decide (k_attr (r_conclusion r) = k_attr (r_conclusion r')))
          as [<-|Hne]; [by rewrite lookup_insert_eq|].
        by rewrite lookup_insert_ne.
      * apply negb_true_iff, bool_decide_eq_false. rewrite Hnone. by intros [? ?].
      * apply negb_false_iff, bool_decide_eq_true.
        cbn [fst snd facts assert_fact]. by rewrite lookup_insert_eq.
    + intros _. right.
      apply (filter_length_lt _ _ _ r); [|by apply list_elem_of_In| |].
      * intros r' Hp. apply negb_true_iff, bool_decide_eq_false in Hp.
        apply negb_true_iff, bool_decide_eq_false. intros Hs. apply Hp.
        cbn [fst snd facts assert_fact].
        destruct (decide (k_attr (r_conclusion r) = k_attr (r_conclusion r')))
          as [<-|Hne]; [by rewrite lookup_insert_eq|].
        by rewrite lookup_insert_ne.
      * apply negb_true_iff, bool_decide_eq_false. rewrite Hnone. by intros [? ?].
      * apply negb_false_iff, bool_decide_eq_true.
        cbn [fst snd facts assert_fact]. by rewrite lookup_insert_eq.
Qed.

Lemma fold_fire_agreeing it l st :
  (∀ r, r ∈ l → r ∈ rules kb0) → agreeing (fst (fst st)) →
  agreeing (fst (fst (fold_left (fire it) l st)))
  ∧ (open_rules kb0 (fst (fst (fold_left (fire it) l st)))
     ≤ open_rules kb0 (fst (fst st)))%nat
  ∧ (snd (fold_left (fire it) l st) = true →
     snd st = true
     ∨ (open_rules kb0 (fst (fst (fold_left (fire it) l st)))
        < open_rules kb0 (fst (fst st)))%nat).
Proof.
  revert st. induction l as [|r l IH]; intros st Hl Hst; cbn [fold_left].
  - split; [done|]. split; [lia|]. intros ->. by left.
  - destruct (fire_rule_agreeing it st r) as (H1 & Hle1 & Hflag1);
      [apply Hl; by left|done|].
    destruct (IH (fire it st r)) as (H2 & Hle2 & Hflag2);
      [intros r' Hr'; apply Hl; by right|done|].
    split; [done|]. split; [lia|].
    intros Hf. destruct (Hflag2 Hf) as [Ht|Hlt]; [|right; lia].
    destruct (Hflag1 Ht) as [?|Hlt]; [by left|right; lia].
Qed.

Lemma forward_while_reaches left it st :
  agreeing (fst (fst st)) →
  (snd st = true → (open_rules kb0 (fst (fst st)) < left)%nat) →
  snd (f_while left it st) = false.
Proof.
  revert it st. induction left as [|left IH]; intros it [[kb inferred] new_any] Hst Hm;
    simpl in *.
  - destruct new_any; [|done]. specialize (Hm eq_refl). lia.
  - destruct new_any; [|done]. specialize (Hm eq_refl).
    destruct (fold_fire_agreeing (S it) (rules kb) (kb, inferred, false))
      as (H1 & Hle & Hflag).
    { intros r. destruct Hst as [_ Hr]. by rewrite Hr. }
    { done. }
    apply IH; [exact H1|].
    intros Ht. destruct (Hflag Ht) as [?|Hlt]; [done|]. simpl in Hlt.
    unfold forward_round. lia.
Qed.

End AgreeingRules.

Lemma open_rules_le kb0 kb : (open_rules kb0 kb ≤ length (rules kb0))%nat.
Proof. unfold open_rules. apply List.filter_length_le. Qed.

(** X11: when the rules that conclude one attribute conclude values that
    pass for one another, and the facts already known pass for the values
    the rules conclude for them, a run of [forward_chain] with a cap above
    the number of rules ends on a round that asserted nothing, and a second
    run returns the empty list and leaves the store as it is. *)
Theorem forward_chain_agreeing_rules (kb : KnowledgeBase)
    (max_iterations max_iterations' : Z) :
  rules_agree kb → facts_agree kb →
  (Z.of_nat (length (rules kb)) < max_iterations)%Z →
  snd (f_state kb max_iterations) = false
  ∧ f_chain (fst (f_chain kb max_iterations)) max_iterations'
    = (fst (f_chain kb max_iterations), []).
Proof.
  intros Hra Hfa Hcap.
  assert (snd (f_state kb max_iterations) = false) as Hflag.
  { unfold forward_chain_state.
    apply (forward_while_reaches kb Hra); [done|].
    intros _. simpl. pose proof (open_rules_le kb kb). lia. }
  split; [done|].
  apply forward_chain_quiescent.
  pose proof (forward_while_settled (Z.to_nat max_iterations) 0 (kb, [], true)) as Hs.
  unfold forward_chain, forward_chain_state in *.
  apply Hs; [discriminate|done].
Qed.

(** ** Invariants of a backward proof *)

Section BackwardInvariant.

Variable P : KnowledgeBase → Prop.
Hypothesis P_assert : ∀ kb a v rid used,
  P kb →
  P (assert_fact kb a v
       (mkJustification (mkFact a v) (Some rid) used "backward")).

Section InvariantLoops.

Variable prove : KnowledgeBase → string → value → visited_set → bw_state.
Hypothesis prove_inv : ∀ kb a v vis, P kb → P (snd (fst (prove kb a v vis))).

Lemma prove_premises_inv conds kb vis used :
  P kb → P (snd (fst (fst (premises_loop prove conds kb vis used)))).
Proof.
  revert kb vis used. induction conds as [|c rest IH]; intros kb vis used HP;
    cbn [prove_premises]; [done|].
  destruct (facts kb !! c_attr c) as [x|].
  - destruct (negb _); [done|by apply IH].
  - destruct (op_in (c_op c) eq_ops); [|done].
    pose proof (prove_inv kb (c_attr c) (c_value c) vis HP) as Hp.
    destruct (prove kb (c_attr c) (c_value c) vis) as [[res1 kb1] vis1].
    simpl in Hp. destruct res1 as [[|]|e|]; try done. by apply IH.
Qed.

Lemma try_candidates_inv goal_attr goal_val cands kb vis :
  P kb → P (snd (fst (candidates_loop prove goal_attr goal_val cands kb vis))).
Proof.
  revert kb vis. induction cands as [|r rest IH]; intros kb vis HP;
    cbn [try_candidates]; [done|].
  pose proof (prove_premises_inv (r_conditions r) kb vis [] HP) as Hp.
  destruct (premises_loop prove (r_conditions r) kb vis [])
    as [[[res1 kb1] vis1] used1]. simpl in Hp.
  destruct res1 as [[|]|e|]; try done.
  - simpl. by apply P_assert.
  - by apply IH.
Qed.

End InvariantLoops.

Lemma backward_prove_rec_inv fuel kb a v vis :
  P kb → P (snd (fst (bw_rec fuel kb a v vis))).
Proof.
  revert kb a v vis. induction fuel as [|fuel IH]; intros kb a v vis HP; [done|].
  rewrite backward_prove_rec_S.
  destruct (negb (hashable v)); [done|].
  destruct (visited_mem (a, v) vis); [done|].
  destruct (has_fact kb a v); [done|].
  apply try_candidates_inv; [|done]. intros. by apply IH.
Qed.

Lemma backward_prove_inv kb a v : P kb → P (snd (bw_prove kb a v)).
Proof. unfold backward_prove. apply backward_prove_rec_inv. Qed.

End BackwardInvariant.

(** ** Outcomes of a backward proof *)

Lemma try_candidates_true prove a v cands kb vis kb' vis' :
  candidates_loop prove a v cands kb vis = (Ret true, kb', vis') →
  ∃ r used kb1,
    r ∈ cands
    ∧ kb' = assert_fact kb1 a v
              (mkJustification (mkFact a v) (Some (r_id r)) used "backward").
Proof.
  revert kb vis. induction cands as [|r rest IH]; intros kb vis;
    cbn [try_candidates]; [discriminate|].
  destruct (premises_loop prove (r_conditions r) kb vis [])
    as [[[res1 kb1] vis1] used1].
  destruct res1 as [[|]|e|]; try discriminate.
  - intros [= <- <-]. exists r, used1, kb1. split; [by left|done].
  - intros Hrest. destruct (IH _ _ Hrest) as (r' & used & kb2 & Hr' & ->).
    exists r', used, kb2. split; [by right|done].
Qed.

Lemma try_candidates_blocked prove a v cands kb vis :
  (∀ r, r ∈ cands → blocked_candidate kb r = true) →
  candidates_loop prove a v cands kb vis = (Ret false, kb, vis).
Proof.
  induction cands as [|r rest IH]; intros Hb; cbn [try_candidates]; [done|].
  assert (premises_loop prove (r_conditions r) kb vis []
          = (Ret false, kb, vis, [])) as ->.
  { specialize (Hb r (list_elem_of_here _ _)). unfold blocked_candidate in Hb.
    destruct (r_conditions r) as [|c cs]; [discriminate|].
    cbn [prove_premises]. unfold fails_at_once in Hb.
    destruct (facts kb !! c_attr c); [by rewrite Hb|].
    apply negb_true_iff in Hb. by rewrite Hb. }
  apply IH. intros r' Hr'. apply Hb. by right.
Qed.

Lemma backward_prove_top kb a v :
  bw_prove kb a v =
  if negb (hashable v) then (Raise TypeError, kb)
  else if has_fact kb a v then (Ret true, kb)
  else fst (candidates_loop (bw_rec (S (length (subgoal_pairs kb)))) a v
              (List.filter (is_candidate a v) (rules kb)) kb [(a, v)]).
Proof.
  unfold backward_prove, fuel_bound. cbn [Nat.add].
  rewrite backward_prove_rec_S. cbn [visited_mem existsb].
  destruct (negb (hashable v)); [done|]. by destruct (has_fact kb a v).
Qed.

(** ** What a failed backward proof leaves *)

Lemma SFeqb_sym_true f g : SFeqb f g = true → SFeqb g f = true.
Proof.
  intros H.
  assert (f = g ∨ (∃ s s', f = S754_zero s ∧ g = S754_zero s'))
    as [->|(s & s' & -> & ->)]; [|exact H|reflexivity].
  unfold SFeqb, SFcompare in H.
  destruct f as [[]|[]| |[] m e], g as [[]|[]| |[] m' e']; simpl in H;
    try discriminate H; try (left; reflexivity); try (right; eauto; fail);
    destruct (Z.compare e e') eqn:He; simpl in H; try discriminate H;
    apply Z.compare_eq in He; subst e';
    destruct (Pos.compare_cont Eq m m') eqn:Hm; simpl in H; try discriminate H;
    apply Pos.compare_eq in Hm; subst m'; by left.
Qed.

Lemma SFeqb_sym f g : SFeqb f g = SFeqb g f.
Proof.
  destruct (SFeqb f g) eqn:H1, (SFeqb g f) eqn:H2; try done.
  - apply SFeqb_sym_true in H1. congruence.
  - apply SFeqb_sym_true in H2. congruence.
Qed.

Lemma scalar_eq_sym a b : scalar_eq a b = scalar_eq b a.
Proof.
  destruct a, b; simpl; try done;
    first [apply SFeqb_sym | apply Z.eqb_sym | apply String.eqb_sym | idtac].
Qed.

Lemma py_eq_sym a b : py_eq a b = py_eq b a.
Proof.
  revert b. induction a as [|t|n|f|s|l IH] using value_ind_list; intros b;
    try (destruct b; first [by apply scalar_eq_sym | done]).
  destruct b as [| | | | |lb]; try done. cbn [py_eq].
  revert lb. induction IH as [|x xs Hx _ IHxs]; intros [|y ys]; try done.
  cbn [all2]. by rewrite Hx, IHxs.
Qed.

Lemma visited_mem_incl vis vis' k :
  visited_incl vis vis' → visited_mem k vis' = false → visited_mem k vis = false.
Proof.
  intros Hincl Hk. destruct (visited_mem k vis) eqn:Hm; [|done].
  apply Hincl in Hm. congruence.
Qed.

Lemma written_backward_kept kb kb' x w :
  rules kb' = rules kb → unchanged_at kb kb' x →
  written_backward kb x w → written_backward kb' x w.
Proof.
  intros Hr [Hf Hj] (r & used & Hin & Hc & Hfact & Hjust & Hmeet).
  exists r, used. rewrite Hr, Hf, Hj. done.
Qed.

Lemma bw_changes_refl (ok : string → value → Prop) kb : bw_changes ok kb kb.
Proof. intros x. by left. Qed.

Lemma bw_changes_trans (ok1 ok2 ok : string → value → Prop) kb0 kb1 kb2 :
  rules kb2 = rules kb1 →
  (∀ x w, ok1 x w → ok x w) → (∀ x w, ok2 x w → ok x w) →
  bw_changes ok1 kb0 kb1 → bw_changes ok2 kb1 kb2 → bw_changes ok kb0 kb2.
Proof.
  intros Hr H1 H2 Hc1 Hc2 x.
  destruct (Hc2 x) as [Hu2|(w & Hw & Hok)]; [|right; exists w; auto].
  destruct (Hc1 x) as [[Hf1 Hj1]|(w & Hw & Hok)].
  - left. destruct Hu2 as [Hf2 Hj2]. split; congruence.
  - right. exists w. split; [|auto]. by apply (written_backward_kept kb1).
Qed.

Lemma has_fact_written kb a v r :
  is_candidate a v r = true → facts kb !! a = Some v → has_fact kb a v = true.
Proof.
  unfold is_candidate, has_fact. intros [_ Hv]%andb_true_iff ->.
  destruct v; try done; by apply (py_eq_true_r _ _ Hv).
Qed.

Section BackwardTrace.

Variable prove : KnowledgeBase → string → value → visited_set → bw_state.
Hypothesis prove_post : ∀ kb a v vis, bw_post (Some a) kb vis (prove kb a v vis).
Hypothesis prove_trace : ∀ kb a v vis,
  bw_changes (λ x w, visited_mem (x, w) vis = false) kb
    (snd (fst (prove kb a v vis)))
  ∧ (fst (fst (prove kb a v vis)) = Ret true →
     has_fact (snd (fst (prove kb a v vis))) a v = true).

Lemma prove_premises_trace conds kb vis used :
  bw_changes (λ x w, visited_mem (x, w) vis = false) kb
    (snd (fst (fst (premises_loop prove conds kb vis used))))
  ∧ (fst (fst (fst (premises_loop prove conds kb vis used))) = Ret true →
     ∃ news, snd (premises_loop prove conds kb vis used) = (used ++ news)%list
             ∧ Forall2 premise_meets conds news).
Proof.
  revert kb vis used. induction conds as [|c rest IH]; intros kb vis used;
    cbn [prove_premises].
  - split; [apply bw_changes_refl|]. intros _. exists []. by rewrite app_nil_r.
  - destruct (facts kb !! c_attr c) as [x|] eqn:Hx.
    + destruct (cmp x (c_op c) (c_value c)) eqn:Hcmp; cbn [negb];
        [|split; [apply bw_changes_refl|discriminate]].
      destruct (IH kb vis (used ++ [mkFact (c_attr c) x])%list) as [Hch Hused].
      split; [exact Hch|]. intros Hres.
      destruct (Hused Hres) as (news & -> & Hmeet).
      exists (mkFact (c_attr c) x :: news). split; [by rewrite <- app_assoc|].
      constructor; [|done]. split; [done|]. by left.
    + destruct (op_in (c_op c) eq_ops) eqn:Hop;
        [|split; [apply bw_changes_refl|discriminate]].
      pose proof (prove_post kb (c_attr c) (c_value c) vis) as [R1 V1 _ _ _].
      destruct (prove_trace kb (c_attr c) (c_value c) vis) as [Hch1 Hhas].
      destruct (prove kb (c_attr c) (c_value c) vis) as [[res1 kb1] vis1].
      cbn [fst snd] in *.
      destruct res1 as [[|]|e|]; cbn [fst snd];
        try (split; [exact Hch1|discriminate]).
      pose proof (prove_premises_post prove prove_post rest kb1 vis1
                    (used ++ [mkFact (c_attr c) (default (c_value c)
                                                   (facts kb1 !! c_attr c))])%list)
        as [R2 _ _ _ _].
      destruct (IH kb1 vis1
                  (used ++ [mkFact (c_attr c) (default (c_value c)
                                                 (facts kb1 !! c_attr c))])%list)
        as [Hch2 Hused].
      split.
      * eapply (bw_changes_trans _ _ _ kb kb1); [exact R2| | |exact Hch1|exact Hch2].
        -- by intros ? ? ?.
        -- intros y w Hw. by apply (visited_mem_incl vis vis1).
      * intros Hres. destruct (Hused Hres) as (news & -> & Hmeet).
        eexists (_ :: news). split; [by rewrite <- app_assoc|].
        constructor; [|done]. split; [done|]. right. split; [done|].
        specialize (Hhas eq_refl). rewrite has_fact_accepts in Hhas.
        simpl. by destruct (facts kb1 !! c_attr c).
Qed.

Lemma try_candidates_trace goal_attr goal_val cands kb vis :
  (∀ r, r ∈ cands → r ∈ rules kb ∧ is_candidate goal_attr goal_val r = true) →
  bw_changes
    (λ x w, visited_mem (x, w) vis = false
            ∨ (fst (fst (candidates_loop prove goal_attr goal_val cands kb vis))
               = Ret true ∧ x = goal_attr ∧ w = goal_val))
    kb (snd (fst (candidates_loop prove goal_attr goal_val cands kb vis)))
  ∧ (fst (fst (candidates_loop prove goal_attr goal_val cands kb vis)) = Ret true →
     has_fact (snd (fst (candidates_loop prove goal_attr goal_val cands kb vis)))
       goal_attr goal_val = true).
Proof.
  revert kb vis. induction cands as [|r rest IH]; intros kb vis Hc;
    cbn [try_candidates].
  - split; [apply bw_changes_refl|discriminate].
  - destruct (Hc r) as [Hin Hcand]; [by left|].
    pose proof (prove_premises_post prove prove_post (r_conditions r) kb vis [])
      as [R1 V1 _ _ _].
    destruct (prove_premises_trace (r_conditions r) kb vis []) as [Hch1 Hused].
    destruct (premises_loop prove (r_conditions r) kb vis [])
      as [[[res1 kb1] vis1] used1].
    cbn [fst snd] in *.
    destruct res1 as [[|]|e|]; cbn [fst snd].
    + destruct (Hused eq_refl) as (news & -> & Hmeet). simpl in Hmeet.
      split.
      * intros x. destruct (decide (goal_attr = x)) as [<-|Hne].
        -- right. exists goal_val. split; [|by right].
           exists r, news. simpl. rewrite !lookup_insert_eq, R1. done.
        -- destruct (Hch1 x) as [[Hf Hj]|(w & Hw & Hok)].
           ++ left. split; simpl; by rewrite lookup_insert_ne.
           ++ right. exists w. split; [|by left].
              apply (written_backward_kept kb1); [done| |done].
              split; simpl; by rewrite lookup_insert_ne.
      * intros _. apply (has_fact_written _ _ _ r); [done|].
        simpl. by rewrite lookup_insert_eq.
    + pose proof (try_candidates_post prove prove_post goal_attr goal_val rest kb1 vis1)
        as [R2 _ _ _ _].
      destruct (IH kb1 vis1) as [Hch2 Hhas].
      { intros r' Hr'. rewrite R1. apply Hc. by right. }
      split; [|exact Hhas].
      eapply (bw_changes_trans _ _ _ kb kb1); [exact R2| | |exact Hch1|exact Hch2].
      * intros y w Hw. by left.
      * intros y w [Hw|Hw]; [left; by apply (visited_mem_incl vis vis1)|by right].
    + split; [|discriminate]. intros x.
      destruct (Hch1 x) as [?|(w & Hw & Hok)]; [by left|].
      right. exists w. split; [done|by left].
    + split; [|discriminate]. intros x.
      destruct (Hch1 x) as [?|(w & Hw & Hok)]; [by left|].
      right. exists w. split; [done|by left].
Qed.

End BackwardTrace.

Lemma backward_prove_rec_trace fuel kb a v vis :
  bw_changes (λ x w, visited_mem (x, w) vis = false) kb
    (snd (fst (bw_rec fuel kb a v vis)))
  ∧ (fst (fst (bw_rec fuel kb a v vis)) = Ret true →
     has_fact (snd (fst (bw_rec fuel kb a v vis))) a v = true).
Proof.
  revert kb a v vis. induction fuel as [|fuel IH]; intros kb a v vis;
    [split; [apply bw_changes_refl|discriminate]|].
  rewrite backward_prove_rec_S.
  destruct (negb (hashable v)); [split; [apply bw_changes_refl|discriminate]|].
  destruct (visited_mem (a, v) vis) eqn:Hvis;
    [split; [apply bw_changes_refl|discriminate]|].
  destruct (has_fact kb a v) eqn:Hhas; [split; [apply bw_changes_refl|done]|].
  destruct (try_candidates_trace (bw_rec fuel)
              (λ kb a v vis, backward_prove_rec_post fuel kb a v vis) IH
              a v (List.filter (is_candidate a v) (rules kb)) kb ((a, v) :: vis))
    as [Hch Hok].
  { intros r [Hr Hc]%list_elem_of_In%filter_In. split; [|done].
    by apply list_elem_of_In. }
  split; [|exact Hok].
  intros x. destruct (Hch x) as [?|(w & Hw & [Hnew|(_ & -> & ->)])]; [by left| |].
  - right. exists w. split; [done|].
    apply (visited_mem_incl vis ((a, v) :: vis)); [apply visited_incl_cons|done].
  - right. by exists v.
Qed.

(** C2 (amended): when [backward_prove] returns failure, the rules and
    every fact and justification that was present before the call are
    exactly as they were.  An attribute that had no fact is as it was, or
    holds a sub-goal proved on the way: a value that a rule of the store
    concludes, with a justification that names the rule, carries the note
    "backward" and has one premise per condition of the rule, each meeting
    its condition.  The goal itself is not established: [has_fact] is still
    false of it, except for a goal value [None] on an attribute that had no
    fact, which a proved sub-goal on that attribute makes present. *)
Theorem backward_prove_failure_keeps_known (kb : KnowledgeBase) (a : string)
    (v : value) (kb' : KnowledgeBase) :
  bw_prove kb a v = (Ret false, kb') →
  rules kb' = rules kb
  ∧ (∀ x, is_Some (facts kb !! x) → unchanged_at kb kb' x)
  ∧ (∀ x, unchanged_at kb kb' x
          ∨ (facts kb !! x = None ∧ ∃ w, written_backward kb' x w))
  ∧ (has_fact kb' a v = false
     ∨ (v = VNone ∧ facts kb !! a = None ∧ ∃ w, written_backward kb' a w)).
Proof.
  intros Hrun.
  assert (rules kb' = rules kb
          ∧ ∀ x, is_Some (facts kb !! x) → unchanged_at kb kb' x) as [HR HU].
  { unfold backward_prove in Hrun.
    destruct (backward_prove_rec_post (fuel_bound kb) kb a v []) as [R _ _ U _].
    destruct (bw_rec (fuel_bound kb) kb a v []) as [[res kb1] vis1].
    simpl in *. injection Hrun as -> ->. split; [done|].
    intros x Hx. by destruct (U x Hx) as [[? _]|?]. }
  rewrite backward_prove_top in Hrun.
  destruct (negb (hashable v)); [discriminate|].
  destruct (has_fact kb a v) eqn:Hhas; [discriminate|].
  destruct (try_candidates_trace (bw_rec (S (length (subgoal_pairs kb))))
              (λ kb a v vis, backward_prove_rec_post _ kb a v vis)
              (backward_prove_rec_trace _)
              a v (List.filter (is_candidate a v) (rules kb)) kb [(a, v)])
    as [Hch _].
  { intros r [Hr Hc]%list_elem_of_In%filter_In. split; [|done].
    by apply list_elem_of_In. }
  destruct (candidates_loop _ a v _ kb [(a, v)]) as [[res kb1] vis1].
  simpl in Hrun. injection Hrun as -> ->. cbn [fst snd] in Hch.
  assert (∀ x, unchanged_at kb kb' x
               ∨ (facts kb !! x = None
                  ∧ ∃ w, written_backward kb' x w
                         ∧ visited_mem (x, w) [(a, v)] = false)) as Hadded.
  { intros x. destruct (facts kb !! x) as [y|] eqn:Hx.
    - left. apply HU. by rewrite Hx.
    - destruct (Hch x) as [?|(w & Hw & [Hnew|(Hno & _)])];
        [by left| |discriminate].
      right. split; [done|]. by exists w. }
  split; [done|]. split; [done|]. split.
  - intros x. destruct (Hadded x) as [?|(Hn & w & Hw & _)]; [by left|].
    right. split; [done|]. by exists w.
  - destruct (Hadded a) as [[Hf _]|(Hn & w & Hw & Hnew)].
    + left. unfold has_fact in *. by rewrite Hf.
    + assert (py_eq w v = false) as Hwv.
      { unfold visited_mem in Hnew. cbn [existsb] in Hnew.
        apply orb_false_iff in Hnew as [Hk _]. unfold key_eq in Hk.
        cbn [fst snd] in Hk. rewrite String.eqb_refl in Hk.
        by rewrite py_eq_sym. }
      pose proof Hw as (r & used & _ & _ & Hfact & _).
      destruct v; try (left; unfold has_fact; by rewrite Hfact).
      right. split; [done|]. split; [done|]. by exists w.
Qed.

(** X12: when [backward_prove] returns success the goal is a fact that
    [has_fact] finds: either it was one already and the store is as it was,
    or a rule of the store whose conclusion matches the goal was applied,
    the goal value was written as the fact, and its justification names that
    rule with the note "backward". *)
Theorem backward_prove_success (kb : KnowledgeBase) (a : string) (v : value)
    (kb' : KnowledgeBase) :
  bw_prove kb a v = (Ret true, kb') →
  has_fact kb' a v = true
  ∧ ((has_fact kb a v = true ∧ kb' = kb)
     ∨ (has_fact kb a v = false
        ∧ facts kb' !! a = Some v
        ∧ ∃ r used,
            r ∈ rules kb ∧ is_candidate a v r = true
            ∧ justifications kb' !! a
              = Some (mkJustification (mkFact a v) (Some (r_id r)) used "backward"))).
Proof.
  rewrite backward_prove_top.
  destruct (negb (hashable v)); [discriminate|].
  destruct (has_fact kb a v) eqn:Hf.
  - intros [= <-]. split; [done|]. by left.
  - destruct (candidates_loop _ a v _ kb [(a, v)]) as [[res kb1] vis1] eqn:Hc.
    simpl. intros [= -> ->].
    destruct (try_candidates_true _ _ _ _ _ _ _ _ Hc) as (r & used & kb2 & Hr & ->).
    apply list_elem_of_In, filter_In in Hr as [Hr Hcand].
    assert (has_fact (assert_fact kb2 a v
              (mkJustification (mkFact a v) (Some (r_id r)) used "backward")) a v
            = true) as Hhas.
    { unfold has_fact, assert_fact. simpl. rewrite lookup_insert_eq.
      unfold is_candidate in Hcand. apply andb_true_iff in Hcand as [_ Hv].
      apply py_eq_true_r in Hv. by destruct v. }
    split; [done|]. right. split; [done|].
    split; [simpl; by rewrite lookup_insert_eq|].
    exists r, used. split; [by apply list_elem_of_In|]. split; [done|].
    simpl. by rewrite lookup_insert_eq.
Qed.

(** X13: the outcomes [backward_prove] reaches without trying a rule: a
    goal whose value is a list raises [TypeError] (the pair cannot be put in
    the visited set); a goal that [has_fact] finds succeeds; a goal that is
    no fact and that no rule concludes fails.  The store is unchanged in the
    three cases. *)
Theorem backward_prove_immediate (kb : KnowledgeBase) (a : string) (v : value) :
  (∀ l, bw_prove kb a (VList l) = (Raise TypeError, kb))
  ∧ (hashable v = true → has_fact kb a v = true → bw_prove kb a v = (Ret true, kb))
  ∧ (hashable v = true → has_fact kb a v = false →
     (∀ r, r ∈ rules kb → is_candidate a v r = false) →
     bw_prove kb a v = (Ret false, kb)).
Proof.
  split; [|split].
  - intros l. by rewrite backward_prove_top.
  - intros Hh Hf. by rewrite backward_prove_top, Hh, Hf.
  - intros Hh Hf Hno. rewrite backward_prove_top, Hh, Hf. simpl.
    assert (List.filter (is_candidate a v) (rules kb) = []) as ->; [|done].
    induction (rules kb) as [|r l IH]; simpl; [done|].
    rewrite Hno by (by left). apply IH. intros r' Hr'. apply Hno. by right.
Qed.

(** X14: whatever its outcome, [backward_prove] removes no fact, and the
    fact and justification of every attribute other than the goal that had a
    fact before are unchanged. *)
Theorem backward_prove_frame (kb : KnowledgeBase) (a : string) (v : value) :
  (∀ x, is_Some (facts kb !! x) → is_Some (facts (snd (bw_prove kb a v)) !! x))
  ∧ (∀ x, is_Some (facts kb !! x) → x ≠ a →
       unchanged_at kb (snd (bw_prove kb a v)) x).
Proof.
  unfold backward_prove.
  destruct (backward_prove_rec_post (fuel_bound kb) kb a v []) as [_ _ K U _].
  split; [exact K|].
  intros x Hx Hne. destruct (U x Hx) as [[_ [= <-]]|?]; done.
Qed.

(** X15: backward chaining does not guess: when the goal is no fact and the
    first condition of every rule that concludes it stops the rule on the
    spot (its attribute has a fact that fails the test, or has no fact and
    the operator is not an equality), the proof fails and the store is
    unchanged. *)
Theorem backward_prove_blocked (kb : KnowledgeBase) (a : string) (v : value) :
  hashable v = true → has_fact kb a v = false →
  (∀ r, r ∈ rules kb → is_candidate a v r = true →
        blocked_candidate kb r = true) →
  bw_prove kb a v = (Ret false, kb).
Proof.
  intros Hh Hf Hb. rewrite backward_prove_top, Hh, Hf. simpl.
  rewrite try_candidates_blocked; [done|].
  intros r [Hr Hc]%list_elem_of_In%filter_In. apply Hb; [|done].
  by apply list_elem_of_In.
Qed.

(** ** Invariants of a backward proof that speak of the applied rule *)

Section BackwardRuleInvariant.

Variable kb0 : KnowledgeBase.
Variable P : KnowledgeBase → Prop.
Hypothesis P_assert : ∀ kb a v r used,
  P kb → rules kb = rules kb0 → r ∈ rules kb0 → is_candidate a v r = true →
  P (assert_fact kb a v
       (mkJustification (mkFact a v) (Some (r_id r)) used "backward")).

Abbreviation bw_rinv kb := (P kb ∧ rules kb = rules kb0).

Section RuleInvariantLoops.

Variable prove : KnowledgeBase → string → value → visited_set → bw_state.
Hypothesis prove_rinv : ∀ kb a v vis,
  bw_rinv kb → bw_rinv (snd (fst (prove kb a v vis))).

Lemma prove_premises_rinv conds kb vis used :
  bw_rinv kb → bw_rinv (snd (fst (fst (premises_loop prove conds kb vis used)))).
Proof.
  revert kb vis used. induction conds as [|c rest IH]; intros kb vis used HP;
    cbn [prove_premises]; [done|].
  destruct (facts kb !! c_attr c) as [x|].
  - destruct (negb _); [done|by apply IH].
  - destruct (op_in (c_op c) eq_ops); [|done].
    pose proof (prove_rinv kb (c_attr c) (c_value c) vis HP) as Hp.
    destruct (prove kb (c_attr c) (c_value c) vis) as [[res1 kb1] vis1].
    simpl in Hp. destruct res1 as [[|]|e|]; try done. by apply IH.
Qed.

Lemma try_candidates_rinv goal_attr goal_val cands kb vis :
  (∀ r, r ∈ cands → r ∈ rules kb0 ∧ is_candidate goal_attr goal_val r = true) →
  bw_rinv kb →
  bw_rinv (snd (fst (candidates_loop prove goal_attr goal_val cands kb vis))).
Proof.
  revert kb vis. induction cands as [|r rest IH]; intros kb vis Hc HP;
    cbn [try_candidates]; [done|].
  pose proof (prove_premises_rinv (r_conditions r) kb vis [] HP) as Hp.
  destruct (premises_loop prove (r_conditions r) kb vis [])
    as [[[res1 kb1] vis1] used1]. simpl in Hp.
  destruct res1 as [[|]|e|]; try done.
  - simpl. destruct Hp as [Hp Hr]. destruct (Hc r) as [Hin Hcand]; [by left|].
    split; [by apply P_assert|done].
  - apply IH; [|done]. intros r' Hr'. apply Hc. by right.
Qed.

End RuleInvariantLoops.

Lemma backward_prove_rec_rinv fuel kb a v vis :
  bw_rinv kb → bw_rinv (snd (fst (bw_rec fuel kb a v vis))).
Proof.
  revert kb a v vis. induction fuel as [|fuel IH]; intros kb a v vis HP; [done|].
  rewrite backward_prove_rec_S.
  destruct (negb (hashable v)); [done|].
  destruct (visited_mem (a, v) vis); [done|].
  destruct (has_fact kb a v); [done|].
  apply try_candidates_rinv; [intros; by apply IH| |done].
  intros r [Hr Hc]%list_elem_of_In%filter_In. split; [|done].
  destruct HP as [_ <-]. by apply list_elem_of_In.
Qed.

Lemma backward_prove_rinv a v : P kb0 → P (snd (bw_prove kb0 a v)).
Proof.
  intros HP. unfold backward_prove. by apply backward_prove_rec_rinv.
Qed.

End BackwardRuleInvariant.

(** ** Justifications describe the facts *)

Lemma describe_assert kb a v j :
  justifications_describe_facts kb →
  j_fact j = mkFact a v →
  (∀ rid, j_rule_id j = Some rid →
     ∃ r, r ∈ rules kb ∧ r_id r = rid ∧ derives r (mkFact a v)) →
  justifications_describe_facts (assert_fact kb a v j).
Proof.
  intros Hd Hj Hrule a' j'. unfold assert_fact. simpl.
  destruct (decide (a = a')) as [<-|Hne].
  - rewrite !lookup_insert_eq. intros [= <-]. split; [by exists v|].
    rewrite Hj. apply Hrule.
  - rewrite !lookup_insert_ne by done. apply Hd.
Qed.

Lemma describe_more_rules kb kb' :
  facts kb' = facts kb → justifications kb' = justifications kb →
  (∀ r, r ∈ rules kb → r ∈ rules kb') →
  justifications_describe_facts kb → justifications_describe_facts kb'.
Proof.
  intros Hf Hj Hr Hd a j. rewrite Hf, Hj. intros Ha.
  destruct (Hd a j Ha) as [Hfact Hrule]. split; [done|].
  intros rid Hrid. destruct (Hrule rid Hrid) as (r & Hin & ? & ?).
  exists r. auto.
Qed.

Lemma is_candidate_derives a v r :
  is_candidate a v r = true → derives r (mkFact a v).
Proof.
  unfold is_candidate, derives. intros [Ha Hv]%andb_true_iff.
  apply String.eqb_eq in Ha. simpl. auto.
Qed.

Lemma describe_base_only kb :
  (∀ a j, justifications kb !! a = Some j →
     j_rule_id j = None ∧ ∃ v, facts kb !! a = Some v ∧ j_fact j = mkFact a v) →
  justifications_describe_facts kb.
Proof.
  intros Hb a j Ha. destruct (Hb a j Ha) as [Hnone Hfact]. split; [done|].
  intros rid. by rewrite Hnone.
Qed.

Lemma load_json_base_only kb0 obj a j :
  justifications (load_json kb0 obj) !! a = Some j →
  j_rule_id j = None ∧ ∃ v, facts (load_json kb0 obj) !! a = Some v ∧ j_fact j = mkFact a v.
Proof.
  unfold load_json.
  set (kb1 := fold_left _ (o_facts obj) kb_init).
  destruct (rebuild_attributes_core (fold_left load_rule (o_rules obj) kb1))
    as (-> & _ & -> & _).
  destruct (fold_load_rule_facts (o_rules obj) kb1) as [-> ->].
  subst kb1. revert a j.
  assert (∀ l kb,
    (∀ a j, justifications kb !! a = Some j →
       j_rule_id j = None ∧ ∃ v, facts kb !! a = Some v ∧ j_fact j = mkFact a v) →
    ∀ a j,
      justifications
        (fold_left (fun k f => add_fact k (f_attr f) (f_value f) "base") l kb) !! a
      = Some j →
      j_rule_id j = None
      ∧ ∃ v, facts (fold_left (fun k f => add_fact k (f_attr f) (f_value f) "base")
                      l kb) !! a = Some v
             ∧ j_fact j = mkFact a v) as Hfold.
  { induction l as [|f l IH]; intros kb Hkb; simpl; [done|].
    apply IH. intros a j. unfold add_fact, assert_fact. simpl.
    destruct (decide (f_attr f = a)) as [<-|Hne].
    - rewrite !lookup_insert_eq. intros [= <-]. split; [done|]. by eexists.
    - rewrite !lookup_insert_ne by done. apply Hkb. }
  apply Hfold. intros a j. simpl. by rewrite lookup_empty.
Qed.

(** X16: every justification is about the current fact of its attribute,
    and one that names a rule names a rule of the store that yields that
    fact.  This holds after [load_json], and every operation but rule
    removal keeps it: [add_fact], fact removal, [add_rule], a rule import,
    [forward_chain] and [backward_prove]. *)
Theorem justifications_stay_descriptive (m : mutation) (kb : KnowledgeBase) :
  justifications_describe_facts kb →
  (∀ rid, m ≠ RemoveRule rid) →
  justifications_describe_facts (m_effect m kb).
Proof.
  intros Hd Hm.
  destruct m as [attr val|attr|conds concl text|rid|specs| |ga gv|obj]; cbn [effect].
  - apply describe_assert; [done|done|discriminate].
  - intros a j. unfold remove_fact. simpl.
    destruct (decide (attr = a)) as [<-|Hne].
    + by rewrite lookup_delete_eq.
    + rewrite !lookup_delete_ne by done. apply Hd.
  - destruct (add_rule_spec kb conds concl text) as (_ & Hr & _).
    unfold add_rule in *. simpl in *.
    set (r := mkRule _ _ _ _) in *. set (kb1 := mkKB _ _ _ _ _ _ _) in *.
    destruct (extract_attributes_core kb1 r) as (Hf & _ & Hj & _).
    apply (describe_more_rules kb); [done|done| |done].
    intros r' Hr'. rewrite Hr. apply elem_of_app. by left.
  - by destruct (Hm rid).
  - assert (∀ specs kb,
        facts (snd (add_rules kb specs)) = facts kb
        ∧ justifications (snd (add_rules kb specs)) = justifications kb
        ∧ ∀ r, r ∈ rules kb → r ∈ rules (snd (add_rules kb specs))) as Hall.
      { clear. induction specs as [|[[conds concl] text] rest IH]; intros kb;
          cbn [add_rules]; [done|].
        destruct (add_rule_spec kb conds concl text) as (_ & Hr & _).
        assert (facts (snd (add_rule kb conds concl text)) = facts kb
                ∧ justifications (snd (add_rule kb conds concl text))
                  = justifications kb) as [Hf Hj].
        { unfold add_rule. simpl.
          set (r := mkRule _ _ _ _). set (kb1 := mkKB _ _ _ _ _ _ _).
          by destruct (extract_attributes_core kb1 r) as (-> & _ & -> & _). }
        destruct (add_rule kb conds concl text) as [rid kb1]. simpl in *.
        destruct (IH kb1) as (Hf2 & Hj2 & Hr2).
        destruct (add_rules kb1 rest) as [rids kb2]. simpl in *.
        split; [congruence|]. split; [congruence|].
        intros r Hin. apply Hr2. rewrite Hr. apply elem_of_app. by left. }
    destruct (Hall specs kb) as (Hf & Hj & Hr).
    by apply (describe_more_rules kb).
  - apply (forward_chain_inv kb justifications_describe_facts); [|done].
    intros kb' r it used Hk Hrules Hr _ _.
    apply describe_assert; [done|done|].
    intros rid [= <-]. exists r. rewrite Hrules.
    split; [done|]. split; [done|]. split; [done|by left].
  - apply (backward_prove_rinv kb justifications_describe_facts); [|done].
    intros kb' a v r used Hk Hrules Hr Hc.
    apply describe_assert; [done|done|].
    intros rid [= <-]. exists r. rewrite Hrules.
    split; [done|]. split; [done|]. by apply is_candidate_derives.
  - apply describe_base_only. apply load_json_base_only.
Qed.

(** ** The rule side of the store *)

Lemma forward_chain_same_rule_side kb max_iterations :
  same_rule_side kb (fst (f_chain kb max_iterations)).
Proof.
  apply (forward_chain_inv kb (same_rule_side kb)); [|apply same_rule_side_refl].
  intros kb' r it used Hk _ _ _ _. by apply same_rule_side_assert.
Qed.

Lemma backward_prove_same_rule_side kb a v :
  same_rule_side kb (snd (bw_prove kb a v)).
Proof.
  apply (backward_prove_inv (same_rule_side kb)); [|apply same_rule_side_refl].
  intros kb' a' v' rid used Hk. by apply same_rule_side_assert.
Qed.

(** X10: neither [forward_chain] nor [backward_prove] touches the rule
    sequence, the id counter or the three catalogs. *)
Theorem chaining_keeps_rule_side (kb : KnowledgeBase) (max_iterations : Z)
    (a : string) (v : value) :
  same_rule_side kb (fst (f_chain kb max_iterations))
  ∧ same_rule_side kb (snd (bw_prove kb a v)).
Proof.
  split; [apply forward_chain_same_rule_side|apply backward_prove_same_rule_side].
Qed.

(** X1: the catalogs that [_rebuild_attributes] computes, the catalogs after
    [load_json] and the catalogs of a new store hold exactly the non-empty
    results of [strip()] on the attribute names of the rule conditions and
    of the rule conclusions, and [attributes] is the union of the two. *)
Theorem catalogs_rebuilt_from_rules (kb kb0 : KnowledgeBase) (obj : JsonKB) :
  catalogs_in_sync (_rebuild_attributes kb)
  ∧ catalogs_in_sync (load_json kb0 obj)
  ∧ catalogs_in_sync kb_init.
Proof.
  split; [apply rebuild_attributes_in_sync|].
  split; [apply rebuild_attributes_in_sync|apply kb_init_in_sync].
Qed.

(** X2: no operation lets the catalogs drift from the rules: when the
    catalogs hold exactly the names the rules mention, they still do after
    adding or removing a fact or a rule, importing rules, a forward run, a
    backward run or a load. *)
Theorem catalogs_follow_rules (m : mutation) (kb : KnowledgeBase) :
  catalogs_in_sync kb → catalogs_in_sync (m_effect m kb).
Proof.
  intros Hs. destruct m as [attr val|attr|conds concl text|rid|specs| |ga gv|obj];
    simpl.
  - eapply same_rule_side_in_sync; [|exact Hs]. by repeat split.
  - eapply same_rule_side_in_sync; [|exact Hs]. by repeat split.
  - by apply add_rule_in_sync.
  - by apply remove_rule_in_sync.
  - by apply add_rules_in_sync.
  - eapply same_rule_side_in_sync; [apply forward_chain_same_rule_side|exact Hs].
  - eapply same_rule_side_in_sync; [apply backward_prove_same_rule_side|exact Hs].
  - apply rebuild_attributes_in_sync.
Qed.

(** X3: rule ids stay pairwise distinct and below the counter under every
    operation (for a load, when the loaded ids are distinct), the counter
    never goes down except through a load, and [add_rule] hands out an id
    above the id of every rule in the store. *)
Theorem rule_ids_unique_increasing (m : mutation) (kb : KnowledgeBase) :
  ids_unique kb →
  (∀ obj, m = LoadJson obj → NoDup (map r_id (o_rules obj))) →
  ids_unique (m_effect m kb)
  ∧ ((∀ obj, m ≠ LoadJson obj) →
     (_next_rule_id kb ≤ _next_rule_id (m_effect m kb))%Z)
  ∧ (∀ conds concl text r,
       r ∈ rules kb → (r_id r < fst (add_rule kb conds concl text))%Z).
Proof.
  intros Hu Hload. split; [|split].
  - destruct m as [attr val|attr|conds concl text|rid|specs| |ga gv|obj]; simpl.
    + eapply ids_unique_same_rule_side; [|exact Hu]. by repeat split.
    + eapply ids_unique_same_rule_side; [|exact Hu]. by repeat split.
    + pose proof (add_rules_ids_unique [(conds, concl, text)] kb Hu) as H1.
      by rewrite add_rule_as_add_rules in H1.
    + by apply remove_rule_ids_unique.
    + by apply add_rules_ids_unique.
    + eapply ids_unique_same_rule_side; [apply forward_chain_same_rule_side|done].
    + eapply ids_unique_same_rule_side; [apply backward_prove_same_rule_side|done].
    + destruct (load_json_rules kb obj) as [Hr Hn]. split.
      * rewrite Hr. by apply Hload.
      * intros r. rewrite Hr. intros Hin. specialize (Hn r Hin). lia.
  - intros Hnl.
    destruct m as [attr val|attr|conds concl text|rid|specs| |ga gv|obj];
      cbn [effect]; try (simpl; lia).
    + destruct (add_rule_spec kb conds concl text) as (_ & _ & ->). lia.
    + destruct (remove_rule_spec kb rid) as (_ & _ & _ & _ & _ & _ & ->). lia.
    + destruct Hu as [_ Hb]. by destruct (add_rules_spec specs kb Hb) as (_ & ? & _).
    + destruct (forward_chain_same_rule_side kb 50) as (_ & -> & _). lia.
    + destruct (backward_prove_same_rule_side kb ga gv) as (_ & -> & _). lia.
    + by destruct (Hnl obj).
  - intros conds concl text r Hin.
    destruct (add_rule_spec kb conds concl text) as (-> & _).
    destruct Hu as [_ Hb]. by apply Hb.
Qed.

End EngineProps.

(** * The undo stack *)

Lemma in_dom_lookup {A} (m m' : gmap loc A) l :
  l ∈ dom m → m' !! l = m !! l → l ∈ dom m'.
Proof. rewrite !elem_of_dom. by intros Hl ->. Qed.

Lemma snapshot_view_extends h h' snap :
  heap_extends h h' → snap_alloc h snap →
  snapshot_view h' snap = snapshot_view h snap ∧ snap_alloc h' snap.
Proof.
  intros (Hd & Hj & Hl & Hs) [Sf Sr Sj Ss].
  pose proof (Ss (s_attributes snap) ltac:(by left)) as Sa.
  pose proof (Ss (s_cond_attrs snap) ltac:(by right; left)) as Sc.
  pose proof (Ss (s_concl_attrs snap) ltac:(by right; right)) as Sk.
  split.
  - unfold snapshot_view.
    rewrite (read_lookup _ _ _ (Hd _ Sf)), (read_lookup _ _ _ (Hj _ Sj)), (Hl _ Sr).
    by rewrite (read_lookup _ _ _ (Hs _ Sa)), (read_lookup _ _ _ (Hs _ Sc)),
               (read_lookup _ _ _ (Hs _ Sk)).
  - split.
    + by apply (in_dom_lookup (h_dicts h)), Hd.
    + by apply (in_dom_lookup (h_lists h)), Hl.
    + by apply (in_dom_lookup (h_jdicts h)), Hj.
    + intros l Hin. apply (in_dom_lookup (h_sets h)); [by apply Ss|].
      by apply Hs, Ss.
Qed.

Lemma snapshot_kb_extends h o snap h1 :
  snapshot_kb h o = (snap, h1) → heap_extends h h1.
Proof.
  unfold snapshot_kb.
  destruct (alloc (h_jdicts h) _) as [lj hj] eqn:Ej.
  destruct (alloc (h_lists h) _) as [lr hl] eqn:El.
  destruct (alloc (h_dicts h) _) as [lf hd] eqn:Ed.
  destruct (alloc (h_sets h) _) as [la hs1] eqn:Ea.
  destruct (alloc hs1 _) as [lc hs2] eqn:Ec.
  destruct (alloc hs2 _) as [lk hs3] eqn:Ek.
  intros [= <- <-].
  apply alloc_spec in Ej as [-> Nj]. apply alloc_spec in El as [-> Nl].
  apply alloc_spec in Ed as [-> Nd].
  destruct (alloc3_spec _ _ _ _ _ _ _ _ _ _ Ea Ec Ek)
    as (_ & _ & _ & _ & _ & _ & _ & _ & _ & _ & _ & _ & Hold).
  repeat split; simpl; intros l Hl; try (by apply lookup_insert_old).
  by destruct (Hold l Hl) as (_ & _ & _ & ?).
Qed.

Lemma restore_kb_extends h snap o h1 :
  restore_kb h snap = (o, h1) →
  heap_extends h h1 ∧ ∀ snap', snap_alloc h snap' → snap_apart o snap'.
Proof.
  unfold restore_kb.
  destruct (alloc (h_dicts h) _) as [lf hd] eqn:Ed.
  destruct (alloc (h_jdicts h) _) as [lj hj] eqn:Ej.
  destruct (alloc (h_lists h) _) as [lr hl] eqn:El.
  destruct (alloc (h_sets h) _) as [la hs1] eqn:Ea.
  destruct (alloc hs1 _) as [lc hs2] eqn:Ec.
  destruct (alloc hs2 _) as [lk hs3] eqn:Ek.
  intros [= <- <-].
  apply alloc_spec in Ej as [-> Nj]. apply alloc_spec in El as [-> Nl].
  apply alloc_spec in Ed as [-> Nd].
  destruct (alloc3_spec _ _ _ _ _ _ _ _ _ _ Ea Ec Ek)
    as (_ & _ & _ & _ & _ & _ & Na & Nc & Nk & _ & _ & _ & Hold).
  split.
  - repeat split; simpl; intros l Hl; try (by apply lookup_insert_old).
    by destruct (Hold l Hl) as (_ & _ & _ & ?).
  - intros snap' [Sf Sr Sj Ss]. split; simpl.
    + apply not_eq_sym. by apply (fresh_ref_other (h_dicts h)).
    + apply not_eq_sym. by apply (fresh_ref_other (h_lists h)).
    + apply not_eq_sym. by apply (fresh_ref_other (h_jdicts h)).
    + intros l Hl. apply Ss in Hl.
      repeat split; apply not_eq_sym; by apply (fresh_ref_other (h_sets h)).
Qed.

Lemma commit_apart rb new h o o2 h2 snap :
  wf_kb h o → commit rb new h o = (o2, h2) →
  snap_alloc h snap → snap_apart o snap → snap_apart o2 snap.
Proof.
  intros [Hf Hr Hj Ha Hc Hk D1 D2 D3]. unfold commit.
  destruct (put (rb_facts rb) _ _ _) as [lf hd] eqn:Ed.
  destruct (put (rb_rules rb) _ _ _) as [lr hl] eqn:El.
  destruct (put (rb_justifications rb) _ _ _) as [lj hj] eqn:Ej.
  destruct (put (rb_attributes rb) _ _ _) as [la hs1] eqn:Ea.
  destruct (put (rb_cond_attrs rb) _ _ _) as [lc hs2] eqn:Ec.
  destruct (put (rb_concl_attrs rb) _ _ _) as [lk hs3] eqn:Ek.
  intros [= <- <-] [Sf Sr Sj Ss] [Af Ar Aj As].
  destruct (put1_spec _ _ _ _ _ _ Ed Hf) as (_ & _ & Ff).
  destruct (put1_spec _ _ _ _ _ _ El Hr) as (_ & _ & Fr).
  destruct (put1_spec _ _ _ _ _ _ Ej Hj) as (_ & _ & Fj).
  destruct (put3_spec _ _ _ _ _ _ _ _ _ _ _ _ _ _ _ _ Ea Ec Ek Ha Hc Hk D1 D2 D3)
    as (_ & _ & _ & _ & _ & _ & _ & _ & _ & Fs).
  split; simpl.
  - by destruct (Ff _ Sf Af) as (_ & _ & ?).
  - by destruct (Fr _ Sr Ar) as (_ & _ & ?).
  - by destruct (Fj _ Sj Aj) as (_ & _ & ?).
  - intros l Hl. destruct (As l Hl) as (? & ? & ?).
    by destruct (Fs l (Ss l Hl)) as (_ & _ & ? & ? & ?).
Qed.

Lemma stack_views_frame h h' (stack : list Snapshot) :
  (∀ snap, snap ∈ stack → snapshot_view h' snap = snapshot_view h snap) →
  map (snapshot_view h') stack = map (snapshot_view h) stack.
Proof.
  intros Hall. apply map_ext_in. intros snap Hin. apply Hall.
  by apply list_elem_of_In.
Qed.

Lemma machine_init_sound : stack_sound machine_init.
Proof.
  split; [apply machine_init_wf|].
  assert (undo_stack machine_init = []) as ->.
  { unfold machine_init.
    destruct (alloc (∅ : gmap loc (gmap string value)) ∅) as [lf hd].
    destruct (alloc (∅ : gmap loc (list Rule)) []) as [lr hl].
    destruct (alloc (∅ : gmap loc (gmap string Justification)) ∅) as [lj hj].
    destruct (alloc (∅ : gmap loc (gset string)) ∅) as [la hs1].
    destruct (alloc hs1 ∅) as [lc hs2]. by destruct (alloc hs2 ∅) as [lk hs3]. }
  intros snap Hin. by apply not_elem_of_nil in Hin.
Qed.

Lemma push_snapshot_sound st :
  stack_sound st →
  stack_sound (push_snapshot st)
  ∧ view (push_snapshot st) = view st
  ∧ stack_views (push_snapshot st) = view st :: stack_views st.
Proof.
  intros [Hwf Hstack]. unfold push_snapshot, stack_sound, stack_views, view, wf.
  destruct (snapshot_kb _ _) as [snap h1] eqn:Es.
  destruct (snapshot_kb_spec _ _ _ _ Hwf Es) as (Hsv & Hv & Hw & Ha & Hp).
  pose proof (snapshot_kb_extends _ _ _ _ Es) as Hext. simpl.
  split; [|split; [done|]].
  - split; [done|]. intros s [->|Hin]%elem_of_cons; [done|].
    destruct (Hstack s Hin) as [Hal Hap].
    split; [|done]. by apply (snapshot_view_extends (m_heap st)).
  - rewrite Hsv. f_equal. apply stack_views_frame. intros s Hin.
    destruct (Hstack s Hin) as [Hal _].
    by apply (snapshot_view_extends (m_heap st)).
Qed.

Lemma handle_undo_sound st :
  stack_sound st →
  stack_sound (handle_undo st)
  ∧ stores_of (handle_undo st)
    = match stack_views st with
      | [] => stores_of st
      | kb :: rest => (kb, rest)
      end.
Proof.
  intros [Hwf Hstack].
  unfold handle_undo, stores_of, stack_sound, stack_views, view, wf in *.
  destruct (undo_stack st) as [|snap rest] eqn:Hst; [by rewrite Hst|].
  destruct (restore_kb _ snap) as [o h3] eqn:Er.
  destruct (Hstack snap) as [Hal _]; [by left|].
  destruct (restore_kb_spec _ _ _ _ Hal Er) as [Hv Hw].
  destruct (restore_kb_extends _ _ _ _ Er) as [Hext Hfresh]. simpl.
  split.
  - split; [done|]. intros s Hin. destruct (Hstack s) as [Hal' _]; [by right|].
    split; [|by apply Hfresh]. by apply (snapshot_view_extends (m_heap st)).
  - rewrite Hv. f_equal. apply stack_views_frame. intros s Hin.
    destruct (Hstack s) as [Hal' _]; [by right|].
    by apply (snapshot_view_extends (m_heap st)).
Qed.

Section SessionProps.


Abbreviation s_run := (run).
Abbreviation s_handle := (handle).
Abbreviation s_effect := (effect).
Abbreviation s_step := (step).
Abbreviation s_stores := (step_stores).

Lemma run_sound m st :
  stack_sound st →
  stack_sound (s_run m st)
  ∧ view (s_run m st) = s_effect m (view st)
  ∧ stack_views (s_run m st) = stack_views st.
Proof.
  intros [Hwf Hstack].
  destruct (run_spec m st Hwf) as (Hv & Hw & Hst & Hframe).
  split; [|split; [done|]].
  - split; [done|]. rewrite Hst. intros s Hin. destruct (Hstack s Hin) as [Hal Hap].
    split; [by apply Hframe|].
    unfold run. unfold wf in Hwf.
    destruct (commit _ _ _ _) as [o2 h2] eqn:Ec. simpl.
    by apply (commit_apart _ _ _ _ _ _ _ Hwf Ec).
  - unfold stack_views. rewrite Hst. apply stack_views_frame. intros s Hin.
    destruct (Hstack s Hin) as [Hal Hap]. by apply Hframe.
Qed.

Lemma handle_sound m st :
  stack_sound st →
  stack_sound (s_handle m st)
  ∧ stores_of (s_handle m st) = (s_effect m (view st), view st :: stack_views st).
Proof.
  intros Hs. unfold handle, stores_of.
  destruct (push_snapshot_sound st Hs) as (Hs1 & Hv1 & Hst1).
  destruct (run_sound m _ Hs1) as (Hs2 & Hv2 & Hst2).
  split; [done|]. by rewrite Hv2, Hst2, Hv1, Hst1.
Qed.

Lemma step_sound st c :
  stack_sound st →
  stack_sound (s_step st c) ∧ stores_of (s_step st c) = s_stores (stores_of st) c.
Proof.
  intros Hs. destruct c as [m|]; simpl.
  - by apply handle_sound.
  - destruct (handle_undo_sound st Hs) as [Hs' Hst]. split; [done|].
    rewrite Hst. unfold stores_of. simpl. by destruct (stack_views st).
Qed.

Lemma session_sound cmds st :
  stack_sound st →
  stack_sound (fold_left s_step cmds st)
  ∧ stores_of (fold_left s_step cmds st) = fold_left s_stores cmds (stores_of st).
Proof.
  revert st. induction cmds as [|c rest IH]; intros st Hs; [done|].
  cbn [fold_left]. destruct (step_sound st c Hs) as [Hs' Hst].
  rewrite <- Hst. by apply IH.
Qed.

(** X23: the undo stack is a stack of stores.  Over any sequence of
    mutating handlers and undos, the store and what the snapshots of the
    stack hold are those of a session kept as plain stores: a handler pushes
    the store it found and leaves the result of its operation, undo pops the
    top store and reinstates it, and undo on an empty stack changes
    nothing.  No operation on the store reaches a snapshot taken earlier. *)
Theorem undo_stack_of_stores (cmds : list command) (st : machine) :
  stack_sound st →
  stores_of (fold_left s_step cmds st) = fold_left s_stores cmds (stores_of st).
Proof.
  revert st. induction cmds as [|c rest IH]; intros st Hs; [done|].
  cbn [fold_left]. destruct (step_sound st c Hs) as [Hs' Hst].
  rewrite <- Hst. by apply IH.
Qed.

Lemma undo_all_stores (ms : list mutation) (s : KnowledgeBase * list KnowledgeBase) :
  fold_left s_stores (map Do ms ++ repeat Undo (length ms)) s = s.
Proof.
  revert s. induction ms as [|m rest IH]; intros s; [done|].
  cbn [map length app fold_left repeat]. rewrite repeat_cons, app_assoc, fold_left_app.
  rewrite IH. by destruct s.
Qed.

(** X24: after any number of mutating handlers, as many undos bring back
    the store and the undo stack found before the first of them. *)
Theorem undo_all_restores (ms : list mutation) (st : machine) :
  stack_sound st →
  stores_of (fold_left s_step (map Do ms ++ repeat Undo (length ms)) st)
  = stores_of st.
Proof.
  intros Hs. destruct (session_sound (map Do ms ++ repeat Undo (length ms)) st Hs)
    as [_ ->].
  apply undo_all_stores.
Qed.

End SessionProps.

(** * Values seen in the rules *)

Lemma scan_values_app stop vs1 vs2 seen :
  scan_values stop (vs1 ++ vs2) seen
  = if snd (scan_values stop vs1 seen) then scan_values stop vs1 seen
    else scan_values stop vs2 (fst (scan_values stop vs1 seen)).
Proof.
  revert seen. induction vs1 as [|v rest IH]; intros seen; [done|].
  cbn [app scan_values]. destruct (py_in_list v seen); [apply IH|].
  destruct (stop _); [done|apply IH].
Qed.

Lemma scan_values_extends stop vs seen :
  ∃ new, fst (scan_values stop vs seen) = (seen ++ new)%list
         ∧ ∀ v, v ∈ new → v ∈ vs.
Proof.
  revert seen. induction vs as [|v rest IH]; intros seen; cbn [scan_values].
  - exists []. split; [by rewrite app_nil_r|]. by intros v Hv.
  - destruct (py_in_list v seen).
    + destruct (IH seen) as (new & -> & Hnew). exists new. split; [done|].
      intros w Hw. right. by apply Hnew.
    + destruct (stop _).
      * exists [v]. split; [done|]. intros w ->%list_elem_of_singleton. by left.
      * destruct (IH (seen ++ [v])%list) as (new & -> & Hnew). exists (v :: new).
        split; [by rewrite <- app_assoc|].
        intros w [->|Hw]%elem_of_cons; [by left|]. right. by apply Hnew.
Qed.

Lemma distinct_values_snoc seen v :
  distinct_values seen → py_in_list v seen = false → distinct_values (seen ++ [v]).
Proof.
  intros Hd Hv i j x y Hij Hi Hj.
  apply lookup_snoc_Some in Hj as [[Hlt Hj]|[-> ->]].
  - rewrite lookup_app_l in Hi by lia. by apply (Hd i j).
  - rewrite lookup_app_l in Hi by lia.
    unfold py_in_list in Hv.
    destruct (py_eq x y) eqn:Hxy; [|done].
    assert (existsb (λ x, py_eq x y) seen = true) as Hex; [|congruence].
    apply existsb_exists. exists x. split; [|done].
    apply list_elem_of_In. by apply list_elem_of_lookup_2 in Hi.
Qed.

Lemma scan_values_distinct stop vs seen :
  distinct_values seen → distinct_values (fst (scan_values stop vs seen)).
Proof.
  revert seen. induction vs as [|v rest IH]; intros seen Hd; cbn [scan_values];
    [done|].
  destruct (py_in_list v seen) eqn:Hv; [by apply IH|].
  destruct (stop _); [by apply distinct_values_snoc|].
  apply IH. by apply distinct_values_snoc.
Qed.

Lemma scan_values_length stop vs seen (n : Z) :
  (∀ l, stop l = false → (Z.of_nat (length l) < n)%Z) →
  seen = [] ∨ stop seen = false →
  (Z.of_nat (length (fst (scan_values stop vs seen))) ≤ Z.max 1 n)%Z.
Proof.
  intros Hstop. revert seen. induction vs as [|v rest IH]; intros seen Hseen;
    cbn [scan_values].
  - destruct Hseen as [->|Hs]; [simpl; lia|]. apply Hstop in Hs. simpl. lia.
  - destruct (py_in_list v seen); [by apply IH|].
    destruct (stop (seen ++ [v])%list) eqn:Hs'; [|apply IH; by right].
    cbn [fst]. rewrite length_app. simpl.
    destruct Hseen as [->|Hs]; [simpl; lia|]. apply Hstop in Hs. lia.
Qed.

Lemma scan_values_stopped stop vs seen :
  snd (scan_values stop vs seen) = true →
  stop (fst (scan_values stop vs seen)) = true.
Proof.
  revert seen. induction vs as [|v rest IH]; intros seen; cbn [scan_values];
    [discriminate|].
  destruct (py_in_list v seen); [apply IH|].
  destruct (stop _) eqn:Hs; [done|apply IH].
Qed.

Lemma covered_app v l new : covered v l → covered v (l ++ new).
Proof.
  intros [Hin|Hin]; [left; apply elem_of_app; by left|].
  right. unfold py_in_list in *. rewrite existsb_app, Hin. done.
Qed.

Lemma scan_values_complete stop vs seen v :
  snd (scan_values stop vs seen) = false →
  v ∈ vs → covered v (fst (scan_values stop vs seen)).
Proof.
  revert seen. induction vs as [|w rest IH]; intros seen Hrun Hv;
    [by apply not_elem_of_nil in Hv|].
  cbn [scan_values] in *.
  destruct (py_in_list w seen) eqn:Hw.
  - apply elem_of_cons in Hv as [->|Hv]; [|by apply IH].
    destruct (scan_values_extends stop rest seen) as (new & -> & _).
    apply covered_app. by right.
  - destruct (stop _); [discriminate|].
    apply elem_of_cons in Hv as [->|Hv]; [|by apply IH].
    destruct (scan_values_extends stop rest (seen ++ [w])%list) as (new & -> & _).
    apply covered_app. left. apply elem_of_app. right. by apply list_elem_of_singleton.
Qed.

Lemma example_values_conditions_scan attr max_n conds seen :
  example_values_conditions attr max_n conds seen
  = scan_values (λ l, (max_n <=? Z.of_nat (length l))%Z)
      (condition_values attr conds) seen.
Proof.
  unfold condition_values. revert seen.
  induction conds as [|c rest IH]; intros seen; [done|].
  cbn [example_values_conditions List.filter].
  destruct (String.eqb (c_attr c) attr); [|apply IH].
  cbn [map scan_values]. destruct (py_in_list (c_value c) seen); cbn [negb];
    [apply IH|].
  destruct (_ <=? _)%Z; [done|apply IH].
Qed.

Lemma example_values_rules_scan attr max_n rs seen :
  example_values_rules attr max_n rs seen
  = fst (scan_values (λ l, (max_n <=? Z.of_nat (length l))%Z)
           (flat_map (λ r, condition_values attr (r_conditions r)) rs) seen).
Proof.
  revert seen. induction rs as [|r rest IH]; intros seen; [done|].
  cbn [example_values_rules flat_map].
  rewrite scan_values_app, example_values_conditions_scan.
  destruct (scan_values _ (condition_values attr (r_conditions r)) seen)
    as [seen' returned].
  cbn [fst snd]. destruct returned; [done|apply IH].
Qed.

Lemma goal_values_rules_scan attr max_n rs seen :
  goal_values_rules attr max_n rs seen
  = fst (scan_values (goal_cap_reached max_n) (conclusion_values attr rs) seen).
Proof.
  unfold conclusion_values. revert seen.
  induction rs as [|r rest IH]; intros seen; [done|].
  cbn [goal_values_rules List.filter].
  destruct (String.eqb (k_attr (r_conclusion r)) attr); [|apply IH].
  cbn [map scan_values]. destruct (py_in_list _ seen); cbn [negb]; [apply IH|].
  destruct (goal_cap_reached _ _); [done|apply IH].
Qed.

Lemma distinct_values_nil : distinct_values [].
Proof. intros i j x y _ Hi. by rewrite lookup_nil in Hi. Qed.

Lemma condition_values_source attr rs v :
  v ∈ flat_map (λ r, condition_values attr (r_conditions r)) rs
  ↔ ∃ r c, r ∈ rs ∧ c ∈ r_conditions r ∧ c_attr c = attr ∧ c_value c = v.
Proof.
  rewrite list_elem_of_In, in_flat_map. unfold condition_values. split.
  - intros (r & Hr & Hv). apply in_map_iff in Hv as (c & <- & Hc).
    apply filter_In in Hc as [Hc Ha]. apply String.eqb_eq in Ha.
    exists r, c. by rewrite !list_elem_of_In.
  - intros (r & c & Hr & Hc & Ha & <-). exists r.
    rewrite list_elem_of_In in Hr. split; [done|].
    apply in_map_iff. exists c. split; [done|]. apply filter_In.
    rewrite list_elem_of_In in Hc. split; [done|]. by apply String.eqb_eq.
Qed.

Lemma conclusion_values_source attr rs v :
  v ∈ conclusion_values attr rs
  ↔ ∃ r, r ∈ rs ∧ k_attr (r_conclusion r) = attr ∧ k_value (r_conclusion r) = v.
Proof.
  rewrite list_elem_of_In. unfold conclusion_values. rewrite in_map_iff. split.
  - intros (r & <- & Hr). apply filter_In in Hr as [Hr Ha].
    apply String.eqb_eq in Ha. exists r. by rewrite list_elem_of_In.
  - intros (r & Hr & Ha & <-). exists r. split; [done|]. apply filter_In.
    rewrite list_elem_of_In in Hr. split; [done|]. by apply String.eqb_eq.
Qed.

Lemma scan_values_firstn (k : nat) stop vs seen :
  (∀ l, l ≠ [] → stop l = (k <=? length l)%nat) → (length seen < k)%nat →
  fst (scan_values stop vs seen)
  = firstn k (fst (scan_values (λ _, false) vs seen)).
Proof.
  intros Hstop. revert seen. induction vs as [|v rest IH]; intros seen Hlen;
    cbn [scan_values].
  - cbn [fst]. rewrite firstn_all2; [done|lia].
  - destruct (py_in_list v seen); [by apply IH|].
    rewrite Hstop by (by destruct seen).
    rewrite length_app. cbn [length].
    destruct (Nat.leb_spec k (length seen + 1)) as [Hle|Hgt].
    + cbn [fst].
      destruct (scan_values_extends (λ _, false) rest (seen ++ [v])%list)
        as (new & -> & _).
      rewrite firstn_app, length_app. cbn [length].
      replace (k - (length seen + 1))%nat with O by lia.
      rewrite firstn_all2 by (rewrite length_app; simpl; lia).
      cbn [firstn]. by rewrite app_nil_r.
    + apply IH. rewrite length_app. simpl. lia.
Qed.

Lemma scan_values_head stop vs :
  hd_error (fst (scan_values stop vs [])) = hd_error vs.
Proof.
  destruct vs as [|v rest]; [done|]. cbn [scan_values py_in_list existsb app].
  destruct (stop [v]); [done|].
  by destruct (scan_values_extends stop rest [v]) as (new & -> & _).
Qed.

Lemma example_cap_as_length (max_n : Z) (l : list value) :
  l ≠ [] →
  (max_n <=? Z.of_nat (length l))%Z
  = (Z.to_nat (Z.max 1 max_n) <=? length l)%nat.
Proof.
  intros Hl. assert (0 < length l)%nat by (destruct l; [done|simpl; lia]).
  destruct (Z.leb_spec max_n (Z.of_nat (length l))),
           (Nat.leb_spec (Z.to_nat (Z.max 1 max_n)) (length l)); try done; lia.
Qed.

(** X21: [get_example_values_for_attr] goes through the values of the
    conditions on the attribute in rule order, keeps a value that equals
    none kept before it, and stops at [max_n] values, or at one when [max_n]
    is below 1.  So: no returned value equals one before it; each is the
    value of a condition on the attribute; the first one is the value of the
    first such condition, and the list is empty only when there is none; the
    result for a cap is the prefix of length [max(1, max_n)] of the result
    for any larger cap; and a result shorter than [max_n] has, for every
    condition on the attribute, its value or a value equal to it. *)
Theorem get_example_values_for_attr_spec (kb : KnowledgeBase) (attr : string)
    (max_n : Z) :
  distinct_values (get_example_values_for_attr kb attr max_n)
  ∧ (∀ v, v ∈ get_example_values_for_attr kb attr max_n →
       ∃ r c, r ∈ rules kb ∧ c ∈ r_conditions r ∧ c_attr c = attr ∧ c_value c = v)
  ∧ (Z.of_nat (length (get_example_values_for_attr kb attr max_n)) ≤ Z.max 1 max_n)%Z
  ∧ ((Z.of_nat (length (get_example_values_for_attr kb attr max_n)) < max_n)%Z →
     ∀ r c, r ∈ rules kb → c ∈ r_conditions r → c_attr c = attr →
       covered (c_value c) (get_example_values_for_attr kb attr max_n))
  ∧ hd_error (get_example_values_for_attr kb attr max_n)
    = hd_error (flat_map (λ r, condition_values attr (r_conditions r)) (rules kb))
  ∧ (∀ max_n', (max_n ≤ max_n')%Z →
       get_example_values_for_attr kb attr max_n
       = firstn (Z.to_nat (Z.max 1 max_n))
           (get_example_values_for_attr kb attr max_n')).
Proof.
  unfold get_example_values_for_attr. rewrite example_values_rules_scan.
  set (stop := λ l : list value, (max_n <=? Z.of_nat (length l))%Z).
  set (vs := flat_map _ (rules kb)).
  split; [apply scan_values_distinct, distinct_values_nil|].
  split; [|split; [|split; [|split]]].
  - intros v Hv. destruct (scan_values_extends stop vs []) as (new & Hnew & Hsrc).
    rewrite Hnew in Hv. simpl in Hv. apply Hsrc in Hv.
    by apply condition_values_source in Hv.
  - apply scan_values_length; [|by left].
    intros l Hl. unfold stop in Hl. lia.
  - intros Hlt r c Hr Hc Ha. apply scan_values_complete.
    + destruct (snd (scan_values stop vs [])) eqn:Hs; [|done].
      apply scan_values_stopped in Hs. unfold stop in Hs at 1. lia.
    + apply condition_values_source. by exists r, c.
  - apply scan_values_head.
  - intros max_n' Hle. rewrite example_values_rules_scan. fold vs.
    rewrite (scan_values_firstn (Z.to_nat (Z.max 1 max_n)) stop vs []);
      [|intros l Hl; by apply example_cap_as_length|simpl; lia].
    rewrite (scan_values_firstn (Z.to_nat (Z.max 1 max_n'))
               (λ l : list value, (max_n' <=? Z.of_nat (length l))%Z) vs []);
      [|intros l Hl; by apply example_cap_as_length|simpl; lia].
    rewrite firstn_firstn. f_equal. lia.
Qed.

(** X22: [get_goal_values_for_attr] returns values that rules conclude for
    the attribute, none equal to one before it.  Without a cap ([None] or
    [0]) every concluded value is in the list or equals one of its values;
    with a cap the list has at most [max_n] values, and one when [max_n] is
    negative, and is as complete when it has fewer than [max_n]. *)
Theorem get_goal_values_for_attr_spec (kb : KnowledgeBase) (attr : string)
    (max_n : option Z) :
  distinct_values (get_goal_values_for_attr kb attr max_n)
  ∧ (∀ v, v ∈ get_goal_values_for_attr kb attr max_n →
       ∃ r, r ∈ rules kb ∧ k_attr (r_conclusion r) = attr
            ∧ k_value (r_conclusion r) = v)
  ∧ (∀ n, max_n = Some n → n ≠ 0%Z →
       (Z.of_nat (length (get_goal_values_for_attr kb attr max_n)) ≤ Z.max 1 n)%Z)
  ∧ ((max_n = None ∨ max_n = Some 0%Z
      ∨ ∃ n, max_n = Some n
             ∧ (Z.of_nat (length (get_goal_values_for_attr kb attr max_n)) < n)%Z) →
     ∀ r, r ∈ rules kb → k_attr (r_conclusion r) = attr →
       covered (k_value (r_conclusion r)) (get_goal_values_for_attr kb attr max_n)).
Proof.
  unfold get_goal_values_for_attr. rewrite goal_values_rules_scan.
  set (vs := conclusion_values attr (rules kb)).
  split; [apply scan_values_distinct, distinct_values_nil|].
  split; [|split].
  - intros v Hv.
    destruct (scan_values_extends (goal_cap_reached max_n) vs [])
      as (new & Hnew & Hsrc).
    rewrite Hnew in Hv. simpl in Hv. apply Hsrc in Hv.
    by apply conclusion_values_source in Hv.
  - intros n -> Hn. apply scan_values_length; [|by left].
    intros l Hl. unfold goal_cap_reached in Hl.
    apply andb_false_iff in Hl as [Hl|Hl]; [apply negb_false_iff in Hl|]; lia.
  - intros Hcap r Hr Ha. apply scan_values_complete.
    + destruct (snd (scan_values (goal_cap_reached max_n) vs [])) eqn:Hs; [|done].
      apply scan_values_stopped in Hs. unfold goal_cap_reached in Hs at 1.
      destruct Hcap as [->|[->|(n & -> & Hlt)]]; [done|done|].
      apply andb_true_iff in Hs as [_ Hs]. lia.
    + apply conclusion_values_source. by exists r.
Qed.

(** * Explanation *)

Section ExplanationProps.

Variable py_str : value → string.

Abbreviation e_how := (explain_how_rec py_str).
Abbreviation e_why := (explain_why py_str).

Lemma how_premises_cases how kb premises depth s :
  (∀ a v d, how a v d ≠ MissingKey) →
  how_premises how kb premises depth s ≠ MissingKey.
Proof.
  intros Hhow. revert s. induction premises as [|p rest IH]; intros s;
    cbn [how_premises]; [done|].
  pose proof (Hhow (f_attr p) (default (f_value p) (facts kb !! f_attr p)) (S depth)).
  destruct (how _ _ _); [apply IH|done|done].
Qed.

Lemma explain_how_no_key_error fuel kb a v d : e_how fuel kb a v d ≠ MissingKey.
Proof.
  revert a v d. induction fuel as [|fuel IH]; intros a v d; cbn [explain_how_rec];
    [done|].
  destruct (negb (has_fact kb a v)); [done|].
  destruct (justifications kb !! a) as [j|]; [|done].
  destruct (j_rule_id j); [|done].
  by apply how_premises_cases.
Qed.

Lemma how_premises_unfinished how kb premises depth s p :
  (∀ a v d, how a v d ≠ MissingKey) →
  p ∈ premises →
  (∀ d, how (f_attr p) (default (f_value p) (facts kb !! f_attr p)) d = Unfinished) →
  how_premises how kb premises depth s = Unfinished.
Proof.
  intros Hhow Hp Hun. revert s. induction premises as [|q rest IH]; intros s;
    [by apply not_elem_of_nil in Hp|].
  cbn [how_premises].
  pose proof (Hhow (f_attr q) (default (f_value q) (facts kb !! f_attr q)) (S depth))
    as Hq.
  apply elem_of_cons in Hp as [<-|Hp]; [by rewrite Hun|].
  destruct (how _ _ _); [by apply IH|done|done].
Qed.

(** X17: [explain_how] has no guard against justifications that cite one
    another: when every attribute of a set has a fact that passes
    [has_fact] and a rule justification with a premise about an attribute
    of the set, [explain_how] on any of them never returns, whatever the
    depth of recursion allowed. *)
Theorem explain_how_never_returns (S : string → Prop) (kb : KnowledgeBase) :
  (∀ a, S a → explainable kb a ∧ ∃ b, S b ∧ cites kb a b) →
  ∀ fuel a x depth,
    S a → facts kb !! a = Some x → e_how fuel kb a x depth = Unfinished.
Proof.
  intros Hclosed. induction fuel as [|fuel IH]; intros a x depth Ha Hx; [done|].
  destruct (Hclosed a Ha) as ((x' & Hx' & Hhas) & b & Hb & j & rid & p & Hj & Hrid & Hp & Hpb).
  assert (x' = x) as -> by congruence.
  cbn [explain_how_rec]. rewrite Hhas, Hj, Hrid. cbn [negb].
  destruct (Hclosed b Hb) as ((xb & Hxb & _) & _).
  apply (how_premises_unfinished _ _ _ _ _ p); [|done|].
  - intros. apply explain_how_no_key_error.
  - intros d. rewrite Hpb, Hxb. simpl. by apply IH.
Qed.

Lemma how_premises_explained how kb premises depth s :
  (∀ p d, p ∈ premises →
     ∃ t, how (f_attr p) (default (f_value p) (facts kb !! f_attr p)) d = Explained t) →
  ∃ t, how_premises how kb premises depth s = Explained t.
Proof.
  revert s. induction premises as [|p rest IH]; intros s Hall; cbn [how_premises].
  - by eexists.
  - destruct (Hall p (S depth)) as [t ->]; [by left|].
    apply IH. intros q d Hq. apply Hall. by right.
Qed.

Lemma explain_how_rec_ranked (rank : string → nat) (kb : KnowledgeBase) :
  (∀ a b, cites kb a b → (rank b < rank a)%nat) →
  ∀ fuel a v depth,
    (rank a < fuel)%nat → ∃ t, e_how fuel kb a v depth = Explained t.
Proof.
  intros Hrank. induction fuel as [|fuel IH]; intros a v depth Hlt; [lia|].
  cbn [explain_how_rec].
  destruct (negb (has_fact kb a v)); [by eexists|].
  destruct (justifications kb !! a) as [j|] eqn:Hj; [|by eexists].
  destruct (j_rule_id j) as [rid|] eqn:Hrid; [|by eexists].
  apply how_premises_explained. intros p d Hp. apply IH.
  assert (rank (f_attr p) < rank a)%nat; [|lia].
  apply Hrank. by exists j, rid, p.
Qed.

(** X18: [explain_how] returns its text when the justifications are ranked:
    if every premise of a rule justification is about an attribute of lower
    rank than the justified one, a recursion depth above the rank of the
    queried attribute is enough. *)
Theorem explain_how_ranked (rank : string → nat) (kb : KnowledgeBase) :
  (∀ a b, cites kb a b → (rank b < rank a)%nat) →
  ∀ fuel a v depth,
    (rank a < fuel)%nat → ∃ t, e_how fuel kb a v depth = Explained t.
Proof.
  intros Hrank. induction fuel as [|fuel IH]; intros a v depth Hlt; [lia|].
  cbn [explain_how_rec].
  destruct (negb (has_fact kb a v)); [by eexists|].
  destruct (justifications kb !! a) as [j|] eqn:Hj; [|by eexists].
  destruct (j_rule_id j) as [rid|] eqn:Hrid; [|by eexists].
  apply how_premises_explained. intros p d Hp. apply IH.
  assert (cites kb a (f_attr p)) as Hc by (by exists j, rid, p).
  apply Hrank in Hc. lia.
Qed.

Lemma why_premises_explained fuel kb premises depth s :
  keyed_identically kb →
  (∀ p x d, p ∈ premises → ∃ t, e_how fuel kb (f_attr p) x d = Explained t) →
  ∃ t, why_premises py_str fuel kb premises depth s = Explained t.
Proof.
  intros Hk. revert s. induction premises as [|p rest IH]; intros s Hall;
    cbn [why_premises]; [by eexists|].
  assert (∀ q x d, q ∈ rest → ∃ t, e_how fuel kb (f_attr q) x d = Explained t)
    as Hrest by (intros q x d Hq; apply Hall; by right).
  destruct (justifications kb !! f_attr p) as [jp|] eqn:Hjp; [|by apply IH].
  destruct (j_rule_id jp); [|by apply IH].
  assert (is_Some (facts kb !! f_attr p)) as [x Hx].
  { apply elem_of_dom. unfold keyed_identically in Hk. rewrite Hk.
    apply elem_of_dom. by eexists. }
  rewrite Hx. destruct (Hall p x (S depth)) as [t ->]; [by left|]. by apply IH.
Qed.

(** X19: on a store whose facts and justifications have the same keys and
    whose justifications are ranked, [explain_why] returns its text (it
    raises no [KeyError] and needs a recursion depth no greater than the
    rank of the queried attribute). *)
Theorem explain_why_ranked (rank : string → nat) (kb : KnowledgeBase) :
  keyed_identically kb →
  (∀ a b, cites kb a b → (rank b < rank a)%nat) →
  ∀ fuel a v depth,
    (rank a ≤ fuel)%nat → ∃ t, e_why fuel kb a v depth = Explained t.
Proof.
  intros Hk Hrank fuel a v depth Hle. unfold explain_why.
  destruct (negb (has_fact kb a v)); [by eexists|].
  destruct (justifications kb !! a) as [j|] eqn:Hj; [|by eexists].
  destruct (j_rule_id j) as [rid|] eqn:Hrid; [|by eexists].
  apply why_premises_explained; [done|].
  intros p x d Hp. apply (explain_how_rec_ranked rank kb Hrank).
  assert (rank (f_attr p) < rank a)%nat; [|lia].
  apply Hrank. by exists j, rid, p.
Qed.

End ExplanationProps.

(** ** Explaining what forward chaining derived *)

Lemma rank_above_spec rank premises p :
  p ∈ premises → (rank (f_attr p) < rank_above rank premises)%nat.
Proof.
  unfold rank_above. induction premises as [|q rest IH]; intros Hp;
    [by apply not_elem_of_nil in Hp|].
  cbn [fold_right]. apply elem_of_cons in Hp as [<-|Hp]; [lia|].
  specialize (IH Hp). lia.
Qed.

Lemma assert_fresh_ranked kb a v j :
  facts kb !! a = None →
  (∀ p, p ∈ j_premises j → is_Some (facts kb !! f_attr p)) →
  ranked kb → premises_known kb →
  ranked (assert_fact kb a v j) ∧ premises_known (assert_fact kb a v j).
Proof.
  intros Hnone Hused [rank Hrank] Hknown.
  assert (∀ x b, cites (assert_fact kb a v j) x b →
            is_Some (facts kb !! b)
            ∧ ((x = a ∧ ∃ p, p ∈ j_premises j ∧ f_attr p = b)
               ∨ (x ≠ a ∧ cites kb x b))) as Hcases.
  { intros x b (j' & rid & p & Hj' & Hrid & Hp & Hb). simpl in Hj'.
    destruct (decide (a = x)) as [<-|Hne].
    - rewrite lookup_insert_eq in Hj'. injection Hj' as <-.
      split; [rewrite <- Hb; by apply Hused|]. left. split; [done|]. by exists p.
    - rewrite lookup_insert_ne in Hj' by done.
      assert (cites kb x b) as Hc by (by exists j', rid, p).
      split; [by apply Hknown in Hc|]. right. split; [done|exact Hc]. }
  split.
  - exists (λ x, if decide (x = a) then rank_above rank (j_premises j) else rank x).
    intros x b Hc. destruct (Hcases x b Hc) as [Hb Hx].
    assert (b ≠ a) as Hba by (intros ->; rewrite Hnone in Hb; by destruct Hb).
    destruct (decide (b = a)) as [|_]; [done|].
    destruct Hx as [[-> (p & Hp & <-)]|[Hxa Hold]].
    + destruct (decide (a = a)) as [_|]; [|done]. by apply rank_above_spec.
    + destruct (decide (x = a)) as [|_]; [done|]. by apply Hrank.
  - intros x b Hc. destruct (Hcases x b Hc) as [[y Hy] _]. simpl.
    destruct (decide (a = b)) as [<-|Hne]; [by rewrite lookup_insert_eq|].
    rewrite lookup_insert_ne by done. by exists y.
Qed.

Lemma facts_agree_fresh kb r :
  facts_agree kb → r ∈ rules kb →
  has_fact kb (k_attr (r_conclusion r)) (k_value (r_conclusion r)) = false →
  facts kb !! k_attr (r_conclusion r) = None.
Proof.
  intros Hfa Hr Hnot. rewrite has_fact_accepts in Hnot.
  destruct (facts kb !! k_attr (r_conclusion r)) as [x|] eqn:Hx; [|done].
  by rewrite (Hfa r x) in Hnot.
Qed.

Lemma facts_agree_assert kb r j :
  rules_agree kb → facts_agree kb → r ∈ rules kb →
  facts_agree (assert_fact kb (k_attr (r_conclusion r)) (k_value (r_conclusion r)) j).
Proof.
  intros Hra Hfa Hr r' x. simpl. intros Hr' Hx.
  destruct (decide (k_attr (r_conclusion r) = k_attr (r_conclusion r')))
    as [Heq|Hne].
  - rewrite <- Heq, lookup_insert_eq in Hx. injection Hx as <-. by apply Hra.
  - rewrite lookup_insert_ne in Hx by done. by apply (Hfa r' x).
Qed.

Lemma base_only_ranked kb :
  (∀ a j, justifications kb !! a = Some j → j_rule_id j = None) →
  ranked kb ∧ premises_known kb.
Proof.
  intros Hbase.
  assert (∀ a b, ¬ cites kb a b) as Hno.
  { intros a b (j & rid & p & Hj & Hrid & _). apply Hbase in Hj. congruence. }
  split.
  - exists (λ _, O). intros a b Hc. by apply Hno in Hc.
  - intros a b Hc. by apply Hno in Hc.
Qed.

Section ExplainedChains.

Variable py_str : value → string.

Lemma conditions_hold_known kb conds used p :
  conditions_hold kb conds = (true, used) →
  p ∈ used → is_Some (facts kb !! f_attr p).
Proof.
  unfold conditions_hold. rewrite conditions_hold_loop_spec.
  destruct (forallb _ conds) eqn:Hall; [|discriminate].
  intros [= <-] Hp. simpl in Hp.
  apply list_elem_of_fmap in Hp as (c & -> & Hc). simpl.
  rewrite forallb_forall in Hall. apply list_elem_of_In, Hall in Hc.
  unfold cond_holds in Hc. by destruct (facts kb !! c_attr c).
Qed.

(** X20: forward chaining yields stores that [explain_how] can explain.
    When the rules that conclude one attribute conclude values that pass for
    one another, the facts already known pass for those values, and the
    justifications are ranked with every cited attribute known (as on a store
    whose facts were all entered or loaded), the store after [forward_chain]
    is again such a store, and [explain_how] returns its text for every
    query, at every recursion depth above a bound. *)
Theorem forward_chain_explainable (kb : KnowledgeBase) (max_iterations : Z) :
  rules_agree kb → facts_agree kb → ranked kb → premises_known kb →
  facts_agree (fst (forward_chain kb max_iterations))
  ∧ ranked (fst (forward_chain kb max_iterations))
  ∧ premises_known (fst (forward_chain kb max_iterations))
  ∧ ∀ a v depth, ∃ n, ∀ fuel, (n < fuel)%nat →
      ∃ t, explain_how_rec py_str fuel
             (fst (forward_chain kb max_iterations))
             a v depth = Explained t.
Proof.
  intros Hra Hfa Hrk Hkn.
  pose proof (forward_chain_sinv kb
                (λ kb' _, facts_agree kb' ∧ ranked kb' ∧ premises_known kb')) as Hinv.
  destruct (Hinv) with (max_iterations := max_iterations)
    as (Hfa' & Hrk' & Hkn'); [|done|].
  - intros kb' inferred r it used (Hfa1 & Hrk1 & Hkn1) Hrules Hr Hc Hnot.
    rewrite <- Hrules in Hr.
    assert (rules_agree kb') as Hra1 by (unfold rules_agree; by rewrite Hrules).
    split; [by apply facts_agree_assert|].
    apply assert_fresh_ranked; [by apply facts_agree_fresh| |done|done].
    simpl. intros p Hp. by apply (conditions_hold_known kb' (r_conditions r) used).
  - split; [done|]. split; [done|]. split; [done|].
    intros a v depth. destruct Hrk' as [rank Hrank]. exists (rank a).
    intros fuel Hlt. by apply (explain_how_rec_ranked py_str rank).
Qed.

End ExplainedChains.

End ModelProps.

(** * The examples *)

Section ExampleProps.

#[local] Existing Instance ascii_lib.


(** ** Forward chaining on the example stores *)


Lemma forward_chain_fixpoint_idempotent_witness :
  forward_chain
    (fst (forward_chain kb_febre 50)) 50
  = (fst (forward_chain kb_febre 50), []).
Proof.
  apply (forward_chain_fixpoint_idempotent
           kb_febre 50 50 _
           (snd (forward_chain kb_febre 50))).
  by vm_compute.
Defined.

(** C4, as first stated, fails: with two rules concluding [X = 1] and
    [X = 2] from the same known fact, every round re-asserts both, the first
    run stops at the cap of 50 rounds, and the second run derives facts
    again. *)
Lemma forward_chain_second_run_derives :
  length (snd (forward_chain kb_conflict 50)) = 100%nat
  ∧ hd_error
      (snd (forward_chain
              (fst (forward_chain kb_conflict 50)) 50))
    = Some (mkFact "X" (VInt 1))
  ∧ length
      (snd (forward_chain
              (fst (forward_chain kb_conflict 50)) 50))
    = 100%nat.
Proof. by vm_compute. Qed.

(** ** Backward chaining on the example stores *)

(** C2, as first stated, fails: proving [Gripe = Sim] fails for want of
    [Tosse], but the sub-goal [Febre = Sim] was proved on the way and stays
    asserted, with its justification. *)
Lemma backward_prove_failure_mutates :
  fst (backward_prove kb_gripe "Gripe" (VStr "Sim"))
  = Ret false
  ∧ facts kb_gripe !! "Febre" = None
  ∧ justifications kb_gripe !! "Febre" = None
  ∧ facts (snd (backward_prove kb_gripe
                  "Gripe" (VStr "Sim"))) !! "Febre" = Some (VStr "Sim")
  ∧ justifications (snd (backward_prove kb_gripe
                           "Gripe" (VStr "Sim"))) !! "Febre"
    = Some (mkJustification (mkFact "Febre" (VStr "Sim")) (Some 2%Z)
              [mkFact "Temperatura" (VInt 39)] "backward").
Proof. by vm_compute. Qed.

(** ** Undo and the key invariant on the example stores *)

Lemma session_febre_wf : wf session_febre.
Proof.
  unfold session_febre.
  repeat (apply handle_spec). apply machine_init_wf.
Qed.

Lemma undo_restores_store_witness :
  view (handle ForwardRun session_febre)
  = effect ForwardRun (view session_febre)
  ∧ view (handle_undo (handle ForwardRun session_febre))
    = view session_febre
  ∧ undo_stack
      (handle_undo (handle ForwardRun session_febre))
    = undo_stack session_febre.
Proof.
  apply (undo_restores_store session_febre ForwardRun).
  apply session_febre_wf.
Defined.

Lemma keyed_identically_preserved_witness :
  keyed_identically (add_fact kb_febre "Tosse" (VStr "Sim") "base")
  ∧ keyed_identically
      (fst (forward_chain kb_febre 50))
  ∧ keyed_identically
      (snd (backward_prove kb_febre
              "Risco" (VStr "Alto"))).
Proof.
  destruct (keyed_identically_preserved kb_febre)
    as (Ha & _ & Hf & Hb & _).
  - by vm_compute.
  - split; [apply Ha|]. split; [apply Hf|apply Hb].
Defined.

(** ** The catalogs on the example stores *)

Lemma kb_febre_in_sync : catalogs_in_sync kb_febre.
Proof.
  unfold kb_febre, kb_rules_febre, add_rule_of.
  eapply same_rule_side_in_sync; [|do 2 apply add_rule_in_sync; apply kb_init_in_sync].
  by repeat split.
Qed.

Lemma catalogs_follow_rules_witness :
  "Febre" ∈ _cond_attrs (effect (RemoveRule 1) kb_febre)
  ↔ named_in_conditions
      (rules (effect (RemoveRule 1) kb_febre)) "Febre".
Proof.
  destruct (catalogs_follow_rules (RemoveRule 1)
              kb_febre kb_febre_in_sync "Febre") as (Hc & _).
  exact Hc.
Defined.

(** ** Rule ids on the example store *)

Lemma kb_febre_ids_unique : ids_unique kb_febre.
Proof.
  split.
  - change (map r_id (rules kb_febre)) with [1%Z; 2%Z].
    apply NoDup_cons. split; [|apply NoDup_singleton].
    intros Hin. by apply list_elem_of_singleton in Hin.
  - intros r. change (rules kb_febre) with [rule_febre; rule_risco].
    change (_next_rule_id kb_febre) with 3%Z.
    intros Hin. apply elem_of_cons in Hin as [->|Hin]; [simpl; lia|].
    apply list_elem_of_singleton in Hin as ->. simpl. lia.
Qed.

Lemma rule_ids_unique_increasing_witness :
  ids_unique (effect (RemoveRule 1) kb_febre)
  ∧ (_next_rule_id kb_febre
     ≤ _next_rule_id (effect (RemoveRule 1) kb_febre))%Z.
Proof.
  destruct (rule_ids_unique_increasing
              (RemoveRule 1) kb_febre kb_febre_ids_unique) as (Hu & Hn & _).
  - intros obj Hm. discriminate Hm.
  - split; [exact Hu|]. apply Hn. intros obj Hm. discriminate Hm.
Defined.

(** ** Forward chaining to a fixpoint on the example store *)

Lemma forward_chain_fixpoint_closed_witness :
  has_fact (fst (forward_chain kb_febre 50))
    "Risco" (VStr "Alto") = true.
Proof.
  apply (forward_chain_fixpoint_closed kb_febre 50
           (fst (forward_chain kb_febre 50))
           (snd (forward_chain kb_febre 50))
           ltac:(by vm_compute) rule_risco).
  - change (rules (fst (forward_chain kb_febre 50)))
      with [rule_febre; rule_risco].
    apply elem_of_cons. right. by apply list_elem_of_singleton.
  - by vm_compute.
Defined.

(** ** Agreeing rules and backward outcomes on the example stores *)

Lemma forward_chain_agreeing_rules_witness :
  snd (forward_chain_state kb_febre 50) = false
  ∧ forward_chain
      (fst (forward_chain kb_febre 50)) 50
    = (fst (forward_chain kb_febre 50), []).
Proof.
  apply (forward_chain_agreeing_rules kb_febre 50 50).
  - intros r r'. change (rules kb_febre) with [rule_febre; rule_risco].
    intros Hr Hr' Ha.
    apply elem_of_cons in Hr as [->|Hr];
      [|apply list_elem_of_singleton in Hr as ->];
      (apply elem_of_cons in Hr' as [->|Hr'];
       [|apply list_elem_of_singleton in Hr' as ->]);
      first [reflexivity | discriminate Ha].
  - intros r x. change (rules kb_febre) with [rule_febre; rule_risco].
    intros Hr Hx.
    apply elem_of_cons in Hr as [->|Hr];
      [|apply list_elem_of_singleton in Hr as ->]; discriminate Hx.
  - simpl. lia.
Defined.

Lemma backward_prove_success_witness :
  has_fact (snd (backward_prove kb_febre
                   "Risco" (VStr "Alto"))) "Risco" (VStr "Alto") = true.
Proof.
  apply (backward_prove_success kb_febre
           "Risco" (VStr "Alto")).
  by vm_compute.
Defined.

Lemma backward_prove_blocked_witness :
  backward_prove kb_rules_febre "Febre" (VStr "Sim")
  = (Ret false, kb_rules_febre).
Proof.
  apply (backward_prove_blocked kb_rules_febre
           "Febre" (VStr "Sim")); [reflexivity|reflexivity|].
  intros r. change (rules kb_rules_febre) with [rule_febre; rule_risco].
  intros Hr Hc.
  apply elem_of_cons in Hr as [->|Hr]; [reflexivity|].
  apply list_elem_of_singleton in Hr as ->. discriminate Hc.
Defined.

(** ** Justifications on the example stores *)

Lemma kb_febre_describes : justifications_describe_facts kb_febre.
Proof.
  unfold kb_febre, add_fact. apply describe_assert; [|reflexivity|discriminate].
  apply describe_base_only. intros a j.
  change (justifications kb_rules_febre) with (∅ : gmap string Justification).
  by rewrite lookup_empty.
Qed.

Lemma justifications_stay_descriptive_witness :
  ∃ r, r ∈ rules (effect ForwardRun kb_febre)
       ∧ r_id r = 2%Z ∧ derives r (mkFact "Risco" (VStr "Alto")).
Proof.
  destruct (justifications_stay_descriptive
              ForwardRun kb_febre kb_febre_describes
              ltac:(intros rid Hm; discriminate Hm)
              "Risco"
              (mkJustification (mkFact "Risco" (VStr "Alto")) (Some 2%Z)
                 [mkFact "Febre" (VStr "Sim")] "forward (it=1)")
              ltac:(by vm_compute)) as [_ Hrule].
  exact (Hrule 2%Z eq_refl).
Defined.

(** ** Explanations on the example stores *)

Lemma explain_how_never_returns_witness :
  explain_how_rec text_of_value 1000 kb_detour_proved "A" (VInt 1) 0 = Unfinished.
Proof.
  apply (explain_how_never_returns text_of_value
           (λ a, a = "A" ∨ a = "B") kb_detour_proved).
  - intros a [->| ->].
    + split; [exists (VInt 1); by vm_compute|].
      exists "B". split; [by right|].
      exists (mkJustification (mkFact "A" (VInt 1)) (Some 1%Z)
                [mkFact "B" (VInt 1)] "backward"), 1%Z, (mkFact "B" (VInt 1)).
      split; [by vm_compute|]. split; [reflexivity|].
      split; [by apply list_elem_of_singleton|reflexivity].
    + split; [exists (VInt 1); by vm_compute|].
      exists "A". split; [by left|].
      exists (mkJustification (mkFact "B" (VInt 1)) (Some 2%Z)
                [mkFact "A" (VInt 2)] "backward"), 2%Z, (mkFact "A" (VInt 2)).
      split; [by vm_compute|]. split; [reflexivity|].
      split; [by apply list_elem_of_singleton|reflexivity].
  - by left.
  - by vm_compute.
Defined.

Lemma kb_febre_chained_ranked a b :
  cites kb_febre_chained a b → (rank_febre b < rank_febre a)%nat.
Proof.
  intros (j & rid & p & Hj & Hrid & Hp & <-).
  assert (justifications kb_febre_chained
          = <["Risco" := mkJustification (mkFact "Risco" (VStr "Alto")) (Some 2%Z)
                           [mkFact "Febre" (VStr "Sim")] "forward (it=1)"]>
              (<["Febre" := mkJustification (mkFact "Febre" (VStr "Sim")) (Some 1%Z)
                              [mkFact "Temperatura" (VInt 39)] "forward (it=1)"]>
                 (<["Temperatura" := mkJustification (mkFact "Temperatura" (VInt 39))
                                       None [] "base"]> ∅))) as Hmap
    by (by vm_compute).
  rewrite Hmap in Hj.
  destruct (decide (a = "Risco")) as [->|Hr].
  { rewrite lookup_insert_eq in Hj. injection Hj as <-.
    apply list_elem_of_singleton in Hp as ->. vm_compute. lia. }
  rewrite lookup_insert_ne in Hj by done.
  destruct (decide (a = "Febre")) as [->|Hf].
  { rewrite lookup_insert_eq in Hj. injection Hj as <-.
    apply list_elem_of_singleton in Hp as ->. vm_compute. lia. }
  rewrite lookup_insert_ne in Hj by done.
  destruct (decide (a = "Temperatura")) as [->|Ht].
  { rewrite lookup_insert_eq in Hj. injection Hj as <-. discriminate Hrid. }
  rewrite lookup_insert_ne in Hj by done. by rewrite lookup_empty in Hj.
Qed.

Lemma explain_how_ranked_witness :
  ∃ t, explain_how_rec text_of_value 3 kb_febre_chained "Risco" (VStr "Alto") 0
       = Explained t.
Proof.
  apply (explain_how_ranked text_of_value rank_febre kb_febre_chained
           kb_febre_chained_ranked 3 "Risco" (VStr "Alto") 0).
  vm_compute. lia.
Defined.

Lemma explain_why_ranked_witness :
  ∃ t, explain_why text_of_value 2 kb_febre_chained "Risco" (VStr "Alto") 0
       = Explained t.
Proof.
  apply (explain_why_ranked text_of_value rank_febre kb_febre_chained
           ltac:(by vm_compute) kb_febre_chained_ranked 2 "Risco" (VStr "Alto") 0).
  vm_compute. lia.
Defined.

Lemma kb_febre_rules_agree : rules_agree kb_febre.
Proof.
  intros r r'. change (rules kb_febre) with [rule_febre; rule_risco].
  intros Hr Hr' Ha.
  apply elem_of_cons in Hr as [->|Hr];
    [|apply list_elem_of_singleton in Hr as ->];
    (apply elem_of_cons in Hr' as [->|Hr'];
     [|apply list_elem_of_singleton in Hr' as ->]);
    first [reflexivity | discriminate Ha].
Qed.

Lemma kb_febre_facts_agree : facts_agree kb_febre.
Proof.
  intros r x. change (rules kb_febre) with [rule_febre; rule_risco].
  intros Hr Hx.
  apply elem_of_cons in Hr as [->|Hr];
    [|apply list_elem_of_singleton in Hr as ->]; discriminate Hx.
Qed.

Lemma kb_febre_base_only a j :
  justifications kb_febre !! a = Some j → j_rule_id j = None.
Proof.
  unfold kb_febre, add_fact. simpl.
  change (justifications kb_rules_febre) with (∅ : gmap string Justification).
  destruct (decide ("Temperatura" = a)) as [<-|Hne].
  - rewrite lookup_insert_eq. by intros [= <-].
  - rewrite lookup_insert_ne by done. by rewrite lookup_empty.
Qed.

Lemma forward_chain_explainable_witness :
  ∃ n, ∀ fuel, (n < fuel)%nat →
    ∃ t, explain_how_rec text_of_value fuel
           (fst (forward_chain kb_febre 50))
           "Risco" (VStr "Alto") 0 = Explained t.
Proof.
  destruct (forward_chain_explainable text_of_value
              kb_febre 50 kb_febre_rules_agree kb_febre_facts_agree
              (proj1 (base_only_ranked kb_febre kb_febre_base_only))
              (proj2 (base_only_ranked kb_febre kb_febre_base_only)))
    as (_ & _ & _ & Hhow).
  exact (Hhow "Risco" (VStr "Alto") 0%nat).
Defined.

(** ** The undo stack on the example session *)

Lemma session_febre_sound : stack_sound session_febre.
Proof.
  unfold session_febre.
  repeat (apply handle_sound). apply machine_init_sound.
Qed.

Lemma undo_stack_of_stores_witness :
  stores_of
    (fold_left (step)
       [Do ForwardRun; Undo; Do (RemoveRule 1); Undo; Undo] session_febre)
  = fold_left (step_stores)
      [Do ForwardRun; Undo; Do (RemoveRule 1); Undo; Undo] (stores_of session_febre).
Proof.
  apply (undo_stack_of_stores
           [Do ForwardRun; Undo; Do (RemoveRule 1); Undo; Undo] session_febre).
  apply session_febre_sound.
Defined.

Lemma undo_all_restores_witness :
  stores_of
    (fold_left (step)
       (map Do [ForwardRun; RemoveRule 1; AddFact "Tosse" (VStr "Sim")]
        ++ repeat Undo
             (length [ForwardRun; RemoveRule 1; AddFact "Tosse" (VStr "Sim")]))
       session_febre)
  = stores_of session_febre.
Proof.
  apply (undo_all_restores
           [ForwardRun; RemoveRule 1; AddFact "Tosse" (VStr "Sim")] session_febre).
  apply session_febre_sound.
Defined.

(** ** What forward chaining keeps, on the example stores *)


(** ** A failed backward proof on the example store *)

Lemma backward_prove_failure_keeps_known_witness :
  rules (snd (backward_prove kb_gripe "Gripe" (VStr "Sim"))) = rules kb_gripe
  ∧ unchanged_at kb_gripe (snd (backward_prove kb_gripe "Gripe" (VStr "Sim")))
      "Temperatura"
  ∧ (unchanged_at kb_gripe (snd (backward_prove kb_gripe "Gripe" (VStr "Sim")))
       "Febre"
     ∨ (facts kb_gripe !! "Febre" = None
        ∧ ∃ w, written_backward
                 (snd (backward_prove kb_gripe "Gripe" (VStr "Sim"))) "Febre" w))
  ∧ (has_fact (snd (backward_prove kb_gripe "Gripe" (VStr "Sim")))
       "Gripe" (VStr "Sim") = false
     ∨ (VStr "Sim" = VNone
        ∧ facts kb_gripe !! "Gripe" = None
        ∧ ∃ w, written_backward
                 (snd (backward_prove kb_gripe "Gripe" (VStr "Sim"))) "Gripe" w)).
Proof.
  destruct (backward_prove_failure_keeps_known kb_gripe "Gripe" (VStr "Sim")
              (snd (backward_prove kb_gripe "Gripe" (VStr "Sim"))))
    as (Hr & Hu & Ha & Hg).
  - by vm_compute.
  - split; [exact Hr|]. split; [|split; [exact (Ha "Febre")|exact Hg]].
    apply Hu. exists (VInt 39). reflexivity.
Defined.

End ExampleProps.
